(** * Presto official templates: the gongwen Markdown-to-Typst converter

    A shallow embedding of [gongwen/main.go] and [internal/typst/escape.go].

    Representation of the Go data:
    - a Go [string] is a sequence of bytes: [bytes := list ascii]
      (an [ascii] is an 8-bit byte; a string literal of this file denotes
      the bytes of its UTF-8 encoding, as a Go literal does);
    - a [rune] is a code point, an integer of [Z];
    - [int] is the 64-bit signed integer of the release targets;
    - the goldmark syntax tree is an inductive type of nodes;
    - the [converter] struct is a record, threaded explicitly through the
      rendering functions;
    - the libraries the program calls but does not contain (the YAML
      decoder, the Markdown parser, the HTML entity table, the Unicode
      tables beyond Latin-1) are the fields of the class [GoLib]. *)

From Stdlib Require Import ZArith Lia List Ascii String Bool QArith Lqa DecimalString.
From stdpp Require Import base list strings gmap.
From Equations Require Import Equations.
Import ListNotations.

Open Scope string_scope.
Open Scope Z_scope.
Open Scope nat_scope.
Open Scope list_scope.

(** A string literal stands for its bytes. *)
Coercion list_ascii_of_string : string >-> list.

Definition bytes := list ascii.
Definition rune := Z.

(** ** UTF-8, as Go's [unicode/utf8] and the conversions between
    [string] and [[]rune] implement it *)

Module utf8.

Definition RuneError : rune := 0xFFFD%Z.
Definition MaxRune : rune := 0x10FFFF%Z.

Definition byte_val (c : ascii) : Z := Z.of_N (N_of_ascii c).
Definition byte_of (z : Z) : ascii := ascii_of_N (Z.to_N z).

Definition between (lo hi : Z) (c : ascii) : bool :=
    (lo <=? byte_val c)%Z && (byte_val c <=? hi)%Z.

  (** [utf8.DecodeRuneInString]: the first rune of [s] and its width in
      bytes; [(RuneError, 0)] for the empty string and [(RuneError, 1)]
      for an encoding that is invalid, overlong, a surrogate, out of range
      or cut short. *)
Definition DecodeRune (s : bytes) : rune * nat :=
    match s with
    | [] => (RuneError, 0)
    | c0 :: s1 =>
        let b0 := byte_val c0 in
        if (b0 <? 0x80)%Z then (b0, 1)
        else if (b0 <? 0xC2)%Z then (RuneError, 1)
        else if (b0 <? 0xE0)%Z then
          match s1 with
          | c1 :: _ =>
              if between 0x80 0xBF c1
              then (((b0 - 0xC0) * 64 + (byte_val c1 - 0x80))%Z, 2)
              else (RuneError, 1)
          | _ => (RuneError, 1)
          end
        else if (b0 <? 0xF0)%Z then
          let lo := if (b0 =? 0xE0)%Z then 0xA0%Z else 0x80%Z in
          let hi := if (b0 =? 0xED)%Z then 0x9F%Z else 0xBF%Z in
          match s1 with
          | c1 :: c2 :: _ =>
              if between lo hi c1 && between 0x80 0xBF c2
              then (((b0 - 0xE0) * 4096 + (byte_val c1 - 0x80) * 64
                     + (byte_val c2 - 0x80))%Z, 3)
              else (RuneError, 1)
          | _ => (RuneError, 1)
          end
        else if (b0 <? 0xF5)%Z then
          let lo := if (b0 =? 0xF0)%Z then 0x90%Z else 0x80%Z in
          let hi := if (b0 =? 0xF4)%Z then 0x8F%Z else 0xBF%Z in
          match s1 with
          | c1 :: c2 :: c3 :: _ =>
              if between lo hi c1 && between 0x80 0xBF c2 && between 0x80 0xBF c3
              then (((b0 - 0xF0) * 262144 + (byte_val c1 - 0x80) * 4096
                     + (byte_val c2 - 0x80) * 64 + (byte_val c3 - 0x80))%Z, 4)
              else (RuneError, 1)
          | _ => (RuneError, 1)
          end
        else (RuneError, 1)
    end.

  (** [[]rune(s)]: the runes of [s], an invalid byte giving [RuneError].
      [skip] counts the bytes of the current rune still to be passed. *)
Fixpoint runes_from (skip : nat) (s : bytes) : list rune :=
    match s with
    | [] => []
    | _ :: s' =>
        match skip with
        | S k => runes_from k s'
        | O => fst (DecodeRune s) :: runes_from (snd (DecodeRune s) - 1) s'
        end
    end.

Definition runes (s : bytes) : list rune := runes_from 0 s.

  (** A Unicode scalar value: what [utf8.ValidRune] accepts. *)
Definition ValidRune (r : rune) : bool :=
    ((0 <=? r) && (r <? 0xD800) || (0xDFFF <? r) && (r <=? MaxRune))%Z.

  (** The encoding of a scalar value. *)
Definition encode_scalar (r : rune) : bytes :=
    if (r <? 0x80)%Z then [byte_of r]
    else if (r <? 0x800)%Z then
      [byte_of (0xC0 + r / 64); byte_of (0x80 + r mod 64)]%Z
    else if (r <? 0x10000)%Z then
      [byte_of (0xE0 + r / 4096); byte_of (0x80 + (r / 64) mod 64);
       byte_of (0x80 + r mod 64)]%Z
    else
      [byte_of (0xF0 + r / 262144); byte_of (0x80 + (r / 4096) mod 64);
       byte_of (0x80 + (r / 64) mod 64); byte_of (0x80 + r mod 64)]%Z.

  (** [utf8.AppendRune] / [strings.Builder.WriteRune]: a rune that is not
      a scalar value is written as [RuneError]. *)
Definition EncodeRune (r : rune) : bytes :=
    if ValidRune r then encode_scalar r else encode_scalar RuneError.

  (** [string(rs)] for a slice of runes. *)
Definition string_of_runes (rs : list rune) : bytes :=
    flat_map EncodeRune rs.

  (** [utf8.ValidString]: [s] is well-formed UTF-8; re-encoding the runes
      of [s] gives [s] back exactly when no byte of [s] decoded to
      [RuneError] by error. *)
Definition ValidString (s : bytes) : bool :=
    bool_decide (string_of_runes (runes s) = s).

End utf8.

(** ** Go's [strings] package on byte sequences *)

Module strings.

  (** [strings.HasPrefix] *)
Fixpoint HasPrefix (s prefix : bytes) {struct prefix} : bool :=
    match prefix, s with
    | [], _ => true
    | p :: prefix', c :: s' => Ascii.eqb c p && HasPrefix s' prefix'
    | _ :: _, [] => false
    end.

  (** [strings.HasSuffix] *)
Definition HasSuffix (s suffix : bytes) : bool :=
    HasPrefix (rev s) (rev suffix).

  (** [strings.TrimPrefix] and [strings.TrimSuffix] *)
Definition TrimPrefix (s prefix : bytes) : bytes :=
    if HasPrefix s prefix then drop (length prefix) s else s.

Definition TrimSuffix (s suffix : bytes) : bytes :=
    if HasSuffix s suffix then take (length s - length suffix) s else s.

  (** The replacement loop of [strings.ReplaceAll] for a non-empty [old]:
      matches are found left to right and do not overlap; [skip] counts the
      bytes of the current match still to be passed over. *)
Fixpoint replace_from (old new : bytes) (skip : nat) (s : bytes) : bytes :=
    match s with
    | [] => []
    | c :: s' =>
        match skip with
        | S k => replace_from old new k s'
        | O =>
            if HasPrefix s old
            then new ++ replace_from old new (length old - 1) s'
            else c :: replace_from old new 0 s'
        end
    end.

  (** [strings.ReplaceAll] with an empty [old]: [new] is inserted at the
      beginning of the string and after each UTF-8 sequence. *)
Fixpoint insert_around (new : bytes) (skip : nat) (s : bytes) : bytes :=
    match s with
    | [] => new
    | c :: s' =>
        match skip with
        | S k => c :: insert_around new k s'
        | O => new ++ c :: insert_around new (snd (utf8.DecodeRune s) - 1) s'
        end
    end.

  (** [strings.ReplaceAll s old new] *)
Definition ReplaceAll (s old new : bytes) : bytes :=
    match old with
    | [] => insert_around new 0 s
    | _ :: _ => replace_from old new 0 s
    end.

  (** [strings.Index]: the byte offset of the first occurrence, or [None]
      for Go's [-1]. *)
Fixpoint Index (s substr : bytes) : option nat :=
    if HasPrefix s substr then Some 0
    else match s with
         | [] => None
         | _ :: s' => option_map S (Index s' substr)
         end.

  (** [strings.Contains] *)
Definition Contains (s substr : bytes) : bool :=
    match Index s substr with Some _ => true | None => false end.

  (** [strings.TrimRight s cutset] and [strings.TrimLeft s cutset], for a
      cutset of ASCII bytes. *)
Definition in_cutset (cutset : bytes) (c : ascii) : bool :=
    existsb (Ascii.eqb c) cutset.

Fixpoint TrimLeft (s cutset : bytes) : bytes :=
    match s with
    | c :: s' => if in_cutset cutset c then TrimLeft s' cutset else s
    | [] => []
    end.

Definition TrimRight (s cutset : bytes) : bytes :=
    rev (TrimLeft (rev s) cutset).

  (** [strings.Join] *)
Fixpoint Join (elems : list bytes) (sep : bytes) : bytes :=
    match elems with
    | [] => []
    | [e] => e
    | e :: rest => e ++ sep ++ Join rest sep
    end.

  (** [strings.Repeat] *)
Fixpoint Repeat (s : bytes) (count : nat) : bytes :=
    match count with
    | O => []
    | S n => s ++ Repeat s n
    end.

  (** [strings.Split s sep] for a one-byte separator: the fields between
      the separators, [ [""] ] for the empty string. *)
Fixpoint Split (s : bytes) (sep : ascii) : list bytes :=
    match s with
    | [] => [[]]
    | c :: s' =>
        if Ascii.eqb c sep then [] :: Split s' sep
        else match Split s' sep with
             | f :: fs => (c :: f) :: fs
             | [] => [[c]]
             end
    end.

End strings.

(** ** [internal/typst/escape.go] *)

Module typst.

Definition backslash : ascii := ascii_of_nat 92.
Definition dquote : ascii := ascii_of_nat 34.

  (** [EscapeString] escapes [s] for a Typst string literal: backslash,
      double quote and hash, in this order. *)
Definition EscapeString (s : bytes) : bytes :=
    let s := strings.ReplaceAll s [backslash] [backslash; backslash] in
    let s := strings.ReplaceAll s [dquote] [backslash; dquote] in
    let s := strings.ReplaceAll s "#" [backslash; "#"%char] in
    s.

  (** [EscapeContent] escapes [s] for a Typst content block: backslash,
      closing bracket and hash, in this order. *)
Definition EscapeContent (s : bytes) : bytes :=
    let s := strings.ReplaceAll s [backslash] [backslash; backslash] in
    let s := strings.ReplaceAll s "]" [backslash; "]"%char] in
    let s := strings.ReplaceAll s "#" [backslash; "#"%char] in
    s.

  (** Decoders for the two escapes (not part of the program: the left
      inverses that the injectivity of the escapes rests on). *)

  (** Undo the doubling of backslashes. *)
Fixpoint halve (s : bytes) : bytes :=
    match s with
    | c :: s' =>
        if Ascii.eqb c backslash then
          match s' with
          | d :: s'' => if Ascii.eqb d backslash then backslash :: halve s'' else c :: halve s'
          | [] => [c]
          end
        else c :: halve s'
    | [] => []
    end.

  (** Drop the backslash that stands before each [x]. *)
Fixpoint unprotect (x : ascii) (s : bytes) : bytes :=
    match s with
    | c :: s' =>
        if Ascii.eqb c backslash then
          match s' with
          | d :: _ => if Ascii.eqb d x then unprotect x s' else c :: unprotect x s'
          | [] => [c]
          end
        else c :: unprotect x s'
    | [] => []
    end.

Definition UnescapeString (s : bytes) : bytes :=
    halve (unprotect dquote (unprotect "#" s)).

Definition UnescapeContent (s : bytes) : bytes :=
    halve (unprotect "]" (unprotect "#" s)).

End typst.

(** ** The goldmark syntax tree

    A node has a kind, with the attributes the program reads, and
    children in source order. A segment of the source is carried as the
    bytes it denotes ([Segment.Value(source)]). *)

Inductive nodeKind :=
| KindDocument
| KindParagraph
| KindHeading (Level : nat)
| KindList (IsOrdered : bool)
| KindListItem
| KindFencedCodeBlock (Info : option bytes) (Lines : list bytes)
| KindCodeBlock (Lines : list bytes)
| KindThematicBreak
| KindBlockquote
| KindHTMLBlock (Lines : list bytes)
| KindText (Value : bytes) (SoftLineBreak HardLineBreak : bool)
| KindString (Value : bytes)
| KindCodeSpan
| KindEmphasis (Level : nat)
| KindLink (Destination : bytes)
| KindAutoLink (URL : bytes)
| KindImage (Destination : bytes)
| KindRawHTML
| KindOther.

Inductive node := Node (kind : nodeKind) (children : list node).

Definition Kind (n : node) : nodeKind := match n with Node k _ => k end.
Definition Children (n : node) : list node := match n with Node _ c => c end.

(** ** The libraries the program calls

    Functions and tables of the Go standard library and of the two
    third-party packages that the program uses and that are no part of
    the repository. *)

Inductive yaml_value :=
| YString (s : bytes)
| YBool (b : bool)
| YSeq (items : list yaml_value)
| YOther (printed : bytes).
    (* any other dynamic type (integer, float, null, mapping, timestamp),
       carried as what the verb [%v] prints for it *)

Class GoLib := {
  (** [yaml.Unmarshal] into a [map[string]interface{}]; [None] is an error *)
  yaml_Unmarshal : bytes -> option (gmap bytes yaml_value);
  (** the [unicode.Digit] range table above Latin-1 *)
  unicode_Digit_table : rune -> bool;
  (** the case table of [unicode.ToLower] above ASCII *)
  unicode_ToLower_table : rune -> rune;
  (** [html.UnescapeString] *)
  html_UnescapeString : bytes -> bytes;
  (** the goldmark parser: [md.Parser().Parse(text.NewReader(source))],
      with the segments of the tree resolved against the source *)
  goldmark_Parse : bytes -> node;
  (** [//go:embed template_head.typ] *)
  templateHead : bytes;
}.

Definition LF : ascii := "010"%char.
Definition CR : ascii := "013"%char.
Definition DQ : ascii := "034"%char.
Definition nl : bytes := [LF].

Module unicode.

  (** [unicode.IsDigit] *)
Definition IsDigit `{GoLib} (r : rune) : bool :=
    if (r <=? 0xFF)%Z then (0x30 <=? r)%Z && (r <=? 0x39)%Z
    else unicode_Digit_table r.

  (** [unicode.ToLower] *)
Definition ToLower `{GoLib} (r : rune) : rune :=
    if (r <=? 0x7F)%Z then
      if (0x41 <=? r)%Z && (r <=? 0x5A)%Z then (r + 32)%Z else r
    else unicode_ToLower_table r.

  (** [unicode.IsSpace]: the White_Space property. *)
Definition IsSpace (r : rune) : bool :=
    if (r <=? 0xFF)%Z then
      ((0x09 <=? r) && (r <=? 0x0D) || (r =? 0x20) || (r =? 0x85) || (r =? 0xA0))%Z
    else
      ((r =? 0x1680) || (0x2000 <=? r) && (r <=? 0x200A) || (r =? 0x2028)
       || (r =? 0x2029) || (r =? 0x202F) || (r =? 0x205F) || (r =? 0x3000))%Z.

End unicode.

Definition is_ascii_digit (c : ascii) : bool := utf8.between 0x30 0x39 c.

(** [fmt.Sprintf("%v", v)] *)
Fixpoint Sprint_v (v : yaml_value) : bytes :=
  match v with
  | YString s => s
  | YBool true => "true"
  | YBool false => "false"
  | YSeq items => "[" ++ strings.Join (map Sprint_v items) " " ++ "]"
  | YOther printed => printed
  end.

(** [strings.ToLower] *)
Definition strings_ToLower `{GoLib} (s : bytes) : bytes :=
  if forallb (fun c => (utf8.byte_val c <? 0x80)%Z) s
  then map (fun c => utf8.byte_of (unicode.ToLower (utf8.byte_val c))) s
  else utf8.string_of_runes (map unicode.ToLower (utf8.runes s)).

(** ** YAML front matter *)

Record frontMatter := {
  Title : bytes;
  Author : bytes;   (* joined with "、" *)
  Date : bytes;     (* raw string from YAML *)
  Signature : bool;
}.

Definition set_Title (fm : frontMatter) (v : bytes) : frontMatter :=
  {| Title := v; Author := Author fm; Date := Date fm; Signature := Signature fm |}.
Definition set_Author (fm : frontMatter) (v : bytes) : frontMatter :=
  {| Title := Title fm; Author := v; Date := Date fm; Signature := Signature fm |}.
Definition set_Date (fm : frontMatter) (v : bytes) : frontMatter :=
  {| Title := Title fm; Author := Author fm; Date := v; Signature := Signature fm |}.
Definition set_Signature (fm : frontMatter) (v : bool) : frontMatter :=
  {| Title := Title fm; Author := Author fm; Date := Date fm; Signature := v |}.

(** The zero value of the struct with the two placeholders set. *)
Definition defaultFrontMatter : frontMatter :=
  {| Title := "请输入文字"; Author := "请输入文字"; Date := []; Signature := false |}.

Definition bytes_eqb (a b : bytes) : bool := bool_decide (a = b).

(** Drop one leading newline: [if len(s) > 0 && s[0] == '\n' { s = s[1:] }]. *)
Definition skip_newline (s : bytes) : bytes :=
  match s with
  | c :: s' => if Ascii.eqb c LF then s' else s
  | [] => s
  end.

(** [parseFrontMatter] splits the "---" delimited YAML from the body and
    returns the metadata and the body. *)
Definition parseFrontMatter `{GoLib} (input : bytes) : frontMatter * bytes :=
  let fm := defaultFrontMatter in
  (* Normalise line endings *)
  let input := strings.ReplaceAll input [CR; LF] [LF] in
  if negb (strings.HasPrefix input "---") then (fm, input)
  else
    (* Find closing --- *)
    let rest := skip_newline (drop 3 input) in
    match strings.Index rest (LF :: "---") with
    | None => (fm, input)
    | Some idx =>
        let yamlBlock := take idx rest in
        let body := skip_newline (drop (idx + 4) rest) in
        (* Parse YAML into a generic map *)
        match yaml_Unmarshal yamlBlock with
        | None => (fm, body)
        | Some raw =>
            let fm :=
              match raw !! ("title" : bytes) with
              | Some v => set_Title fm (Sprint_v v)
              | None => fm
              end in
            let fm :=
              match raw !! ("author" : bytes) with
              | Some (YString a) => set_Author fm a
              | Some (YSeq a) => set_Author fm (strings.Join (map Sprint_v a) "、")
              | _ => fm
              end in
            let fm :=
              match raw !! ("date" : bytes) with
              | Some v => set_Date fm (Sprint_v v)
              | None => fm
              end in
            let fm :=
              match raw !! ("signature" : bytes) with
              | Some (YBool s) => set_Signature fm s
              | Some (YString s) =>
                  let lower := strings_ToLower s in
                  set_Signature fm (bytes_eqb lower "true" || bytes_eqb lower "yes")
              | _ => fm
              end in
            (fm, body)
        end
    end.

(** [dateRe = ^(\d{4})-(\d{1,2})-(\d{1,2})$]: the three groups of a match. *)
Definition dateRe_day (s : bytes) : option bytes :=
  match s with
  | [d1] => if is_ascii_digit d1 then Some [d1] else None
  | [d1; d2] => if is_ascii_digit d1 && is_ascii_digit d2 then Some [d1; d2] else None
  | _ => None
  end.

Definition dateRe_month_day (s : bytes) : option (bytes * bytes) :=
  match s with
  | m1 :: m2 :: "-"%char :: rest =>
      if is_ascii_digit m1 && is_ascii_digit m2
      then option_map (pair [m1; m2]) (dateRe_day rest) else None
  | m1 :: "-"%char :: rest =>
      if is_ascii_digit m1
      then option_map (pair [m1]) (dateRe_day rest) else None
  | _ => None
  end.

Definition dateRe_FindStringSubmatch (s : bytes) : option (bytes * bytes * bytes) :=
  match s with
  | y1 :: y2 :: y3 :: y4 :: "-"%char :: rest =>
      if forallb is_ascii_digit [y1; y2; y3; y4]
      then option_map (fun md => ([y1; y2; y3; y4], fst md, snd md)) (dateRe_month_day rest)
      else None
  | _ => None
  end.

(** [formatDate] converts "YYYY-MM-DD" to a [datetime(...)] value,
    otherwise returns a quoted string. *)
Definition formatDate (date : bytes) : bytes :=
  match date with
  | [] => [DQ; DQ]
  | _ =>
      match dateRe_FindStringSubmatch date with
      | Some (year, m2, m3) =>
          (* Strip leading zeros for month/day *)
          let month := strings.TrimLeft m2 "0" in
          let day := strings.TrimLeft m3 "0" in
          "datetime(" ++ nl ++ "  year: " ++ year ++ "," ++ nl ++ "  month: " ++ month
          ++ "," ++ nl ++ "  day: " ++ day ++ "," ++ nl ++ ")"
      | None => [DQ] ++ date ++ [DQ]
      end
  end.


(** ** Regular expressions

    A compiled pattern is modelled by the anchored match it performs: for
    a text, the length in bytes of the leftmost-first match that starts at
    the text's first byte, if there is one. The patterns of the program
    never match the empty string. *)

Definition regexp := bytes -> option nat.

Module regexp.

  (** The length of the longest prefix of [s] whose bytes satisfy [p]. *)
Fixpoint run_length (p : ascii -> bool) (s : bytes) : nat :=
    match s with
    | c :: s' => if p c then S (run_length p s') else 0
    | [] => 0
    end.

  (** The class [\s] of RE2: [[\t\n\f\r ]]. *)
Definition space (c : ascii) : bool :=
    Ascii.eqb c "009" || Ascii.eqb c "010" || Ascii.eqb c "012"
    || Ascii.eqb c "013" || Ascii.eqb c " ".

  (** [[^\s]+]: every byte of a rune outside [\s] is a byte outside [\s],
      so the greedy run of runes is the greedy run of bytes. *)
Definition non_space_plus : regexp := fun s =>
    match run_length (fun c => negb (space c)) s with
    | O => None
    | n => Some n
    end.

  (** A literal followed by the pattern [m]. *)
Definition after (lit : bytes) (m : regexp) : regexp := fun s =>
    if strings.HasPrefix s lit
    then option_map (Nat.add (length lit)) (m (drop (length lit) s))
    else None.

  (** Alternation, the first alternative that matches. *)
Definition alt (m1 m2 : regexp) : regexp := fun s =>
    match m1 s with
    | Some n => Some n
    | None => m2 s
    end.

  (** The scan of [FindAllStringIndex(s, -1)] for a pattern with no empty
      match: successive leftmost matches that do not overlap, as pairs of
      byte offsets (start, end). [pos] is the offset of the first byte of
      [s] in the whole text and [skip] counts the bytes of the last match
      still to be passed. *)
Fixpoint find_all_from (re : regexp) (pos skip : nat) (s : bytes) : list (nat * nat) :=
    match s with
    | [] => []
    | _ :: s' =>
        match skip with
        | S k => find_all_from re (S pos) k s'
        | O =>
            match re s with
            | Some n => (pos, pos + n) :: find_all_from re (S pos) (n - 1) s'
            | None => find_all_from re (S pos) 0 s'
            end
        end
    end.

Definition FindAllStringIndex (re : regexp) (s : bytes) : list (nat * nat) :=
    find_all_from re 0 0 s.

End regexp.

(** ** Punctuation conversion *)

(** A rune literal: ['x'] of Go is [R "x"]. *)
Definition R (s : string) : rune := fst (utf8.DecodeRune s).

(** [urlPattern = https?://[^\s]+|ftp://[^\s]+|mailto:[^\s]+] matches
    the common URL schemes to skip. *)
Definition urlPattern : regexp :=
  regexp.alt
    (regexp.after "http"
       (regexp.alt (regexp.after "s://" regexp.non_space_plus)
                   (regexp.after "://" regexp.non_space_plus)))
    (regexp.alt (regexp.after "ftp://" regexp.non_space_plus)
                (regexp.after "mailto:" regexp.non_space_plus)).

(** [markerPattern = \{[^}]*\}] matches the {…} markers to skip. *)
Definition markerPattern : regexp :=
  regexp.after "{" (fun s =>
    let n := regexp.run_length (fun c => negb (Ascii.eqb c "}")) s in
    if strings.HasPrefix (drop n s) "}" then Some (n + 1) else None).

(** The closure [inSkip] of [convertPunctuation]. *)
Definition inSkip (skipSpans : list (nat * nat)) (pos : nat) : bool :=
  existsb (fun s => (fst s <=? pos) && (pos <? snd s)) skipSpans.

(** The [switch r] of [convertPunctuation], for the rune [r] at index [i]. *)
Definition convertRune `{GoLib} (runes : list rune) (i : nat) (r : rune) : rune :=
  if (r =? R ",")%Z then R "，"
  else if (r =? R ";")%Z then R "；"
  else if (r =? R "?")%Z then R "？"
  else if (r =? R "(")%Z then R "（"
  else if (r =? R ")")%Z then R "）"
  else if (r =? R ":")%Z then
    (* Keep colon between digits (e.g. 12:30) *)
    if (0 <? i) && (i <? length runes - 1)
       && unicode.IsDigit (runes !!! (i - 1))
       && unicode.IsDigit (runes !!! (i + 1))
    then R ":"
    else R "："
  else r.

(** [convertPunctuation] converts half-width punctuation to full-width
    for Chinese text. *)
Definition convertPunctuation `{GoLib} (text : bytes) : bytes :=
  (* Find all regions to skip (URLs and markers) *)
  let skipSpans :=
    regexp.FindAllStringIndex urlPattern text
    ++ regexp.FindAllStringIndex markerPattern text in
  let runes := utf8.runes text in
  utf8.string_of_runes
    (imap (fun i r =>
             let bytePos := length (utf8.string_of_runes (take i runes)) in
             if inSkip skipSpans bytePos then r else convertRune runes i r)
          runes).

(** ** More of the standard library *)

(** [utf8.RuneStart]: the byte is no continuation byte. *)
Definition RuneStart (c : ascii) : bool := negb (utf8.between 0x80 0xBF c).

(** [utf8.DecodeLastRuneInString]: the last rune of [s] and its width. The
    rune starts at the nearest rune-start byte among the three bytes
    before the last one, and must end where [s] ends. *)
Definition DecodeLastRune (s : bytes) : rune * nat :=
  match rev s with
  | [] => (utf8.RuneError, 0)
  | c1 :: before =>
      if (utf8.byte_val c1 <? 0x80)%Z then (utf8.byte_val c1, 1)
      else
        let start :=
          match before with
          | c2 :: b2 =>
              if RuneStart c2 then Some 2
              else match b2 with
                   | c3 :: b3 =>
                       if RuneStart c3 then Some 3
                       else match b3 with
                            | c4 :: _ => if RuneStart c4 then Some 4 else None
                            | [] => None
                            end
                   | [] => None
                   end
          | [] => None
          end in
        match start with
        | Some k =>
            let d := utf8.DecodeRune (drop (length s - k) s) in
            if snd d =? k then d else (utf8.RuneError, 1)
        | None => (utf8.RuneError, 1)
        end
  end.

(** [strings.TrimLeftFunc(s, unicode.IsSpace)] *)
Fixpoint trimLeftSpace (skip : nat) (s : bytes) : bytes :=
  match s with
  | [] => []
  | _ :: s' =>
      match skip with
      | S k => trimLeftSpace k s'
      | O =>
          if unicode.IsSpace (fst (utf8.DecodeRune s))
          then trimLeftSpace (snd (utf8.DecodeRune s) - 1) s'
          else s
      end
  end.

(** [strings.TrimRightFunc(s, unicode.IsSpace)]; [fuel] bounds the number
    of runes removed. *)
Fixpoint trimRightSpace (fuel : nat) (s : bytes) : bytes :=
  match fuel with
  | O => s
  | S fuel' =>
      match s with
      | [] => []
      | _ :: _ =>
          if unicode.IsSpace (fst (DecodeLastRune s))
          then trimRightSpace fuel' (take (length s - snd (DecodeLastRune s)) s)
          else s
      end
  end.

(** [strings.TrimSpace] *)
Definition TrimSpace (s : bytes) : bytes :=
  let s := trimLeftSpace 0 s in
  trimRightSpace (length s) s.

(** The native [int] of the release targets has 64 bits. *)
Definition MaxInt : Z := (2 ^ 63 - 1)%Z.
Definition MinInt : Z := (- 2 ^ 63)%Z.

(** Two's complement wrap-around of [int] arithmetic. *)
Definition int_wrap (z : Z) : Z := ((z + 2 ^ 63) mod 2 ^ 64 - 2 ^ 63)%Z.

(** The value of a string of decimal digits. *)
Definition digits_value (ds : bytes) : Z :=
  fold_left (fun acc c => (acc * 10 + (utf8.byte_val c - 0x30))%Z) ds 0%Z.

(** [strconv.Atoi]: the value and whether there was no error. A syntax
    error gives 0; a value out of range gives the nearest bound. *)
Definition Atoi (s : bytes) : Z * bool :=
  let '(neg, ds) :=
    match s with
    | c :: ds =>
        if Ascii.eqb c "-" then (true, ds)
        else if Ascii.eqb c "+" then (false, ds)
        else (false, s)
    | [] => (false, s)
    end in
  match ds with
  | [] => (0%Z, false)
  | _ :: _ =>
      if forallb is_ascii_digit ds then
        let v := digits_value ds in
        if neg then
          if (v <=? 2 ^ 63)%Z then ((- v)%Z, true) else (MinInt, false)
        else
          if (v <=? MaxInt)%Z then (v, true) else (MaxInt, false)
      else (0%Z, false)
  end.

(** The verb [%d] of [fmt.Sprintf] for an [int]. *)
Definition fmt_d (z : Z) : bytes :=
  list_ascii_of_string (NilZero.string_of_int (Z.to_int z)).

(** [strconv.FormatBool] *)
Definition FormatBool (b : bool) : bytes := if b then "true" else "false".

(** [filepath.Base] and [filepath.Ext], with the separator "/" of the
    release targets. *)
Definition isPathSeparator (c : ascii) : bool := Ascii.eqb c "/".

Fixpoint take_until (p : ascii -> bool) (s : bytes) : bytes :=
  match s with
  | c :: s' => if p c then [] else c :: take_until p s'
  | [] => []
  end.

Definition filepath_Base (path : bytes) : bytes :=
  match path with
  | [] => "."
  | _ :: _ =>
      (* Strip trailing slashes, then find the last element. *)
      let stripped := strings.TrimLeft (rev path) "/" in
      match rev (take_until isPathSeparator stripped) with
      | [] => "/"
      | last => last
      end
  end.

(** The suffix of the last element that starts at its final dot. *)
Fixpoint ext_rev (acc : bytes) (rpath : bytes) : bytes :=
  match rpath with
  | c :: rest =>
      if isPathSeparator c then []
      else if Ascii.eqb c "." then c :: acc
      else ext_rev (c :: acc) rest
  | [] => []
  end.

Definition filepath_Ext (path : bytes) : bytes := ext_rev [] (rev path).

(** [strings.SplitN(s, " ", 2)[0]]: the text before the first space. *)
Definition before_first_space (s : bytes) : bytes :=
  take_until (fun c => Ascii.eqb c " ") s.

(** ** Markdown pre-processing *)

(** A pattern [(?m)^lit\s*$]: the literal at the start of a line, then
    white space up to the end of a line or of the text; the greedy [\s*]
    gives back what it took as far as the last line end it passed. *)
Fixpoint last_newline (run : bytes) (pos : nat) (found : option nat) : option nat :=
  match run with
  | [] => found
  | c :: run' => last_newline run' (S pos) (if Ascii.eqb c LF then Some pos else found)
  end.

Definition line_pattern (lit : bytes) : regexp :=
  regexp.after lit (fun t =>
    let w := regexp.run_length regexp.space t in
    match drop w t with
    | [] => Some w
    | _ :: _ => last_newline (take w t) 0 None
    end).

(** [ReplaceAllString] for such a pattern: [atLineStart] tells whether the
    first byte of [s] starts a line, [skip] counts the bytes of the last
    match still to be passed. *)
Fixpoint replace_lines (re : regexp) (repl : bytes) (atLineStart : bool) (skip : nat)
    (s : bytes) : bytes :=
  match s with
  | [] => []
  | c :: s' =>
      match skip with
      | S k => replace_lines re repl (Ascii.eqb c LF) k s'
      | O =>
          match (if atLineStart then re s else None) with
          | Some n => repl ++ replace_lines re repl (Ascii.eqb c LF) (n - 1) s'
          | None => c :: replace_lines re repl (Ascii.eqb c LF) 0 s'
          end
      end
  end.

(** [reNoindentOpen = (?m)^::: \{\.noindent\}\s*$] *)
Definition reNoindentOpen : regexp := line_pattern "::: {.noindent}".
(** [reNoindentClose = (?m)^:::\s*$] *)
Definition reNoindentClose : regexp := line_pattern ":::".

Definition preprocessBody (body : bytes) : bytes :=
  let body := replace_lines reNoindentOpen "<!-- noindent-start -->" true 0 body in
  let body := replace_lines reNoindentClose "<!-- noindent-end -->" true 0 body in
  body.

(** ** Goldmark AST to Typst *)

Record converter := {
  figureCounter : Z;
  hasSeenHeader : bool;
}.

(** The bytes of the [Text] children of a node (the loop of a code span). *)
Definition textChildren (n : node) : bytes :=
  flat_map (fun child =>
              match Kind child with
              | KindText v _ _ => v
              | _ => []
              end) (Children n).

(** [plainText] extracts all text from a node tree (for marker
    detection): the walk of [ast.Walk], on entering each node. *)
Fixpoint plainText `{GoLib} (n : node) : bytes :=
  match n with
  | Node k children =>
      match k with
      | KindText v soft _ =>
          v ++ (if soft then " " else []) ++ flat_map plainText children
      | KindCodeSpan =>
          (* include code span text *)
          textChildren n
      | KindString v =>
          html_UnescapeString v ++ flat_map plainText children
      | _ => flat_map plainText children
      end
  end.

(** [renderInline] renders a single inline node to Typst; [renderInlines]
    renders the inline children of a node. *)
Fixpoint renderInline `{GoLib} (n : node) : bytes :=
  match n with
  | Node k children =>
      let inner := flat_map renderInline children in
      match k with
      | KindText v soft hard =>
          let result := convertPunctuation v in
          let result := if soft then result ++ nl else result in
          let result := if hard then result ++ " \" ++ nl else result in
          result
      | KindString v => convertPunctuation (html_UnescapeString v)
      | KindCodeSpan => "`" ++ textChildren n ++ "`"
      | KindEmphasis level =>
          if level =? 2 then "#strong[" ++ inner ++ "]"
          else "#emph[" ++ inner ++ "]"
      | KindLink dest => "#link(" ++ [DQ] ++ dest ++ [DQ] ++ ")[" ++ inner ++ "]"
      | KindAutoLink url => "#link(" ++ [DQ] ++ url ++ [DQ] ++ ")"
      | KindImage _ => []
      | KindRawHTML => []
      | _ => inner
      end
  end.

Definition renderInlines `{GoLib} (n : node) : bytes :=
  flat_map renderInline (Children n).

(** [collectImages] collects all Image nodes from a paragraph's children. *)
Definition collectImages (para : node) : list node :=
  List.filter (fun child => match Kind child with KindImage _ => true | _ => false end)
              (Children para).

Definition imageDestination (img : node) : bytes :=
  match Kind img with
  | KindImage dest => dest
  | _ => []
  end.

(** The caption of an image: its file name without the extension. *)
Definition imageCaption (img : node) : bytes :=
  let filename := filepath_Base (imageDestination img) in
  strings.TrimSuffix filename (filepath_Ext filename).

Definition singleImageTemplate (path caption : bytes) (figNum : Z) : bytes :=
  "#figure(
  context {
    let img = image("
  ++ [DQ]
  ++ path
  ++ [DQ]
  ++ ")
    let img-size = measure(img)
    let x = img-size.width
    let y = img-size.height
    let max-size = 13.4cm

    let new-x = x
    let new-y = y

    if x > max-size {
      let scale = max-size / x
      new-x = max-size
      new-y = y * scale
    }

    if new-y > max-size {
      let scale = max-size / new-y
      new-x = new-x * scale
      new-y = max-size
    }

    image("
  ++ [DQ]
  ++ path
  ++ [DQ]
  ++ ", width: new-x, height: new-y)
  },
  caption: ["
  ++ caption
  ++ "],
) <fig-"
  ++ fmt_d figNum
  ++ ">
".

Definition multiImageTemplate (paths captions alts is_subfigure main_caption : bytes) : bytes :=
  "
#context {
  let paths = ("
  ++ paths
  ++ ")
  let captions = ("
  ++ captions
  ++ ")
  let alts = ("
  ++ alts
  ++ ")

  let is_subfigure = "
  ++ is_subfigure
  ++ "
  let main_caption = "
  ++ [DQ]
  ++ main_caption
  ++ [DQ]
  ++ "

  let gap = 0.3cm
  let max-width = 13.4cm
  let min-height = 6cm

  let sizes = paths.zip(captions).zip(alts).map(item => {
    let p = item.at(0).at(0)
    let c = item.at(0).at(1)
    let alt = item.at(1)
    let img = image(p)
    let s = measure(img)
    (width: s.width, height: s.height, path: p, caption: c, alt: alt, ratio: s.width / s.height)
  })

  let calc-row-height(imgs, total-width) = {
    let ratio-sum = imgs.map(i => i.ratio).sum()
    total-width / ratio-sum
  }

  let rows = ()

  if is_subfigure {
    rows.push(sizes)
  } else {
    let remaining = sizes

    while remaining.len() > 0 {
      let row = ()
      let found = false

      for n in range(1, remaining.len() + 1) {
        let candidate = remaining.slice(0, n)
        let gaps = (n - 1) * gap
        let available-width = max-width - gaps
        let row-h = calc-row-height(candidate, available-width)

        if row-h < min-height and n > 1 {
          row = remaining.slice(0, n - 1)
          remaining = remaining.slice(n - 1)
          found = true
          break
        }
      }

      if not found {
        row = remaining
        remaining = ()
      }

      rows.push(row)
    }
  }

  let render-rows(rows) = {
    for row in rows {
      let n = row.len()
      let gaps = (n - 1) * gap
      let available-width = max-width - gaps
      let row-height = calc-row-height(row, available-width)

      if row-height > max-width {
        row-height = max-width
      }

      align(center, grid(
        columns: n,
        gutter: gap,
        ..row.enumerate().map(item => {
          let i = item.at(0)
          let img-data = item.at(1)
          let w = row-height * img-data.ratio

          if is_subfigure {
             let sub-label = numbering("
  ++ [DQ]
  ++ "a"
  ++ [DQ]
  ++ ", i + 1)
             let sub-text = [ (#sub-label) #img-data.caption ]

             v(0.5em)
             align(center, block({
               image(img-data.path, width: w, height: row-height)
               align(center, text(font: FONT_FS, size: zh(3))[#sub-text])
             }))
          } else {
             figure(
               image(img-data.path, width: w, height: row-height),
               caption: [ #img-data.caption ]
             )
          }
        })
      ))
      if is_subfigure { v(0.5em) } else { v(0.3em) }
    }
  }

  if is_subfigure {
    figure(
      context { render-rows(rows) },
      caption: [ #main_caption ]
    )
  } else {
    render-rows(rows)
  }
}

".

(** [renderSingleImage] generates Typst figure code for a single image. *)
Definition renderSingleImage (c : converter) (img : node) : bytes * converter :=
  let c := {| figureCounter := int_wrap (figureCounter c + 1);
              hasSeenHeader := hasSeenHeader c |} in
  let path := imageDestination img in
  let caption := imageCaption img in
  (singleImageTemplate path caption (figureCounter c), c).

(** What [renderMultiImage] computes for its template. *)
Record imgInfo := {
  info_path : bytes;
  info_caption : bytes;
  info_alt : bytes;
  info_figNum : Z;
}.

(** The first loop: is there an image with alt text? *)
Definition anyAlt `{GoLib} (images : list node) : bool :=
  existsb (fun img => negb (bytes_eqb (plainText img) [])) images.

(** The second loop: the infos, with a figure number for each image when
    the images are no subfigures. *)
Fixpoint imageInfos `{GoLib} (isSubfigure : bool) (c : converter) (images : list node)
  : list imgInfo * converter :=
  match images with
  | [] => ([], c)
  | img :: rest =>
      let path := imageDestination img in
      let caption := imageCaption img in
      let alt := plainText img in
      let c1 :=
        if isSubfigure then c
        else {| figureCounter := int_wrap (figureCounter c + 1);
                hasSeenHeader := hasSeenHeader c |} in
      let figNum := if isSubfigure then 0%Z else figureCounter c1 in
      let '(infos, c2) := imageInfos isSubfigure c1 rest in
      ({| info_path := path; info_caption := caption; info_alt := alt;
          info_figNum := figNum |} :: infos, c2)
  end.

Definition quoted (s : bytes) : bytes := [DQ] ++ s ++ [DQ].

(** The caption of the whole group: the alt text of the first image. *)
Definition mainCaption (isSubfigure : bool) (infos : list imgInfo) : bytes :=
  match infos with
  | first :: _ => if isSubfigure then info_alt first else []
  | [] => []
  end.

(** [renderMultiImage] generates Typst code for multiple images in one
    paragraph. *)
Definition renderMultiImage `{GoLib} (c : converter) (images : list node)
  : bytes * converter :=
  let isSubfigure := anyAlt images in
  let c :=
    if isSubfigure
    then {| figureCounter := int_wrap (figureCounter c + 1);
            hasSeenHeader := hasSeenHeader c |}
    else c in
  let '(infos, c) := imageInfos isSubfigure c images in
  let pathsStr := map (fun info => quoted (info_path info)) infos in
  let captionsStr := map (fun info => quoted (info_caption info)) infos in
  let altsStr := map (fun info => quoted (info_alt info)) infos in
  (multiImageTemplate (strings.Join pathsStr ", ") (strings.Join captionsStr ", ")
     (strings.Join altsStr ", ") (FormatBool isSubfigure)
     (mainCaption isSubfigure infos), c).

(** [vMarkerRe = ^\{v(?::(\d+))?\}$] matches {v} or {v:N}: the first
    group of a match, empty when the group did not take part. *)
Definition vMarkerRe_FindStringSubmatch (text : bytes) : option bytes :=
  if bytes_eqb text "{v}" then Some []
  else if strings.HasPrefix text "{v:" then
    let rest := drop 3 text in
    let n := regexp.run_length is_ascii_digit rest in
    if (0 <? n) && bytes_eqb (drop n rest) "}"
    then Some (take n rest) else None
  else None.

(** [processMarker] checks if text is a standalone marker and returns
    the Typst code; [None] is the result [("", false)]. *)
Definition processMarker (text : bytes) : option bytes :=
  let text := TrimSpace text in
  match vMarkerRe_FindStringSubmatch text with
  | Some m1 =>
      let count := if bytes_eqb m1 [] then 1%Z else fst (Atoi m1) in
      let lines := repeat ("#linebreak(justify: false)" : bytes) (Z.to_nat count) in
      Some (strings.Join lines nl ++ nl)
  | None =>
      if bytes_eqb text "{pagebreak}" then Some ("#pagebreak()" ++ nl)
      else if bytes_eqb text "{pagebreak:weak}" then Some ("#pagebreak(weak: true)" ++ nl)
      else None
  end.

Inductive trailingMarker := NoMarker | MarkerNoindent | MarkerIndent.

(** [stripTrailingMarker] checks for {.noindent} or {indent} at the end of
    inline text. *)
Definition stripTrailingMarker (text : bytes) : bytes * trailingMarker :=
  let text := strings.TrimRight text " " in
  if strings.HasSuffix text "{.noindent}"
  then (strings.TrimRight (strings.TrimSuffix text "{.noindent}") " ", MarkerNoindent)
  else if strings.HasSuffix text "{indent}"
  then (strings.TrimRight (strings.TrimSuffix text "{indent}") " ", MarkerIndent)
  else (text, NoMarker).

(** [renderParagraph] renders a paragraph node to Typst. *)
Definition renderParagraph `{GoLib} (c : converter) (para : node) : bytes * converter :=
  let images := collectImages para in
  match images with
  | [img] => renderSingleImage c img
  | _ :: _ :: _ => renderMultiImage c images
  | [] =>
      let plain := plainText para in
      let trimmed := TrimSpace plain in
      match processMarker trimmed with
      | Some result => (result, c)
      | None =>
          let content := renderInlines para in
          match snd (stripTrailingMarker trimmed) with
          | MarkerNoindent =>
              let content := strings.TrimRight content (" " ++ nl) in
              let content := strings.TrimSuffix content "{.noindent}" in
              let content := strings.TrimRight content " " in
              ("#block[#set par(first-line-indent: 0pt)" ++ nl ++ "#block[" ++ nl
               ++ content ++ nl ++ nl ++ "]" ++ nl ++ "]" ++ nl, c)
          | MarkerIndent =>
              let content := strings.TrimRight content (" " ++ nl) in
              let content := strings.TrimSuffix content "{indent}" in
              let content := strings.TrimRight content " " in
              (content ++ nl ++ nl, c)
          | NoMarker =>
              let t := TrimSpace content in
              if negb (hasSeenHeader c)
                 && (strings.HasSuffix t "：" || strings.HasSuffix t ":")
              then ("#block[#set par(first-line-indent: 0pt)" ++ nl ++ "#block[" ++ nl
                    ++ content ++ nl ++ nl ++ "]" ++ nl ++ "]" ++ nl, c)
              else (content ++ nl ++ nl, c)
          end
      end
  end.

Definition headingLevel (h : node) : nat :=
  match Kind h with
  | KindHeading level => level
  | _ => 0
  end.

(** [renderHeading] renders a heading node to Typst. *)
Definition renderHeading `{GoLib} (c : converter) (h : node) : bytes * converter :=
  let c := {| figureCounter := figureCounter c; hasSeenHeader := true |} in
  if headingLevel h =? 1 then ([], c)
  else
    let content := renderInlines h in
    let prefix := strings.Repeat "=" (headingLevel h) in
    match snd (stripTrailingMarker (TrimSpace (plainText h))) with
    | MarkerNoindent =>
        let content := strings.TrimRight content (" " ++ nl) in
        let content := strings.TrimSuffix content "{.noindent}" in
        let content := strings.TrimRight content " " in
        ("#block[#set par(first-line-indent: 0pt)" ++ nl ++ prefix ++ " " ++ content
         ++ nl ++ "]" ++ nl ++ nl, c)
    | _ => (prefix ++ " " ++ content ++ nl ++ nl, c)
    end.

(** [renderList] renders a list node to Typst; [renderListItem] renders a
    list item's content. *)
Fixpoint renderList `{GoLib} (list : node) : bytes :=
  match list with
  | Node k children =>
      let marker : bytes :=
        match k with
        | KindList true => "+ "
        | _ => "- "
        end in
      flat_map (fun child =>
                  match child with
                  | Node KindListItem _ => marker ++ renderListItem child ++ nl
                  | _ => []
                  end) children
      ++ nl
  end
with renderListItem `{GoLib} (item : node) : bytes :=
  match item with
  | Node _ children =>
      strings.Join
        (flat_map (fun child =>
                     match child with
                     | Node KindParagraph _ =>
                         [strings.TrimRight (renderInlines child) nl]
                     | Node (KindList _) _ => [renderList child]
                     | _ =>
                         let content := renderInlines child in
                         let content :=
                           if bytes_eqb content []
                           then flat_map renderInline (Children child)
                           else content in
                         let content := strings.TrimRight content nl in
                         if bytes_eqb content [] then [] else [content]
                     end) children)
        nl
  end.

(** [isHTMLComment] checks if a node is an HTML block containing the
    given keyword in its first line. *)
Definition isHTMLComment (n : node) (keyword : bytes) : bool :=
  match Kind n with
  | KindHTMLBlock (first :: _) => strings.Contains first keyword
  | _ => false
  end.

(** [renderCodeBlock] renders a fenced or indented code block. *)
Definition renderCodeBlock (n : node) : bytes :=
  let '(code, lang) :=
    match Kind n with
    | KindFencedCodeBlock (Some info) lines =>
        (concat lines, TrimSpace (before_first_space info))
    | KindFencedCodeBlock None lines => (concat lines, [])
    | KindCodeBlock lines => (concat lines, [])
    | _ => ([], [])
    end in
  if negb (bytes_eqb lang [])
  then "```" ++ lang ++ nl ++ code ++ "```" ++ nl ++ nl
  else "```" ++ nl ++ code ++ "```" ++ nl ++ nl.

(** The lines of a rendered block, each wrapped in a quote. *)
Definition quoteLines (content : bytes) : bytes :=
  flat_map (fun line => "#quote[" ++ line ++ "]" ++ nl)
           (strings.Split (strings.TrimRight content nl) LF).

(** [renderBlock] renders a single block-level node; the loop of
    [renderBlockquote] over the children of a blockquote is a part of it. *)
Fixpoint renderBlock `{GoLib} (c : converter) (n : node) (inNoindent : bool)
  : bytes * converter :=
  match n with
  | Node k children =>
      match k with
      | KindParagraph => renderParagraph c n
      | KindHeading _ => renderHeading c n
      | KindList _ =>
          let content := renderList n in
          if inNoindent
          then ("#block[#set par(first-line-indent: 0pt)" ++ nl ++ content ++ "]" ++ nl, c)
          else (content, c)
      | KindFencedCodeBlock _ _ | KindCodeBlock _ => (renderCodeBlock n, c)
      | KindThematicBreak => ("#line(length: 100%)" ++ nl ++ nl, c)
      | KindBlockquote =>
          let '(out, c) :=
            (fix each (c : converter) (l : list node) : bytes * converter :=
               match l with
               | [] => ([], c)
               | child :: rest =>
                   let '(content, c1) := renderBlock c child false in
                   let '(out, c2) := each c1 rest in
                   (quoteLines content ++ out, c2)
               end) c children in
          (out ++ nl, c)
      | KindHTMLBlock _ => ([], c)
      | _ =>
          (fix each (c : converter) (l : list node) : bytes * converter :=
             match l with
             | [] => ([], c)
             | child :: rest =>
                 let '(content, c1) := renderBlock c child inNoindent in
                 let '(out, c2) := each c1 rest in
                 (content ++ out, c2)
             end) c children
      end
  end.

(** The loop of [renderDocument] over the top-level blocks. Between a
    noindent-start comment and the next noindent-end comment (or the end
    of the document) the blocks are rendered with [inNoindent] and
    wrapped; [inRegion] tells whether the loop is inside such a region. *)
Fixpoint renderBlocks `{GoLib} (c : converter) (inRegion : bool) (l : list node)
  : bytes * converter :=
  match l with
  | [] => (if inRegion then "]" ++ nl ++ "]" ++ nl else [], c)
  | child :: rest =>
      if inRegion then
        if isHTMLComment child "noindent-end"
        then
          let '(out, c1) := renderBlocks c false rest in
          ("]" ++ nl ++ "]" ++ nl ++ out, c1)
        else
          let '(content, c1) := renderBlock c child true in
          let '(out, c2) := renderBlocks c1 true rest in
          (content ++ out, c2)
      else if isHTMLComment child "noindent-start"
      then
        let '(out, c1) := renderBlocks c true rest in
        ("#block[#set par(first-line-indent: 0pt)" ++ nl ++ "#block[" ++ nl ++ out, c1)
      else
        let '(content, c1) := renderBlock c child false in
        let '(out, c2) := renderBlocks c1 false rest in
        (content ++ out, c2)
  end.

(** [renderDocument] renders the full document body. *)
Definition renderDocument `{GoLib} (c : converter) (doc : node) : bytes * converter :=
  renderBlocks c false (Children doc).

(** [convertBody] parses the markdown body and renders it to Typst, with
    a fresh converter. *)
Definition convertBody `{GoLib} (body : bytes) : bytes :=
  let body := preprocessBody body in
  let doc := goldmark_Parse body in
  fst (renderDocument {| figureCounter := 0; hasSeenHeader := false |} doc).

(** [convert] takes the parsed front matter and the markdown body and
    returns the full output. *)
Definition convert `{GoLib} (fm : frontMatter) (body : bytes) : bytes :=
  templateHead
  ++ "#let autoTitle = " ++ [DQ] ++ Title fm ++ [DQ] ++ nl ++ nl
  ++ "#let autoAuthor = " ++ [DQ] ++ Author fm ++ [DQ] ++ nl ++ nl
  ++ "#let autoDate = " ++ formatDate (Date fm) ++ nl ++ nl
  ++ ("#set document(
  title: autoTitle.replace("
     ++ [DQ]
     ++ "|"
     ++ [DQ]
     ++ ", "
     ++ [DQ]
     ++ " "
     ++ [DQ]
     ++ "),
  author: autoAuthor,
  keywords: "
     ++ [DQ]
     ++ "工作总结, 年终报告"
     ++ [DQ]
     ++ ",
  date: auto,
)

= #autoTitle.split("
     ++ [DQ]
     ++ "|"
     ++ [DQ]
     ++ ").map(s => s.trim()).join(linebreak())

")
  ++ (if negb (Signature fm) then "#name(autoAuthor)" ++ nl else [])
  ++ nl
  ++ convertBody body
  ++ (if Signature fm then ("
#v(18pt)
#align(right, block[
  #set align(center)
  #autoAuthor \
  #autoDate.display(
    "
     ++ [DQ]
     ++ "[year]年[month padding:none]月[day padding:none]日"
     ++ [DQ]
     ++ ",
  )
])
") else []).

(** The function [main] hands to [cli.Run]. *)
Definition main_convert `{GoLib} (input : bytes) : bytes :=
  let '(fm, body) := parseFrontMatter input in
  convert fm body.

(** ** The Typst scripts of the two image templates

    What the scripts that [singleImageTemplate] and [multiImageTemplate]
    carry compute once Typst has measured the images. Lengths are exact
    rationals, in centimetres. *)

Module script.

Local Open Scope Q_scope.





















End script.

(** An instance of the library interface for running the definitions on
    concrete inputs: ASCII tables only, no HTML entities, and a YAML
    decoder that rejects every block. *)
Definition asciiLib : GoLib := {|
  yaml_Unmarshal := fun _ => None;
  unicode_Digit_table := fun _ => false;
  unicode_ToLower_table := fun r => r;
  html_UnescapeString := fun s => s;
  goldmark_Parse := fun _ => Node KindDocument [];
  templateHead := [];
|}.

(** ** Definitions of the specification

    What the statements below say of the program, and the notions their
    proofs use. *)

(** Replacing a one-byte [old] works byte by byte. *)
Definition subst1 (o : ascii) (new : bytes) (c : ascii) : bytes :=
  if Ascii.eqb c o then new else [c].

Definition crlf_to_lf (s : bytes) : bytes := strings.ReplaceAll s [CR; LF] [LF].

(** The offset [o] lies inside a match of [re] that starts somewhere
    in [s]. *)
Definition covered (re : regexp) (s : bytes) (o : nat) : Prop :=
  exists a n, a <= o < a + n /\ re (drop a s) = Some n.

(** What the scan needs of a pattern: a match is not empty and lies in
    the text, and a match that starts inside another ends inside it. *)
Record nested (re : regexp) : Prop := {
  nested_bound : forall s n, re s = Some n -> 1 <= n <= length s;
  nested_inner : forall s n k m,
    re s = Some n -> k < n -> re (drop k s) = Some m -> k + m <= n;
}.

(** A byte outside the class [\s]. *)
Definition ns (c : ascii) : bool := negb (regexp.space c).

(** A match of the pattern is the whole run of non-space bytes. *)
Definition run_exact (re : regexp) : Prop :=
  forall s n, re s = Some n -> n = regexp.run_length ns s /\ 1 <= n.

(** The pattern looks at the run of non-space bytes only. *)
Definition run_local (re : regexp) : Prop :=
  forall s s',
    regexp.run_length ns s = regexp.run_length ns s' ->
    take (regexp.run_length ns s) s = take (regexp.run_length ns s) s' ->
    re s = re s'.

Definition not_close (c : ascii) : bool := negb (Ascii.eqb c "}").

(** The spans [convertPunctuation] computes for a text. *)
Definition skipSpans (text : bytes) : list (nat * nat) :=
  regexp.FindAllStringIndex urlPattern text
  ++ regexp.FindAllStringIndex markerPattern text.

(** The offset lies inside a URL match or inside a marker match. *)
Definition excluded (text : bytes) (o : nat) : Prop :=
  covered urlPattern text o \/ covered markerPattern text o.

(** The rune the loop writes for the rune [r] at index [i]. *)
Definition written `{GoLib} (text : bytes) (i : nat) (r : rune) : rune :=
  if inSkip (skipSpans text) (length (utf8.string_of_runes (take i (utf8.runes text))))
  then r else convertRune (utf8.runes text) i r.

Definition out_runes `{GoLib} (text : bytes) : list rune :=
  imap (written text) (utf8.runes text).

(** The runes the switch replaces. *)
Definition is_target (r : rune) : bool :=
  ((r =? R ",") || (r =? R ";") || (r =? R "?") || (r =? R "(")
   || (r =? R ")") || (r =? R ":"))%Z.

Definition keeps_others (R R' : list rune) : Prop :=
  Forall2 (fun r r' => is_target r = false -> r' = r) R R'.

(** The colon test of the switch, in words: the rune at [i] has a
    digit before it and a digit after it. *)
Definition digit_flanked `{GoLib} (rs : list rune) (i : nat) : Prop :=
  exists p q,
    1 <= i /\ rs !! (i - 1) = Some p /\ rs !! (i + 1) = Some q
    /\ unicode.IsDigit p = true /\ unicode.IsDigit q = true.

Definition colon_test `{GoLib} (rs : list rune) (i : nat) : bool :=
  (0 <? i) && (i <? length rs - 1)
  && unicode.IsDigit (rs !!! (i - 1)) && unicode.IsDigit (rs !!! (i + 1)).

(** The forced line break that a {v} marker stands for, on its line. *)
Definition linebreakLine : bytes := "#linebreak(justify: false)" ++ nl.

(** The zero-indent wrapping of a paragraph, as the {.noindent} branch
    of [renderParagraph] writes it. *)
Definition noindentBlock (content : bytes) : bytes :=
  "#block[#set par(first-line-indent: 0pt)" ++ nl ++ "#block[" ++ nl
  ++ content ++ nl ++ nl ++ "]" ++ nl ++ "]" ++ nl.

(** The text ends in a full-width or a half-width colon. *)
Definition endsInColon (t : bytes) : bool :=
  strings.HasSuffix t "：" || strings.HasSuffix t ":".

(** The rendered content of a paragraph with its trailing {.noindent}
    marker taken off. *)
Definition stripNoindent (content : bytes) : bytes :=
  strings.TrimRight
    (strings.TrimSuffix (strings.TrimRight content (" " ++ nl)) "{.noindent}") " ".



(** A text paragraph and an image node, for the examples. *)
Definition textParagraph (s : bytes) : node :=
  Node KindParagraph [Node (KindText s false false) []].

Definition imageNode (dest alt : bytes) : node :=
  Node (KindImage dest)
       (match alt with [] => [] | _ => [Node (KindText alt false false) []] end).

Definition newConverter : converter :=
  {| figureCounter := 0; hasSeenHeader := false |}.

(** The scheme prefixes of the URL pattern. *)
Definition url_schemes : list bytes := ["http://" : bytes; "https://" : bytes; "ftp://" : bytes; "mailto:" : bytes].

(** In words: the text begins with a URL scheme followed by at least one
    byte that is no white space, and [n] is the length of its leading run
    of bytes that are no white space. *)
Definition url_at (s : bytes) (n : nat) : Prop :=
  exists scheme,
    scheme ∈ url_schemes /\ strings.HasPrefix s scheme = true
    /\ n = regexp.run_length ns s /\ length scheme < n.

(** In words: the text begins with an opening brace, and [n] is the
    length up to and with the first closing brace after it. *)
Definition marker_at (s : bytes) (n : nat) : Prop :=
  exists body rest,
    s = "{"%char :: body ++ "}"%char :: rest
    /\ forallb not_close body = true /\ n = length body + 2.

(** ** The rest of the program *)

(** [nodeText] extracts the raw text of an inline node and its children:
    the text of a [Text] child with a newline for its soft line break,
    the text of any other child recursively, and at last the text of the
    node itself when it is a [Text]. *)
Fixpoint nodeText (n : node) : bytes :=
  match n with
  | Node k children =>
      flat_map (fun child =>
                  match child with
                  | Node (KindText v soft _) _ => v ++ (if soft then nl else [])
                  | _ => nodeText child
                  end) children
      ++ match k with
         | KindText v _ _ => v
         | _ => []
         end
  end.

(** ** [internal/cli/cli.go], the version that bounds its input *)

Module cli.

  (** What a run leaves behind: the bytes written to the standard output
      and to the standard error, and the exit status. *)
Record outcome := {
    stdout : bytes;
    stderr : bytes;
    status : Z;
  }.

  (** The standard input: the bytes it delivers, and the text of the
      error that ends them when it is no plain end of file. *)
Record reader := {
    delivered : bytes;
    failure : option bytes;
  }.

  (** [io.ReadAll(io.LimitReader(r, n))]: at most [n] bytes are asked
      of [r]; the error of [r] is met only when [r] ends before them. *)
Definition ReadAll_LimitReader (r : reader) (n : Z) : bytes * option bytes :=
    if (Z.of_nat (length (delivered r)) <? n)%Z
    then (delivered r, failure r)
    else (take (Z.to_nat n) (delivered r), None).

  (** [const maxInputSize = 10 << 20] *)
Definition maxInputSize : Z := Z.shiftl 10 20.

Definition printed (out : bytes) : outcome :=
    {| stdout := out; stderr := []; status := 0 |}.

Definition failed (message : bytes) : outcome :=
    {| stdout := []; stderr := message; status := 1 |}.

  Section Run.

    (** [json.Unmarshal] into a [map[string]interface{}], a value being
        carried as what [fmt.Println] prints for it; [None] is an error. *)
    Variable json_Unmarshal : bytes -> option (gmap bytes bytes).

    (** [Run] implements the template protocol, for the three flags as
        [flag.Parse] has read them: the version of the manifest, the
        manifest, the example, and otherwise the conversion of the
        standard input. *)
Definition Run (manifestJSON exampleMD : bytes) (convert : bytes -> bytes)
        (versionFlag manifestFlag exampleFlag : bool) (stdin : reader) : outcome :=
      if versionFlag then
        match json_Unmarshal manifestJSON with
        | Some m =>
            match m !! ("version" : bytes) with
            | Some v => printed (v ++ nl)
            | None => printed []
            end
        | None => printed []
        end
      else if manifestFlag then printed manifestJSON
      else if exampleFlag then printed exampleMD
      else
        let '(input, err) := ReadAll_LimitReader stdin (maxInputSize + 1) in
        match err with
        | Some e => failed ("error reading input: " ++ e ++ nl)
        | None =>
            if (maxInputSize <? Z.of_nat (length input))%Z
            then failed ("error: input exceeds " ++ fmt_d maxInputSize ++ " bytes" ++ nl)
            else printed (convert input)
        end.

  End Run.

End cli.

(** [main]: the program, for the embedded manifest and example. *)
Definition main `{GoLib} (json_Unmarshal : bytes -> option (gmap bytes bytes))
    (manifestJSON exampleMD : bytes)
    (versionFlag manifestFlag exampleFlag : bool) (stdin : cli.reader) : cli.outcome :=
  cli.Run json_Unmarshal manifestJSON exampleMD main_convert
          versionFlag manifestFlag exampleFlag stdin.

(** ** Notions of the further statements *)

(** Where a Typst string literal ends: the offset, after its opening
    quote, of the first double quote that no backslash escapes. *)
Fixpoint string_end (s : bytes) : option nat :=
  match s with
  | [] => None
  | c :: s' =>
      if Ascii.eqb c typst.dquote then Some 0
      else if Ascii.eqb c typst.backslash then
        match s' with
        | [] => None
        | _ :: s'' => option_map (fun n => S (S n)) (string_end s'')
        end
      else option_map S (string_end s')
  end.

(** A byte that [EscapeString] rewrites, and one that [EscapeContent]
    rewrites. *)
Definition string_special (c : ascii) : bool :=
  Ascii.eqb c typst.backslash || Ascii.eqb c typst.dquote || Ascii.eqb c "#".

Definition content_special (c : ascii) : bool :=
  Ascii.eqb c typst.backslash || Ascii.eqb c "]" || Ascii.eqb c "#".

(** What [EscapeString] and [EscapeContent] write for one byte. *)
Definition escString1 (c : ascii) : bytes :=
  if Ascii.eqb c typst.backslash then [typst.backslash; typst.backslash]
  else if Ascii.eqb c typst.dquote then [typst.backslash; typst.dquote]
  else if Ascii.eqb c "#" then [typst.backslash; "#"%char]
  else [c].

Definition escContent1 (c : ascii) : bytes :=
  if Ascii.eqb c typst.backslash then [typst.backslash; typst.backslash]
  else if Ascii.eqb c "]" then [typst.backslash; "]"%char]
  else if Ascii.eqb c "#" then [typst.backslash; "#"%char]
  else [c].

(** One of the six ASCII bytes that [convertPunctuation] may replace, and
    one of the five that it replaces wherever it does not skip. *)
Definition target_byte (c : ascii) : bool := existsb (Ascii.eqb c) ",;?():".

Definition replaced_byte (c : ascii) : bool := existsb (Ascii.eqb c) ",;?()".

(** A paragraph that holds one image and nothing else. *)
Definition imageParagraph (dest alt : bytes) : node :=
  Node KindParagraph [imageNode dest alt].

(** A list item that holds one paragraph of text. *)
Definition textItem (s : bytes) : node := Node KindListItem [textParagraph s].

(** A heading of one text. *)
Definition textHeading (level : nat) (s : bytes) : node :=
  Node (KindHeading level) [Node (KindText s false false) []].

(** A text with none of the six bytes that [convertPunctuation] may
    replace. *)
Definition no_target (s : bytes) : bool := forallb (fun c => negb (target_byte c)) s.

(** Inline content made of plain text: no soft line break, no [String]
    node, text nodes without children, and code spans that hold text
    nodes only. *)
Definition plainTextNode (n : node) : bool :=
  match n with
  | Node (KindText _ soft _) [] => negb soft
  | _ => false
  end.

Fixpoint textOnly (n : node) : bool :=
  match n with
  | Node k children =>
      match k with
      | KindText _ _ _ => plainTextNode n
      | KindString _ => false
      | KindCodeSpan => forallb plainTextNode children
      | _ => forallb textOnly children
      end
  end.

(** Where a line starts in [p]: at its first byte when [b] says so, and
    after each line feed. *)
Definition line_start (b : bool) (p : bytes) (j : nat) : Prop :=
  match j with
  | O => b = true
  | S i => p !! i = Some LF
  end.

(** No [:::] at the start of a line of [x]. *)
Definition no_fence (x : bytes) : Prop :=
  strings.HasPrefix x ":::" = false /\ strings.Contains x (LF :: ":::") = false.

(** * Theorems *)

(** ** Escaping: [internal/typst/escape.go] *)

Section Escape.

  Import typst.


Lemma ReplaceAll_single o new s :
    strings.ReplaceAll s [o] new = flat_map (subst1 o new) s.
  Proof.
    unfold strings.ReplaceAll.
    induction s as [|c s IH]; [reflexivity|].
    cbn [strings.replace_from strings.HasPrefix flat_map length].
    unfold subst1 at 1. rewrite andb_true_r.
    destruct (Ascii.eqb c o); cbn; now rewrite IH.
  Qed.

Lemma halve_double s :
    halve (flat_map (subst1 backslash [backslash; backslash]) s) = s.
  Proof.
    induction s as [|c s IH]; [reflexivity|].
    cbn [flat_map]. unfold subst1 at 1.
    destruct (Ascii.eqb c backslash) eqn:E.
    - apply Ascii.eqb_eq in E. subst c. cbn. now rewrite IH.
    - cbn [app halve]. rewrite E. now rewrite IH.
  Qed.

  (** After protection no [x] stands first: a backslash is before it. *)
Lemma protect_head x s :
    x <> backslash ->
    match flat_map (subst1 x [backslash; x]) s with
    | d :: _ => d = backslash \/ d <> x
    | [] => True
    end.
  Proof.
    intros Hx. destruct s as [|c s]; [exact I|].
    cbn [flat_map]. unfold subst1 at 1.
    destruct (Ascii.eqb c x) eqn:E; cbn.
    - now left.
    - right. now apply Ascii.eqb_neq.
  Qed.

Lemma unprotect_protect x s :
    x <> backslash ->
    unprotect x (flat_map (subst1 x [backslash; x]) s) = s.
  Proof.
    intros Hx. induction s as [|c s IH]; [reflexivity|].
    cbn [flat_map]. unfold subst1 at 1.
    destruct (Ascii.eqb c x) eqn:E.
    - apply Ascii.eqb_eq in E. subst c.
      cbn [app unprotect]. rewrite Ascii.eqb_refl.
      rewrite Ascii.eqb_refl.
      destruct (Ascii.eqb x backslash) eqn:E'.
      { apply Ascii.eqb_eq in E'. contradiction. }
      now rewrite IH.
    - cbn [app unprotect].
      destruct (Ascii.eqb c backslash) eqn:Eb; [|now rewrite IH].
      pose proof (protect_head x s Hx) as Hh.
      destruct (flat_map (subst1 x [backslash; x]) s) as [|d rest] eqn:Er.
      + rewrite <- IH. reflexivity.
      + destruct (Ascii.eqb d x) eqn:Ed; [|now rewrite IH].
        apply Ascii.eqb_eq in Ed. subst d.
        destruct Hh as [Hh|Hh]; congruence.
  Qed.

Lemma UnescapeString_EscapeString s : UnescapeString (EscapeString s) = s.
  Proof.
    unfold UnescapeString, EscapeString.
    change (list_ascii_of_string "#") with ["#"%char].
    rewrite !ReplaceAll_single.
    rewrite unprotect_protect by discriminate.
    rewrite unprotect_protect by discriminate.
    apply halve_double.
  Qed.

Lemma UnescapeContent_EscapeContent s : UnescapeContent (EscapeContent s) = s.
  Proof.
    unfold UnescapeContent, EscapeContent.
    change (list_ascii_of_string "#") with ["#"%char].
    change (list_ascii_of_string "]") with ["]"%char].
    rewrite !ReplaceAll_single.
    rewrite unprotect_protect by discriminate.
    rewrite unprotect_protect by discriminate.
    apply halve_double.
  Qed.

End Escape.

(** C10. [EscapeString] and [EscapeContent] are injective, and each has a
    decoder that recovers every input from its escaped form: escaping
    never conflates two distinct inputs. *)
Theorem C10_escape_injective :
  (forall s1 s2, typst.EscapeString s1 = typst.EscapeString s2 -> s1 = s2) /\
  (forall s1 s2, typst.EscapeContent s1 = typst.EscapeContent s2 -> s1 = s2) /\
  (exists decode, forall s, decode (typst.EscapeString s) = s) /\
  (exists decode, forall s, decode (typst.EscapeContent s) = s).
Proof.
  repeat split.
  - intros s1 s2 H.
    rewrite <- (UnescapeString_EscapeString s1), <- (UnescapeString_EscapeString s2).
    now rewrite H.
  - intros s1 s2 H.
    rewrite <- (UnescapeContent_EscapeContent s1), <- (UnescapeContent_EscapeContent s2).
    now rewrite H.
  - exists typst.UnescapeString. apply UnescapeString_EscapeString.
  - exists typst.UnescapeContent. apply UnescapeContent_EscapeContent.
Qed.

(** The escapes at an input that holds all three control characters of a
    string literal, and the injectivity applied to it. *)
Lemma C10_escape_injective_witness :
  typst.EscapeString [typst.backslash; typst.dquote; "#"%char; "a"%char]
  = [typst.backslash; typst.backslash; typst.backslash; typst.dquote;
     typst.backslash; "#"%char; "a"%char]
  /\ [typst.backslash; typst.dquote; "#"%char; "a"%char]
     = [typst.backslash; typst.dquote; "#"%char; "a"%char].
Proof.
  split; [reflexivity|].
  apply (proj1 C10_escape_injective). reflexivity.
Defined.

(** ** Front matter *)

Section FrontMatter.

  Context `{GoLib}.


Lemma crlf_to_lf_cons c s :
    crlf_to_lf (c :: s) =
    if Ascii.eqb c CR && strings.HasPrefix s [LF]
    then LF :: crlf_to_lf (drop 1 s)
    else c :: crlf_to_lf s.
  Proof.
    unfold crlf_to_lf, strings.ReplaceAll.
    cbn [strings.replace_from strings.HasPrefix length Nat.sub].
    destruct (Ascii.eqb c CR); cbn [andb]; [|reflexivity].
    destruct s as [|d s]; cbn [strings.HasPrefix]; [reflexivity|].
    rewrite andb_true_r.
    destruct (Ascii.eqb d LF); reflexivity.
  Qed.

  (** The normalisation of line endings neither makes nor breaks a prefix
      that holds no carriage return and no line feed. *)
Lemma HasPrefix_crlf_to_lf p s :
    Forall (fun x => x <> CR /\ x <> LF) p ->
    strings.HasPrefix (crlf_to_lf s) p = strings.HasPrefix s p.
  Proof.
    intros Hp. revert s. induction Hp as [|x p [HxC HxL] Hp IH]; intros s.
    - reflexivity.
    - destruct s as [|c s]; [reflexivity|].
      rewrite crlf_to_lf_cons.
      destruct (Ascii.eqb c CR && strings.HasPrefix s [LF]) eqn:E.
      + apply andb_true_iff in E as [E _]. apply Ascii.eqb_eq in E. subst c.
        cbn [strings.HasPrefix].
        replace (Ascii.eqb LF x) with false by (symmetry; apply Ascii.eqb_neq; congruence).
        replace (Ascii.eqb CR x) with false by (symmetry; apply Ascii.eqb_neq; congruence).
        reflexivity.
      + cbn [strings.HasPrefix]. now rewrite IH.
  Qed.

  (** A text with no CR LF pair is its own normalisation. *)
Lemma crlf_to_lf_id s :
    strings.Contains s [CR; LF] = false -> crlf_to_lf s = s.
  Proof.
    unfold strings.Contains.
    induction s as [|c s IH]; [reflexivity|].
    intros Hc. rewrite crlf_to_lf_cons.
    cbn [strings.Index] in Hc.
    cbn [strings.HasPrefix] in Hc.
    destruct s as [|d s].
    - cbn [strings.HasPrefix]. now rewrite andb_false_r.
    - cbn [strings.HasPrefix] in *. rewrite andb_true_r in *.
      destruct (Ascii.eqb c CR && Ascii.eqb d LF) eqn:E; [discriminate|].
      f_equal. apply IH.
      destruct (strings.Index (d :: s) [CR; LF]); [discriminate|reflexivity].
  Qed.

End FrontMatter.

(** C2, as the code has it. For every input that does not begin with the
    delimiter "---", [parseFrontMatter] returns the default front matter
    (placeholder title and author, empty date, signature false) and, as
    the body, the input with its line endings normalised (each CR LF pair
    replaced by LF); an input that holds no CR LF pair is returned
    unmodified. *)
Theorem C2_no_delimiter `{GoLib} (input : bytes) :
  strings.HasPrefix input "---" = false ->
  parseFrontMatter input
    = (defaultFrontMatter, strings.ReplaceAll input [CR; LF] [LF])
  /\ Title defaultFrontMatter = "请输入文字"
  /\ Author defaultFrontMatter = "请输入文字"
  /\ Date defaultFrontMatter = []
  /\ Signature defaultFrontMatter = false
  /\ (strings.Contains input [CR; LF] = false ->
      parseFrontMatter input = (defaultFrontMatter, input)).
Proof.
  intros Hp.
  assert (Hparse : parseFrontMatter input
                   = (defaultFrontMatter, strings.ReplaceAll input [CR; LF] [LF])).
  { unfold parseFrontMatter.
    change (strings.ReplaceAll input [CR; LF] [LF]) with (crlf_to_lf input).
    rewrite HasPrefix_crlf_to_lf, Hp; [reflexivity|].
    repeat constructor; discriminate. }
  repeat split; try exact Hparse.
  intros Hc. rewrite Hparse. f_equal. now apply crlf_to_lf_id.
Qed.

Lemma C2_no_delimiter_witness :
  parseFrontMatter (H := asciiLib) ("# Title" ++ [CR; LF] ++ "text")
  = (defaultFrontMatter, "# Title" ++ [LF] ++ "text").
Proof.
  apply (C2_no_delimiter (H := asciiLib) ("# Title" ++ [CR; LF] ++ "text")).
  reflexivity.
Defined.

(** C2 as stated fails: the body of an input with a CR LF line ending,
    and no leading delimiter, is not the unmodified input. *)
Lemma C2_counterexample :
  strings.HasPrefix ("a" ++ [CR; LF] ++ "b") "---" = false
  /\ forall L : GoLib,
       snd (parseFrontMatter ("a" ++ [CR; LF] ++ "b")) = "a" ++ [LF] ++ "b"
       /\ snd (parseFrontMatter ("a" ++ [CR; LF] ++ "b")) <> "a" ++ [CR; LF] ++ "b".
Proof.
  split; [reflexivity|]. intros L. split; [reflexivity|]. discriminate.
Qed.

(** ** UTF-8: decoding inverts encoding *)

Section Utf8.

  Import utf8.

Lemma byte_val_range c : (0 <= byte_val c < 256)%Z.
  Proof.
    unfold byte_val. pose proof (N_ascii_bounded c). lia.
  Qed.

Lemma byte_val_of z : (0 <= z < 256)%Z -> byte_val (byte_of z) = z.
  Proof.
    intros Hz. unfold byte_val, byte_of.
    rewrite N_ascii_embedding by lia. lia.
  Qed.

Lemma byte_of_val c : byte_of (byte_val c) = c.
  Proof.
    unfold byte_val, byte_of. rewrite N2Z.id. apply ascii_N_embedding.
  Qed.

Lemma byte_val_inj c d : byte_val c = byte_val d -> c = d.
  Proof.
    intros E. rewrite <- (byte_of_val c), <- (byte_of_val d). now rewrite E.
  Qed.

Ltac split_tests :=
    repeat match goal with
      | |- context [(?a <? ?b)%Z] => destruct (Z.ltb_spec a b)
      | |- context [(?a <=? ?b)%Z] => destruct (Z.leb_spec a b)
      | |- context [(?a =? ?b)%Z] => destruct (Z.eqb_spec a b)
      | H : context [(?a <? ?b)%Z] |- _ => destruct (Z.ltb_spec a b)
      | H : context [(?a <=? ?b)%Z] |- _ => destruct (Z.leb_spec a b)
      | H : context [(?a =? ?b)%Z] |- _ => destruct (Z.eqb_spec a b)
      end.

Lemma ValidRune_spec r :
    ValidRune r = true <-> (0 <= r < 0xD800 \/ 0xDFFF < r <= 0x10FFFF)%Z.
  Proof.
    unfold ValidRune, MaxRune. split_tests; cbn; split; intros; try lia; try discriminate; auto.
  Qed.

Lemma encode_scalar_length r : 1 <= length (encode_scalar r) <= 4.
  Proof. unfold encode_scalar. split_tests; cbn; lia. Qed.

Lemma EncodeRune_length r : 1 <= length (EncodeRune r) <= 4.
  Proof. unfold EncodeRune. destruct (ValidRune r); apply encode_scalar_length. Qed.

  (** Decoding the encoding of a scalar value gives the value back,
      whatever follows. *)
Lemma DecodeRune_encode_scalar r rest :
    ValidRune r = true ->
    DecodeRune (encode_scalar r ++ rest) = (r, length (encode_scalar r)).
  Proof.
    intros Hv. apply ValidRune_spec in Hv.
    unfold encode_scalar.
    destruct (Z.ltb_spec r 0x80); [|destruct (Z.ltb_spec r 0x800); [|destruct (Z.ltb_spec r 0x10000)]].
    - cbn [app DecodeRune length]. rewrite byte_val_of by lia.
      destruct (Z.ltb_spec r 0x80); [reflexivity|lia].
    - cbn [app DecodeRune length].
      pose proof (Z.div_mod r 64 ltac:(lia)) as Hd.
      pose proof (Z.mod_pos_bound r 64 ltac:(lia)) as Hm.
      assert (2 <= r / 64 < 32)%Z as Hq by (split; [apply Z.div_le_lower_bound|apply Z.div_lt_upper_bound]; lia).
      unfold between.
      rewrite !byte_val_of by lia.
      destruct (Z.ltb_spec (0xC0 + r / 64) 0x80); [lia|].
      destruct (Z.ltb_spec (0xC0 + r / 64) 0xC2); [lia|].
      destruct (Z.ltb_spec (0xC0 + r / 64) 0xE0); [|lia].
      destruct (Z.leb_spec 0x80 (0x80 + r mod 64)); [|lia].
      destruct (Z.leb_spec (0x80 + r mod 64) 0xBF); [|lia].
      cbn [andb]. f_equal. lia.
    - cbn [app DecodeRune length].
      pose proof (Z.div_mod r 4096 ltac:(lia)) as Hd.
      pose proof (Z.mod_pos_bound r 4096 ltac:(lia)) as Hm.
      pose proof (Z.div_mod r 64 ltac:(lia)) as Hd1.
      pose proof (Z.mod_pos_bound r 64 ltac:(lia)) as Hm1.
      pose proof (Z.div_mod (r / 64) 64 ltac:(lia)) as Hd2.
      pose proof (Z.mod_pos_bound (r / 64) 64 ltac:(lia)) as Hm2.
      assert (r / 64 / 64 = r / 4096)%Z as Hdd by (rewrite Z.div_div by lia; reflexivity).
      assert (0 <= r / 4096 < 16)%Z as Hq by (split; [apply Z.div_le_lower_bound|apply Z.div_lt_upper_bound]; lia).
      unfold between.
      rewrite !byte_val_of by lia.
      destruct (Z.ltb_spec (0xE0 + r / 4096) 0x80); [lia|].
      destruct (Z.ltb_spec (0xE0 + r / 4096) 0xC2); [lia|].
      destruct (Z.ltb_spec (0xE0 + r / 4096) 0xE0); [lia|].
      destruct (Z.ltb_spec (0xE0 + r / 4096) 0xF0); [|lia].
      replace ((if (0xE0 + r / 4096 =? 0xE0)%Z then 0xA0%Z else 0x80%Z)
               <=? 0x80 + (r / 64) mod 64)%Z with true
        by (symmetry; destruct (Z.eqb_spec (0xE0 + r / 4096) 0xE0); apply Z.leb_le; lia).
      replace (0x80 + (r / 64) mod 64
               <=? (if (0xE0 + r / 4096 =? 0xED)%Z then 0x9F%Z else 0xBF%Z))%Z with true
        by (symmetry; destruct (Z.eqb_spec (0xE0 + r / 4096) 0xED); apply Z.leb_le; lia).
      destruct (Z.leb_spec 0x80 (0x80 + r mod 64)); [|lia].
      destruct (Z.leb_spec (0x80 + r mod 64) 0xBF); [|lia].
      cbn [andb]. f_equal. lia.
    - cbn [app DecodeRune length].
      pose proof (Z.div_mod r 64 ltac:(lia)) as Hd1.
      pose proof (Z.mod_pos_bound r 64 ltac:(lia)) as Hm1.
      pose proof (Z.div_mod (r / 64) 64 ltac:(lia)) as Hd2.
      pose proof (Z.mod_pos_bound (r / 64) 64 ltac:(lia)) as Hm2.
      pose proof (Z.div_mod (r / 4096) 64 ltac:(lia)) as Hd3.
      pose proof (Z.mod_pos_bound (r / 4096) 64 ltac:(lia)) as Hm3.
      assert (r / 64 / 64 = r / 4096)%Z as Hdd by (rewrite Z.div_div by lia; reflexivity).
      assert (r / 4096 / 64 = r / 262144)%Z as Hdd' by (rewrite Z.div_div by lia; reflexivity).
      assert (0 <= r / 262144 < 5)%Z as Hq by (split; [apply Z.div_le_lower_bound|apply Z.div_lt_upper_bound]; lia).
      unfold between.
      rewrite !byte_val_of by lia.
      destruct (Z.ltb_spec (0xF0 + r / 262144) 0x80); [lia|].
      destruct (Z.ltb_spec (0xF0 + r / 262144) 0xC2); [lia|].
      destruct (Z.ltb_spec (0xF0 + r / 262144) 0xE0); [lia|].
      destruct (Z.ltb_spec (0xF0 + r / 262144) 0xF0); [lia|].
      destruct (Z.ltb_spec (0xF0 + r / 262144) 0xF5); [|lia].
      replace ((if (0xF0 + r / 262144 =? 0xF0)%Z then 0x90%Z else 0x80%Z)
               <=? 0x80 + (r / 4096) mod 64)%Z with true
        by (symmetry; destruct (Z.eqb_spec (0xF0 + r / 262144) 0xF0); apply Z.leb_le; lia).
      replace (0x80 + (r / 4096) mod 64
               <=? (if (0xF0 + r / 262144 =? 0xF4)%Z then 0x8F%Z else 0xBF%Z))%Z with true
        by (symmetry; destruct (Z.eqb_spec (0xF0 + r / 262144) 0xF4); apply Z.leb_le; lia).
      destruct (Z.leb_spec 0x80 (0x80 + (r / 64) mod 64)); [|lia].
      destruct (Z.leb_spec (0x80 + (r / 64) mod 64) 0xBF); [|lia].
      destruct (Z.leb_spec 0x80 (0x80 + r mod 64)); [|lia].
      destruct (Z.leb_spec (0x80 + r mod 64) 0xBF); [|lia].
      cbn [andb]. f_equal. lia.
  Qed.

Lemma between_spec lo hi c :
    between lo hi c = true <-> (lo <= byte_val c <= hi)%Z.
  Proof.
    unfold between. rewrite andb_true_iff, !Z.leb_le. tauto.
  Qed.

  (** Every decoded rune is a scalar value. *)
Lemma DecodeRune_valid s : ValidRune (fst (DecodeRune s)) = true.
  Proof.
    destruct s as [|c0 s1]; [reflexivity|].
    cbn [DecodeRune]. pose proof (byte_val_range c0) as H0.
    destruct (Z.ltb_spec (byte_val c0) 0x80).
    { apply ValidRune_spec. cbn [fst]. lia. }
    destruct (Z.ltb_spec (byte_val c0) 0xC2); [reflexivity|].
    destruct (Z.ltb_spec (byte_val c0) 0xE0).
    { destruct s1 as [|c1 s2]; [reflexivity|].
      destruct (between 0x80 0xBF c1) eqn:E1; [|reflexivity].
      apply between_spec in E1. apply ValidRune_spec. cbn [fst]. lia. }
    destruct (Z.ltb_spec (byte_val c0) 0xF0).
    { destruct s1 as [|c1 [|c2 s3]]; [reflexivity|reflexivity|].
      match goal with |- context [if ?b then _ else _] => destruct b eqn:E end; [|reflexivity].
      apply andb_true_iff in E as [E1 E2].
      apply between_spec in E1, E2. apply ValidRune_spec. cbn [fst].
      destruct (Z.eqb_spec (byte_val c0) 0xE0), (Z.eqb_spec (byte_val c0) 0xED); lia. }
    destruct (Z.ltb_spec (byte_val c0) 0xF5); [|reflexivity].
    destruct s1 as [|c1 [|c2 [|c3 s4]]]; [reflexivity|reflexivity|reflexivity|].
    match goal with |- context [if ?b then _ else _] => destruct b eqn:E end; [|reflexivity].
    apply andb_true_iff in E as [E E3]. apply andb_true_iff in E as [E1 E2].
    apply between_spec in E1, E2, E3. apply ValidRune_spec. cbn [fst].
    destruct (Z.eqb_spec (byte_val c0) 0xF0), (Z.eqb_spec (byte_val c0) 0xF4); lia.
  Qed.

Lemma runes_from_valid k s : Forall (fun r => ValidRune r = true) (runes_from k s).
  Proof.
    revert k. induction s as [|c s IH]; intros k; [constructor|].
    destruct k; cbn [runes_from]; [|apply IH].
    constructor; [apply DecodeRune_valid|apply IH].
  Qed.

Lemma runes_valid s : Forall (fun r => ValidRune r = true) (runes s).
  Proof. apply runes_from_valid. Qed.

Lemma runes_from_skip p rest :
    runes_from (length p) (p ++ rest) = runes_from 0 rest.
  Proof. induction p as [|c p IH]; [reflexivity|exact IH]. Qed.

Lemma runes_encode_scalar r rest :
    ValidRune r = true ->
    runes (encode_scalar r ++ rest) = r :: runes rest.
  Proof.
    intros Hv. unfold runes.
    pose proof (DecodeRune_encode_scalar r rest Hv) as Hd.
    pose proof (encode_scalar_length r) as Hl.
    destruct (encode_scalar r) as [|c tl] eqn:E; [cbn in Hl; lia|].
    cbn [app runes_from]. cbn [app] in Hd. rewrite Hd. cbn [fst snd length].
    f_equal. replace (S (length tl) - 1) with (length tl) by lia.
    apply runes_from_skip.
  Qed.

  (** [[]rune(string(rs)) = rs] for scalar values. *)
Lemma runes_string_of_runes rs :
    Forall (fun r => ValidRune r = true) rs ->
    runes (string_of_runes rs) = rs.
  Proof.
    induction 1 as [|r rs Hr Hrs IH]; [reflexivity|].
    unfold string_of_runes. cbn [flat_map].
    unfold EncodeRune at 1. rewrite Hr.
    rewrite runes_encode_scalar by exact Hr. f_equal. exact IH.
  Qed.

Lemma string_of_runes_app l1 l2 :
    string_of_runes (l1 ++ l2) = string_of_runes l1 ++ string_of_runes l2.
  Proof. unfold string_of_runes. apply flat_map_app. Qed.

Lemma string_of_runes_cons r l :
    string_of_runes (r :: l) = EncodeRune r ++ string_of_runes l.
  Proof. reflexivity. Qed.

  (** The encoding of a rune is one ASCII byte, the rune itself, or a
      sequence of bytes that are all outside ASCII. *)
Lemma EncodeRune_shape r :
    (exists c, EncodeRune r = [c] /\ (byte_val c < 0x80)%Z /\ r = byte_val c)
    \/ Forall (fun c => (0x80 <= byte_val c)%Z) (EncodeRune r).
  Proof.
    unfold EncodeRune. destruct (ValidRune r) eqn:Hv.
    2:{ right. vm_compute. repeat constructor; discriminate. }
    apply ValidRune_spec in Hv. unfold encode_scalar.
    destruct (Z.ltb_spec r 0x80); [|destruct (Z.ltb_spec r 0x800); [|destruct (Z.ltb_spec r 0x10000)]].
    - left. exists (byte_of r). rewrite byte_val_of by lia. repeat split; lia.
    - right.
      pose proof (Z.mod_pos_bound r 64 ltac:(lia)) as Hm.
      assert (2 <= r / 64 < 32)%Z as Hq by (split; [apply Z.div_le_lower_bound|apply Z.div_lt_upper_bound]; lia).
      repeat constructor; rewrite byte_val_of; lia.
    - right.
      pose proof (Z.mod_pos_bound r 64 ltac:(lia)) as Hm1.
      pose proof (Z.mod_pos_bound (r / 64) 64 ltac:(lia)) as Hm2.
      assert (0 <= r / 4096 < 16)%Z as Hq by (split; [apply Z.div_le_lower_bound|apply Z.div_lt_upper_bound]; lia).
      repeat constructor; rewrite byte_val_of; lia.
    - right.
      pose proof (Z.mod_pos_bound r 64 ltac:(lia)) as Hm1.
      pose proof (Z.mod_pos_bound (r / 64) 64 ltac:(lia)) as Hm2.
      pose proof (Z.mod_pos_bound (r / 4096) 64 ltac:(lia)) as Hm3.
      assert (0 <= r / 262144 < 5)%Z as Hq by (split; [apply Z.div_le_lower_bound|apply Z.div_lt_upper_bound]; lia).
      repeat constructor; rewrite byte_val_of; lia.
  Qed.

  (** An ASCII byte of an encoded text is a rune of its own: the text
      splits there at rune boundaries. *)
Lemma string_of_runes_split_ascii rs P c Q :
    string_of_runes rs = P ++ c :: Q ->
    (byte_val c < 0x80)%Z ->
    exists R1 R2,
      rs = R1 ++ byte_val c :: R2
      /\ string_of_runes R1 = P /\ string_of_runes R2 = Q.
  Proof.
    intros Heq Hc. revert P Heq.
    induction rs as [|r rs IH]; intros P Heq.
    { destruct P; discriminate. }
    rewrite string_of_runes_cons in Heq.
    destruct (EncodeRune_shape r) as [(c0 & E & Hc0 & Hr)|Hhigh].
    - rewrite E in Heq. destruct P as [|p P].
      + cbn in Heq. injection Heq as Hcc HQ. subst c0 Q.
        exists [], rs. repeat split. cbn. now rewrite Hr.
      + cbn in Heq. injection Heq as Hcc Heq. subst p.
        destruct (IH P Heq) as (R1 & R2 & -> & HP & HQ).
        exists (r :: R1), R2. repeat split; [|exact HQ].
        rewrite string_of_runes_cons, E, HP. reflexivity.
    - apply app_eq_app in Heq as [l [[HE HQ]|[HP HS]]].
      + destruct l as [|x l].
        * rewrite app_nil_r in HE. cbn in HQ.
          destruct (IH [] (eq_sym HQ)) as (R1 & R2 & -> & HP1 & HQ1).
          exists (r :: R1), R2. repeat split; [|exact HQ1].
          rewrite string_of_runes_cons, HP1, app_nil_r. now symmetry.
        * exfalso. cbn in HQ. injection HQ as Hcx _. subst x.
          rewrite HE in Hhigh. apply Forall_app in Hhigh as [_ Hh].
          inversion Hh; subst. lia.
      + destruct (IH l HS) as (R1 & R2 & -> & HP1 & HQ1).
        exists (r :: R1), R2. repeat split; [|exact HQ1].
        rewrite string_of_runes_cons, HP1. now symmetry.
  Qed.

  (** A well-formed text is the encoding of its runes. *)
Lemma ValidString_spec s :
    ValidString s = true <-> string_of_runes (runes s) = s.
  Proof. unfold ValidString. apply bool_decide_eq_true. Qed.

Lemma ValidString_string_of_runes rs :
    Forall (fun r => ValidRune r = true) rs ->
    ValidString (string_of_runes rs) = true.
  Proof.
    intros Hv. apply ValidString_spec. now rewrite runes_string_of_runes.
  Qed.

End Utf8.

(** ** The scan of a pattern and the matches it covers *)

Section Scan.

  Import regexp.



Lemma inSkip_cons a b l o :
    inSkip ((a, b) :: l) o = ((a <=? o) && (o <? b)) || inSkip l o.
  Proof. reflexivity. Qed.

Lemma inSkip_app l1 l2 o : inSkip (l1 ++ l2) o = inSkip l1 o || inSkip l2 o.
  Proof. unfold inSkip. apply existsb_app. Qed.

  (** Every span of the scan is a match. *)
Lemma find_all_sound re pos skip s o :
    inSkip (find_all_from re pos skip s) o = true ->
    exists k n, pos + k <= o < pos + k + n /\ re (drop k s) = Some n.
  Proof.
    revert pos skip. induction s as [|c s IH]; intros pos skip Hin; [discriminate|].
    cbn [find_all_from] in Hin.
    destruct skip as [|j].
    - destruct (re (c :: s)) as [n|] eqn:E.
      + rewrite inSkip_cons in Hin. apply orb_true_iff in Hin as [Hin|Hin].
        * apply andb_true_iff in Hin as [H1 H2].
          apply Nat.leb_le in H1. apply Nat.ltb_lt in H2.
          exists 0, n. split; [lia|exact E].
        * destruct (IH _ _ Hin) as (k & m & Hr & Hm).
          exists (S k), m. split; [lia|exact Hm].
      + destruct (IH _ _ Hin) as (k & m & Hr & Hm).
        exists (S k), m. split; [lia|exact Hm].
    - destruct (IH _ _ Hin) as (k & m & Hr & Hm).
      exists (S k), m. split; [lia|exact Hm].
  Qed.

  (** Every match that starts at or after the bytes still to be passed is
      covered by a span of the scan. *)
Lemma find_all_complete re (Hre : nested re) pos skip s k n o :
    skip <= k ->
    re (drop k s) = Some n ->
    pos + k <= o < pos + k + n ->
    inSkip (find_all_from re pos skip s) o = true.
  Proof.
    revert pos skip k. induction s as [|c s IH]; intros pos skip k Hk Hm Ho.
    { rewrite drop_nil in Hm. apply (nested_bound _ Hre) in Hm. cbn in Hm. lia. }
    cbn [find_all_from].
    destruct skip as [|j].
    - destruct (re (c :: s)) as [n0|] eqn:E.
      + rewrite inSkip_cons.
        pose proof (nested_bound _ Hre _ _ E) as Hb.
        destruct (Nat.lt_ge_cases k n0) as [Hlt|Hge].
        * pose proof (nested_inner _ Hre _ _ _ _ E Hlt Hm) as Hin.
          apply orb_true_iff. left. apply andb_true_iff.
          split; [apply Nat.leb_le|apply Nat.ltb_lt]; lia.
        * apply orb_true_iff. right.
          destruct k as [|k]; [lia|].
          apply (IH (S pos) (n0 - 1) k); [lia|exact Hm|lia].
      + destruct k as [|k]; [cbn in Hm; congruence|].
        apply (IH (S pos) 0 k); [lia|exact Hm|lia].
    - destruct k as [|k]; [lia|].
      apply (IH (S pos) j k); [lia|exact Hm|lia].
  Qed.

  (** The offsets inside the spans of [FindAllStringIndex] are the
      offsets inside the matches of the pattern. *)
Lemma inSkip_FindAll re (Hre : nested re) s o :
    inSkip (FindAllStringIndex re s) o = true <-> covered re s o.
  Proof.
    unfold FindAllStringIndex, covered. split.
    - intros Hin. destruct (find_all_sound _ _ _ _ _ Hin) as (k & n & Hr & Hm).
      exists k, n. split; [lia|exact Hm].
    - intros (a & n & Hr & Hm).
      apply (find_all_complete re Hre 0 0 s a n); [lia|exact Hm|lia].
  Qed.

  (** *** Runs of bytes *)

Lemma run_length_le p s : run_length p s <= length s.
  Proof.
    induction s as [|c s IH]; cbn; [lia|]. destruct (p c); cbn; lia.
  Qed.

Lemma run_length_drop p s k :
    k <= run_length p s -> run_length p (drop k s) = run_length p s - k.
  Proof.
    revert k. induction s as [|c s IH]; intros k Hk.
    - cbn in *. now rewrite drop_nil.
    - destruct k; [cbn [drop]; lia|].
      cbn [run_length] in *. destruct (p c); [|lia].
      cbn [drop]. rewrite IH by lia. lia.
  Qed.

Lemma run_length_app_all p l s :
    forallb p l = true -> run_length p (l ++ s) = length l + run_length p s.
  Proof.
    induction l as [|c l IH]; [reflexivity|].
    cbn [forallb app run_length length]. intros H.
    apply andb_true_iff in H as [Hc Hl]. rewrite Hc, IH by exact Hl. reflexivity.
  Qed.

Lemma run_length_take p s :
    forallb p (take (run_length p s) s) = true.
  Proof.
    induction s as [|c s IH]; [reflexivity|].
    cbn [run_length]. destruct (p c) eqn:E; [|reflexivity].
    cbn [take forallb]. now rewrite E, IH.
  Qed.

  (** The run stops at the end of the text or before a byte outside [p]. *)
Lemma run_length_stop p s :
    match drop (run_length p s) s with
    | [] => True
    | c :: _ => p c = false
    end.
  Proof.
    induction s as [|c s IH]; [exact I|].
    cbn [run_length]. destruct (p c) eqn:E; [exact IH|exact E].
  Qed.

Lemma run_length_intro p l s :
    forallb p l = true ->
    match s with [] => True | c :: _ => p c = false end ->
    run_length p (l ++ s) = length l.
  Proof.
    intros Hl Hs. rewrite run_length_app_all by exact Hl.
    destruct s as [|c s]; cbn [run_length]; [lia|]. rewrite Hs. lia.
  Qed.

Lemma HasPrefix_spec s p :
    strings.HasPrefix s p = true <-> exists rest, s = p ++ rest.
  Proof.
    revert s. induction p as [|x p IH]; intros s.
    - cbn. split; [intros _; now exists s|reflexivity].
    - destruct s as [|c s]; cbn [strings.HasPrefix].
      + split; [discriminate|intros [rest Hr]; discriminate].
      + rewrite andb_true_iff, IH, Ascii.eqb_eq. split.
        * intros [-> [rest ->]]. now exists rest.
        * intros [rest Hr]. injection Hr as -> ->. split; [reflexivity|now exists rest].
  Qed.

Lemma HasPrefix_app p rest : strings.HasPrefix (p ++ rest) p = true.
  Proof. apply HasPrefix_spec. now exists rest. Qed.

Lemma HasPrefix_drop s p :
    strings.HasPrefix s p = true -> s = p ++ drop (length p) s.
  Proof.
    intros [rest ->]%HasPrefix_spec. now rewrite drop_app_length.
  Qed.

End Scan.

(** ** The two patterns of [convertPunctuation] *)

Section Patterns.

  Import regexp.




Lemma run_exact_non_space_plus : run_exact non_space_plus.
  Proof.
    intros s n. unfold non_space_plus. fold ns.
    destruct (run_length ns s) as [|k]; [discriminate|].
    intros [= <-]. split; lia.
  Qed.

Lemma run_exact_after lit m :
    forallb ns lit = true -> run_exact m -> run_exact (after lit m).
  Proof.
    intros Hlit Hm s n. unfold after.
    destruct (strings.HasPrefix s lit) eqn:Hp; [|discriminate].
    destruct (m (drop (length lit) s)) as [n'|] eqn:E; [|discriminate].
    cbn [option_map]. intros [= <-].
    destruct (Hm _ _ E) as [-> Hn].
    rewrite (HasPrefix_drop _ _ Hp) at 2.
    rewrite run_length_app_all by exact Hlit. lia.
  Qed.

Lemma run_exact_alt m1 m2 : run_exact m1 -> run_exact m2 -> run_exact (alt m1 m2).
  Proof.
    intros H1 H2 s n. unfold alt. destruct (m1 s) eqn:E.
    - intros [= <-]. now apply H1.
    - apply H2.
  Qed.

Lemma run_local_non_space_plus : run_local non_space_plus.
  Proof.
    intros s s' Hr _. unfold non_space_plus. fold ns. now rewrite Hr.
  Qed.

Lemma HasPrefix_transfer lit s s' :
    forallb ns lit = true ->
    run_length ns s = run_length ns s' ->
    take (run_length ns s) s = take (run_length ns s) s' ->
    strings.HasPrefix s lit = true -> strings.HasPrefix s' lit = true.
  Proof.
    intros Hlit Hr Ht Hp.
    pose proof (HasPrefix_drop _ _ Hp) as Hs.
    assert (length lit <= run_length ns s) as Hle.
    { rewrite Hs, run_length_app_all by exact Hlit. lia. }
    apply HasPrefix_spec.
    exists (drop (length lit) s').
    rewrite <- (take_drop (length lit) s') at 1. f_equal.
    replace (take (length lit) s') with (take (length lit) (take (run_length ns s) s'))
      by (rewrite take_take; f_equal; lia).
    rewrite <- Ht, take_take.
    replace (length lit `min` run_length ns s) with (length lit) by lia.
    rewrite Hs at 1. now rewrite take_app_length.
  Qed.

Lemma run_local_after lit m :
    forallb ns lit = true -> run_local m -> run_local (after lit m).
  Proof.
    intros Hlit Hm s s' Hr Ht. unfold after.
    destruct (strings.HasPrefix s lit) eqn:Hp.
    - rewrite (HasPrefix_transfer lit s s' Hlit Hr Ht Hp).
      f_equal.
      pose proof (HasPrefix_drop _ _ Hp) as Hs.
      assert (length lit <= run_length ns s) as Hle.
      { rewrite Hs, run_length_app_all by exact Hlit. lia. }
      apply Hm.
      + rewrite !run_length_drop by lia. lia.
      + rewrite run_length_drop by lia.
        rewrite !take_drop_commute.
        replace (length lit + (run_length ns s - length lit)) with (run_length ns s) by lia.
        now rewrite Ht.
    - destruct (strings.HasPrefix s' lit) eqn:Hp'; [|reflexivity].
      rewrite Hr in Ht. symmetry in Hr, Ht.
      rewrite (HasPrefix_transfer lit s' s Hlit Hr Ht Hp') in Hp. discriminate.
  Qed.

Lemma run_local_alt m1 m2 : run_local m1 -> run_local m2 -> run_local (alt m1 m2).
  Proof.
    intros H1 H2 s s' Hr Ht. unfold alt.
    rewrite (H1 s s' Hr Ht), (H2 s s' Hr Ht). reflexivity.
  Qed.

Lemma urlPattern_run_exact : run_exact urlPattern.
  Proof.
    unfold urlPattern.
    repeat first [ apply run_exact_alt | apply run_exact_after; [reflexivity|]
                 | apply run_exact_non_space_plus ].
  Qed.

Lemma urlPattern_run_local : run_local urlPattern.
  Proof.
    unfold urlPattern.
    repeat first [ apply run_local_alt | apply run_local_after; [reflexivity|]
                 | apply run_local_non_space_plus ].
  Qed.

Lemma urlPattern_nested : nested urlPattern.
  Proof.
    split.
    - intros s n E. destruct (urlPattern_run_exact _ _ E) as [-> Hn].
      split; [exact Hn|apply run_length_le].
    - intros s n k m E Hk Em.
      destruct (urlPattern_run_exact _ _ E) as [-> Hn].
      destruct (urlPattern_run_exact _ _ Em) as [-> Hm].
      rewrite run_length_drop by lia. lia.
  Qed.

  (** A match of the URL pattern depends on the matched bytes and on
      whether a space or the end of the text follows. *)
Lemma urlPattern_transport M Q Q' :
    urlPattern (M ++ Q) = Some (length M) ->
    match Q' with [] => True | c :: _ => space c = true end ->
    urlPattern (M ++ Q') = Some (length M).
  Proof.
    intros E HQ'.
    destruct (urlPattern_run_exact _ _ E) as [Hrun _].
    assert (forallb ns M = true) as HM.
    { pose proof (run_length_take ns (M ++ Q)) as Ht.
      rewrite <- Hrun, take_app_length in Ht. exact Ht. }
    assert (run_length ns (M ++ Q') = length M) as Hrun'.
    { apply run_length_intro; [exact HM|].
      destruct Q'; [exact I|]. unfold ns. now rewrite HQ'. }
    rewrite <- E. symmetry. apply urlPattern_run_local.
    - now rewrite <- Hrun, Hrun'.
    - now rewrite <- Hrun, !take_app_length.
  Qed.

  (** What follows a match of the URL pattern: nothing, or a space. *)
Lemma urlPattern_stop M Q :
    urlPattern (M ++ Q) = Some (length M) ->
    match Q with [] => True | c :: _ => space c = true end.
  Proof.
    intros E. destruct (urlPattern_run_exact _ _ E) as [Hrun _].
    pose proof (run_length_stop ns (M ++ Q)) as Hs.
    rewrite <- Hrun, drop_app_length in Hs.
    destruct Q; [exact I|]. unfold ns in Hs. now apply negb_false_iff in Hs.
  Qed.

  (** *** The URL pattern in words *)

Lemma after_Some lit m s n :
    after lit m s = Some n <->
    strings.HasPrefix s lit = true
    /\ exists k, m (drop (length lit) s) = Some k /\ n = length lit + k.
  Proof.
    unfold after. destruct (strings.HasPrefix s lit).
    - destruct (m (drop (length lit) s)) as [k|]; cbn.
      + split.
        * intros [= <-]. split; [reflexivity|]. now exists k.
        * intros [_ (k' & [= <-] & ->)]. reflexivity.
      + split; [discriminate|]. intros [_ (k' & Hk & _)]. discriminate.
    - split; [discriminate|]. intros [Hf _]. discriminate.
  Qed.

Lemma non_space_plus_Some s k :
    non_space_plus s = Some k <-> k = run_length ns s /\ 1 <= k.
  Proof.
    unfold non_space_plus. fold ns. destruct (run_length ns s) as [|j].
    - split; [discriminate|]. intros [-> Hk]. lia.
    - split; [intros [= <-]; split; [reflexivity|lia]|intros [-> _]; reflexivity].
  Qed.

Lemma scheme_run scheme s :
    forallb ns scheme = true ->
    strings.HasPrefix s scheme = true ->
    run_length ns s = length scheme + run_length ns (drop (length scheme) s).
  Proof.
    intros Hsch Hp. rewrite (HasPrefix_drop _ _ Hp) at 1.
    now apply run_length_app_all.
  Qed.

Lemma after_app lit m rest k :
    m rest = Some k -> after lit m (lit ++ rest) = Some (length lit + k).
  Proof.
    intros Hm. unfold after. now rewrite HasPrefix_app, drop_app_length, Hm.
  Qed.

Lemma after_mismatch lit m s :
    strings.HasPrefix s lit = false -> after lit m s = None.
  Proof. intros Hp. unfold after. now rewrite Hp. Qed.

Lemma urlPattern_spec s n : urlPattern s = Some n <-> url_at s n.
  Proof.
    unfold url_at, url_schemes. split.
    - intros E. pose proof (urlPattern_run_exact _ _ E) as [Hrun Hn].
      unfold urlPattern, alt in E.
      destruct (after "http" _ s) as [n1|] eqn:E1.
      { injection E as ->. apply after_Some in E1 as [Hp (k & Ek & Hk)].
        destruct (after "s://" non_space_plus (drop (length "http") s)) as [n2|] eqn:E2.
        - injection Ek as ->. apply after_Some in E2 as [Hp2 (k2 & Ek2 & Hk2)].
          apply non_space_plus_Some in Ek2 as [_ Hk2'].
          exists "https://". split; [repeat constructor|]. split; [|split; [exact Hrun|cbn in *; lia]].
          apply HasPrefix_spec. apply HasPrefix_drop in Hp, Hp2.
          exists (drop (length "s://") (drop (length "http") s)).
          rewrite Hp at 1. rewrite Hp2 at 1. reflexivity.
        - apply after_Some in Ek as [Hp2 (k2 & Ek2 & Hk2)].
          apply non_space_plus_Some in Ek2 as [_ Hk2'].
          exists "http://". split; [repeat constructor|]. split; [|split; [exact Hrun|cbn in *; lia]].
          apply HasPrefix_spec. apply HasPrefix_drop in Hp, Hp2.
          exists (drop (length "://") (drop (length "http") s)).
          rewrite Hp at 1. rewrite Hp2 at 1. reflexivity. }
      destruct (after "ftp://" non_space_plus s) as [n2|] eqn:E2.
      { injection E as ->. apply after_Some in E2 as [Hp (k & Ek & Hk)].
        apply non_space_plus_Some in Ek as [_ Hk'].
        exists "ftp://". split; [repeat constructor|]. split; [exact Hp|]. split; [exact Hrun|cbn in *; lia]. }
      apply after_Some in E as [Hp (k & Ek & Hk)].
      apply non_space_plus_Some in Ek as [_ Hk'].
      exists "mailto:". split; [repeat constructor|]. split; [exact Hp|]. split; [exact Hrun|cbn in *; lia].
    - intros (scheme & Hin & Hp & Hn & Hlen).
      assert (Hns : forallb ns scheme = true).
      { repeat (apply elem_of_cons in Hin as [->|Hin]; [reflexivity|]).
        now apply elem_of_nil in Hin. }
      pose proof (scheme_run scheme s Hns Hp) as Hrun.
      assert (Hrest : non_space_plus (drop (length scheme) s)
                      = Some (run_length ns (drop (length scheme) s))).
      { apply non_space_plus_Some. split; [reflexivity|lia]. }
      apply HasPrefix_drop in Hp.
      set (rest := drop (length scheme) s) in *.
      rewrite Hp, Hn, Hrun. clear Hp Hn Hrun Hlen.
      unfold urlPattern, alt.
      repeat (apply elem_of_cons in Hin as [->|Hin]);
        [| | | |now apply elem_of_nil in Hin].
      + change ("http://" ++ rest) with ("http" ++ ("://" ++ rest)).
        rewrite (after_app "http" _ ("://" ++ rest) (length "://" + run_length ns rest));
          [reflexivity|].
        rewrite (after_mismatch "s://") by reflexivity.
        now apply after_app.
      + change ("https://" ++ rest) with ("http" ++ ("s://" ++ rest)).
        rewrite (after_app "http" _ ("s://" ++ rest) (length "s://" + run_length ns rest));
          [reflexivity|].
        now rewrite (after_app "s://" _ rest _ Hrest).
      + rewrite (after_mismatch "http") by reflexivity.
        now rewrite (after_app "ftp://" _ rest _ Hrest).
      + rewrite (after_mismatch "http") by reflexivity.
        rewrite (after_mismatch "ftp://") by reflexivity.
        now apply after_app.
  Qed.

  (** *** The marker pattern *)


Lemma markerPattern_spec s n :
    markerPattern s = Some n <->
    exists body rest,
      s = "{"%char :: body ++ "}"%char :: rest
      /\ forallb not_close body = true /\ n = length body + 2.
  Proof.
    unfold markerPattern, after. fold not_close. split.
    - destruct (strings.HasPrefix s "{") eqn:Hp; [|discriminate].
      apply HasPrefix_drop in Hp. cbn [length list_ascii_of_string] in *.
      set (d := drop 1 s) in *.
      match goal with |- context [if ?b then _ else _] => destruct b eqn:Hc end;
        [|cbn; discriminate].
      cbn [option_map]. intros [= <-].
      apply HasPrefix_drop in Hc. cbn [length list_ascii_of_string] in Hc.
      exists (take (run_length not_close d) d), (drop 1 (drop (run_length not_close d) d)).
      split; [|split].
      + rewrite Hp at 1. cbn [app]. f_equal.
        rewrite <- (take_drop (run_length not_close d) d) at 1. f_equal. exact Hc.
      + apply run_length_take.
      + rewrite length_take. pose proof (run_length_le not_close d). lia.
    - intros (body & rest & -> & Hb & ->).
      change ("{"%char :: body ++ "}"%char :: rest)
        with (list_ascii_of_string "{" ++ (body ++ "}"%char :: rest)).
      rewrite HasPrefix_app, drop_app_length.
      rewrite (run_length_intro not_close body ("}"%char :: rest) Hb) by reflexivity.
      rewrite drop_app_length.
      change ("}"%char :: rest) with (list_ascii_of_string "}" ++ rest).
      rewrite HasPrefix_app. cbn. f_equal. lia.
  Qed.

  (** The first closing brace of a text is where it is. *)
Lemma first_close_unique b1 r1 b2 r2 :
    forallb not_close b1 = true -> forallb not_close b2 = true ->
    b1 ++ "}"%char :: r1 = b2 ++ "}"%char :: r2 ->
    b1 = b2 /\ r1 = r2.
  Proof.
    revert b2. induction b1 as [|x b1 IH]; intros b2 H1 H2 E.
    - destruct b2 as [|y b2]; cbn in E.
      + now injection E as ->.
      + injection E as <- _. cbn in H2. discriminate.
    - destruct b2 as [|y b2]; cbn in E.
      + injection E as -> _. cbn in H1. discriminate.
      + injection E as -> E. cbn in H1, H2.
        apply andb_true_iff in H1 as [_ H1]. apply andb_true_iff in H2 as [_ H2].
        destruct (IH b2 H1 H2 E) as [-> ->]. now split.
  Qed.

Lemma marker_shape body rest :
    "{"%char :: body ++ "}"%char :: rest = ("{"%char :: body ++ ["}"%char]) ++ rest.
  Proof. cbn [app]. now rewrite <- app_assoc. Qed.

Lemma marker_shape_length body :
    length ("{"%char :: body ++ ["}"%char]) = length body + 2.
  Proof. cbn [length]. rewrite length_app. cbn [length]. lia. Qed.

Lemma markerPattern_marker_at s n : markerPattern s = Some n <-> marker_at s n.
  Proof. apply markerPattern_spec. Qed.

Lemma markerPattern_nested : nested markerPattern.
  Proof.
    split.
    - intros s n (body & rest & -> & Hb & ->)%markerPattern_spec.
      cbn [length]. rewrite length_app. cbn [length]. lia.
    - intros s n k m (body & rest & -> & Hb & ->)%markerPattern_spec Hk Em.
      destruct k as [|k].
      { cbn [drop] in Em.
        assert (markerPattern ("{"%char :: body ++ "}"%char :: rest) = Some (length body + 2)) as E'.
        { apply markerPattern_spec. now exists body, rest. }
        rewrite E' in Em. injection Em as <-. lia. }
      cbn [drop] in Em.
      apply markerPattern_spec in Em as (body' & rest' & Hd & Hb' & ->).
      destruct (Nat.lt_ge_cases k (length body)) as [Hlt|Hge].
      + rewrite drop_app_le in Hd by lia.
        assert (forallb not_close (drop k body) = true) as Hdb.
        { rewrite <- (take_drop k body), forallb_app in Hb.
          now apply andb_true_iff in Hb as [_ Hb]. }
        change ("{"%char :: body' ++ "}"%char :: rest')
          with (("{"%char :: body') ++ "}"%char :: rest') in Hd.
        apply first_close_unique in Hd as [Hd _]; [|exact Hdb|exact Hb'].
        apply (f_equal length) in Hd. rewrite length_drop in Hd. cbn [length] in Hd. lia.
      + rewrite drop_app_ge in Hd by lia.
        replace (k - length body) with 0 in Hd by lia.
        cbn [drop] in Hd. discriminate.
  Qed.

  (** A match of the marker pattern depends on the matched bytes only. *)
Lemma markerPattern_transport M Q Q' :
    markerPattern (M ++ Q) = Some (length M) ->
    markerPattern (M ++ Q') = Some (length M).
  Proof.
    intros (body & rest & E & Hb & Hn)%markerPattern_spec.
    assert (M = "{"%char :: body ++ ["}"%char]) as ->.
    { apply (f_equal (take (length M))) in E.
      rewrite take_app_length in E. rewrite E.
      rewrite marker_shape, Hn, <- marker_shape_length.
      now rewrite take_app_length. }
    apply markerPattern_spec. exists body, Q'.
    split; [|split; [exact Hb|]].
    - cbn [app]. f_equal. now rewrite <- app_assoc.
    - cbn [length]. rewrite length_app. cbn [length]. lia.
  Qed.

  (** The bytes of a marker match: braces around a body. *)
Lemma markerPattern_matched M Q :
    markerPattern (M ++ Q) = Some (length M) ->
    exists body, M = "{"%char :: body ++ ["}"%char].
  Proof.
    intros (body & rest & E & Hb & Hn)%markerPattern_spec.
    exists body.
    apply (f_equal (take (length M))) in E.
    rewrite take_app_length in E. rewrite E.
    rewrite marker_shape, Hn, <- marker_shape_length.
    now rewrite take_app_length.
  Qed.

  (** The last byte of a marker match is the closing brace. *)
Lemma markerPattern_last M Q :
    markerPattern (M ++ Q) = Some (length M) ->
    exists M0, M = M0 ++ ["}"%char].
  Proof.
    intros (body & rest & E & Hb & Hn)%markerPattern_spec.
    exists ("{"%char :: body).
    apply (f_equal (take (length M))) in E.
    rewrite take_app_length in E. rewrite E.
    rewrite marker_shape, Hn, <- marker_shape_length.
    now rewrite take_app_length.
  Qed.

End Patterns.

(** ** [convertPunctuation] on well-formed text *)

Section Punctuation.

  Context `{GoLib}.
  Import utf8.

  Abbreviation enc := string_of_runes.



Lemma inSkip_skipSpans text o :
    inSkip (skipSpans text) o = true <-> excluded text o.
  Proof.
    unfold skipSpans, excluded. rewrite inSkip_app, orb_true_iff.
    rewrite (inSkip_FindAll _ urlPattern_nested), (inSkip_FindAll _ markerPattern_nested).
    reflexivity.
  Qed.



Lemma convertPunctuation_out_runes text :
    convertPunctuation text = enc (out_runes text).
  Proof. reflexivity. Qed.


Lemma is_target_cases r :
    is_target r = true <->
    r = R "," \/ r = R ";" \/ r = R "?" \/ r = R "(" \/ r = R ")" \/ r = R ":".
  Proof.
    unfold is_target. rewrite !orb_true_iff, !Z.eqb_eq. tauto.
  Qed.

Lemma convertRune_other rs i r : is_target r = false -> convertRune rs i r = r.
  Proof.
    unfold is_target, convertRune. intros Ht.
    repeat (apply orb_false_iff in Ht as [Ht ?]).
    repeat match goal with E : (_ =? _)%Z = false |- _ => rewrite E; clear E end.
    reflexivity.
  Qed.

Lemma written_other text i r : is_target r = false -> written text i r = r.
  Proof.
    intros Ht. unfold written. rewrite convertRune_other by exact Ht.
    now destruct inSkip.
  Qed.

  (** What the switch yields is never replaced by the switch again,
      unless it is a colon that was kept. *)
Lemma convertRune_result rs i r :
    convertRune rs i r = r \/ is_target (convertRune rs i r) = false.
  Proof.
    unfold convertRune.
    repeat match goal with
      | |- context [(?a =? ?b)%Z] =>
          destruct (Z.eqb_spec a b); [right; reflexivity|]
      end.
    destruct (Z.eqb_spec r (R ":")).
    - destruct (_ && _); [left; now symmetry|right; reflexivity].
    - left. reflexivity.
  Qed.

Lemma convertRune_valid rs i r :
    ValidRune r = true -> ValidRune (convertRune rs i r) = true.
  Proof.
    intros Hv. unfold convertRune.
    repeat match goal with
      | |- context [if ?b then _ else _] => destruct b
      end; try reflexivity; exact Hv.
  Qed.

Lemma written_valid text i r :
    ValidRune r = true -> ValidRune (written text i r) = true.
  Proof.
    intros Hv. unfold written. destruct inSkip; [exact Hv|now apply convertRune_valid].
  Qed.

Lemma out_runes_valid text : Forall (fun r => ValidRune r = true) (out_runes text).
  Proof.
    apply Forall_lookup. intros i x Hx.
    apply list_lookup_imap_Some in Hx as (y & Hy & ->).
    apply written_valid.
    pose proof (runes_valid text) as Hv. rewrite Forall_lookup in Hv. eauto.
  Qed.

Lemma length_out_runes text : length (out_runes text) = length (runes text).
  Proof. apply length_imap. Qed.

  (** The runes of the converted text are the runes the loop wrote. *)
Lemma runes_convertPunctuation text :
    runes (convertPunctuation text) = out_runes text.
  Proof.
    rewrite convertPunctuation_out_runes.
    apply runes_string_of_runes, out_runes_valid.
  Qed.

  (** *** Byte offsets of runes *)

Lemma length_enc_app l1 l2 : length (enc (l1 ++ l2)) = length (enc l1) + length (enc l2).
  Proof. now rewrite string_of_runes_app, length_app. Qed.

Lemma length_enc_pos r l : 1 <= length (enc (r :: l)).
  Proof.
    rewrite string_of_runes_cons, length_app.
    pose proof (EncodeRune_length r). lia.
  Qed.

Lemma offset_mono rs i j :
    i <= j -> length (enc (take i rs)) <= length (enc (take j rs)).
  Proof.
    intros Hij. replace j with (i + (j - i)) by lia.
    rewrite <- take_take_drop, length_enc_app. lia.
  Qed.

Lemma offset_strict rs i j :
    i < j -> j <= length rs ->
    length (enc (take i rs)) < length (enc (take j rs)).
  Proof.
    intros Hij Hj. replace j with (i + (j - i)) by lia.
    rewrite <- take_take_drop, length_enc_app.
    destruct (drop i rs) as [|x l] eqn:E.
    { apply (f_equal length) in E. rewrite length_drop in E. cbn in E. lia. }
    destruct (j - i) as [|k] eqn:Ek; [lia|].
    cbn [take]. pose proof (length_enc_pos x (take k l)). lia.
  Qed.

Lemma EncodeRune_ascii c :
    (byte_val c < 0x80)%Z -> EncodeRune (byte_val c) = [c].
  Proof.
    intros Hc. pose proof (byte_val_range c) as Hr.
    unfold EncodeRune.
    replace (ValidRune (byte_val c)) with true
      by (symmetry; apply ValidRune_spec; lia).
    unfold encode_scalar. destruct (Z.ltb_spec (byte_val c) 0x80); [|lia].
    now rewrite byte_of_val.
  Qed.

Lemma imap_id {A} (f : nat -> A -> A) (l : list A) :
    (forall i x, l !! i = Some x -> f i x = x) -> imap f l = l.
  Proof.
    intros Hf. apply list_eq. intros i. rewrite list_lookup_imap.
    destruct (l !! i) as [x|] eqn:E; cbn; [|reflexivity]. now rewrite (Hf i x E).
  Qed.

Lemma Forall2_imap {A B} (P : A -> B -> Prop) (f : nat -> A -> B) (l : list A) :
    (forall i x, P x (f i x)) -> Forall2 P l (imap f l).
  Proof.
    revert f. induction l as [|x l IH]; intros f Hf; cbn; constructor; [apply Hf|].
    apply IH. intros i y. apply Hf.
  Qed.

  (** The runes of a span that is skipped are written as they are; the
      runes after it keep their place, and those the switch does not
      replace keep their value. *)
Lemma out_runes_decompose text R1 R2 R3 :
    runes text = R1 ++ R2 ++ R3 ->
    (forall j, j < length R2 ->
       inSkip (skipSpans text)
         (length (enc (take (length R1 + j) (runes text)))) = true) ->
    exists R1' R3',
      out_runes text = R1' ++ R2 ++ R3'
      /\ length R1' = length R1
      /\ Forall2 (fun r r' => is_target r = false -> r' = r) R3 R3'.
  Proof.
    intros Hrs Hskip.
    exists (imap (written text) R1),
           (imap (fun n => written text (length R1 + (length R2 + n))) R3).
    split; [|split].
    - unfold out_runes. rewrite Hrs at 1. rewrite !imap_app.
      f_equal. f_equal. apply imap_id. intros j x Hx.
      unfold written. rewrite Hskip; [reflexivity|].
      now apply lookup_lt_Some in Hx.
    - apply length_imap.
    - apply Forall2_imap. intros j x Hx. now apply written_other.
  Qed.

  (** A match in the text, on a span that is written as it is, is a
      match in the converted text that covers the same runes. *)
Lemma skip_transport re text R2 R3' R1' i :
    out_runes text = R1' ++ R2 ++ R3' ->
    re (enc R2 ++ enc R3') = Some (length (enc R2)) ->
    length R1' <= i < length R1' + length R2 ->
    covered re (convertPunctuation text) (length (enc (take i (out_runes text)))).
  Proof.
    intros Hout Hm Hi.
    rewrite convertPunctuation_out_runes, Hout.
    exists (length (enc R1')), (length (enc R2)). split.
    - replace i with (length R1' + (i - length R1')) by lia.
      rewrite take_app_add, length_enc_app.
      rewrite take_app_le by lia.
      pose proof (offset_strict R2 (i - length R1') (length R2) ltac:(lia) ltac:(lia)) as Hlt.
      rewrite firstn_all in Hlt. lia.
    - rewrite !string_of_runes_app, drop_app_length. exact Hm.
  Qed.

  (** *** Matches lie on rune boundaries *)

Lemma space_ascii c : regexp.space c = true -> (byte_val c < 0x80)%Z.
  Proof.
    unfold regexp.space. rewrite !orb_true_iff, !Ascii.eqb_eq.
    intros [[[[->| ->]| ->]| ->]| ->]; reflexivity.
  Qed.

Lemma space_not_target c : regexp.space c = true -> is_target (byte_val c) = false.
  Proof.
    unfold regexp.space. rewrite !orb_true_iff, !Ascii.eqb_eq.
    intros [[[[->| ->]| ->]| ->]| ->]; reflexivity.
  Qed.

Lemma urlPattern_head t n :
    urlPattern t = Some n -> exists c t', t = c :: t' /\ (byte_val c < 0x80)%Z.
  Proof.
    unfold urlPattern, regexp.alt.
    unfold regexp.after at 1.
    destruct (strings.HasPrefix t "http") eqn:H1.
    { intros _. apply HasPrefix_drop in H1. rewrite H1. eexists _, _. split; reflexivity. }
    unfold regexp.after at 1.
    destruct (strings.HasPrefix t "ftp://") eqn:H2.
    { intros _. apply HasPrefix_drop in H2. rewrite H2. eexists _, _. split; reflexivity. }
    unfold regexp.after at 1.
    destruct (strings.HasPrefix t "mailto:") eqn:H3; [|discriminate].
    intros _. apply HasPrefix_drop in H3. rewrite H3. eexists _, _. split; reflexivity.
  Qed.

Lemma url_align rs P M Q :
    enc rs = P ++ M ++ Q ->
    urlPattern (M ++ Q) = Some (length M) ->
    exists R1 R2 R3,
      rs = R1 ++ R2 ++ R3 /\ enc R1 = P /\ enc R2 = M /\ enc R3 = Q.
  Proof.
    intros Henc Hm.
    pose proof (urlPattern_stop _ _ Hm) as Hstop.
    destruct (urlPattern_head _ _ Hm) as (c & t' & Ht & Hc).
    destruct M as [|c0 M'].
    { apply urlPattern_nested in Hm. cbn in Hm. lia. }
    cbn in Ht. injection Ht as -> _.
    cbn [app] in Henc.
    apply string_of_runes_split_ascii in Henc as (R1 & R2' & -> & HP & H2); [|exact Hc].
    destruct Q as [|sp Q2].
    - exists R1, (byte_val c :: R2'), []. rewrite app_nil_r in *.
      repeat split; [exact HP|].
      rewrite string_of_runes_cons, EncodeRune_ascii, H2 by exact Hc. reflexivity.
    - pose proof (space_ascii _ Hstop) as Hsp.
      apply string_of_runes_split_ascii in H2 as (Rb & R3' & -> & HM' & HQ2); [|exact Hsp].
      exists R1, (byte_val c :: Rb), (byte_val sp :: R3').
      repeat split; [exact HP| |].
      + rewrite string_of_runes_cons, EncodeRune_ascii, HM' by exact Hc. reflexivity.
      + rewrite string_of_runes_cons, EncodeRune_ascii, HQ2 by exact Hsp. reflexivity.
  Qed.

Lemma marker_align rs P M Q :
    enc rs = P ++ M ++ Q ->
    markerPattern (M ++ Q) = Some (length M) ->
    exists R1 R2 R3,
      rs = R1 ++ R2 ++ R3 /\ enc R1 = P /\ enc R2 = M /\ enc R3 = Q.
  Proof.
    intros Henc Hm.
    destruct (markerPattern_matched _ _ Hm) as (body & ->).
    cbn [app] in Henc. rewrite <- app_assoc in Henc. cbn [app] in Henc.
    apply string_of_runes_split_ascii in Henc as (R1 & R2' & -> & HP & H2); [|reflexivity].
    apply string_of_runes_split_ascii in H2 as (Rb & R3 & -> & Hb & HQ); [|reflexivity].
    exists R1, (byte_val "{" :: Rb ++ [byte_val "}"]), R3.
    repeat split; [|exact HP| |exact HQ].
    - cbn [app]. now rewrite <- app_assoc.
    - rewrite string_of_runes_cons, string_of_runes_app, Hb. reflexivity.
  Qed.

  (** *** A span that is skipped is skipped again *)


Lemma covered_preserved re text i :
    nested re ->
    (forall rs P M Q,
        enc rs = P ++ M ++ Q -> re (M ++ Q) = Some (length M) ->
        exists R1 R2 R3, rs = R1 ++ R2 ++ R3 /\ enc R1 = P /\ enc R2 = M /\ enc R3 = Q) ->
    (forall R2 R3 R3',
        re (enc R2 ++ enc R3) = Some (length (enc R2)) -> keeps_others R3 R3' ->
        re (enc R2 ++ enc R3') = Some (length (enc R2))) ->
    (forall o, covered re text o -> inSkip (skipSpans text) o = true) ->
    ValidString text = true ->
    i < length (runes text) ->
    covered re text (length (enc (take i (runes text)))) ->
    covered re (convertPunctuation text) (length (enc (take i (out_runes text)))).
  Proof.
    intros Hre Halign Htrans Hskip Hvalid Hi (a & n & Ho & Hm).
    apply ValidString_spec in Hvalid.
    pose proof (nested_bound _ Hre _ _ Hm) as [Hn1 Hn2].
    rewrite length_drop in Hn2.
    set (P := take a text). set (M := take n (drop a text)).
    set (Q := drop n (drop a text)).
    assert (length M = n) as HlM by (unfold M; rewrite length_take, length_drop; lia).
    assert (length P = a) as HlP by (unfold P; rewrite length_take; lia).
    assert (drop a text = M ++ Q) as Hd by (unfold M, Q; now rewrite take_drop).
    assert (text = P ++ M ++ Q) as Htext by (rewrite <- Hd; unfold P; now rewrite take_drop).
    assert (re (M ++ Q) = Some (length M)) as HmM by (rewrite <- Hd, HlM; exact Hm).
    destruct (Halign (runes text) P M Q) as (R1 & R2 & R3 & Hrs & HR1 & HR2 & HR3);
      [now rewrite Hvalid|exact HmM|].
    assert (forall j, j <= length R2 ->
              length (enc (take (length R1 + j) (runes text)))
              = a + length (enc (take j R2))) as Hoff.
    { intros j Hj. rewrite Hrs, take_app_add, length_enc_app, HR1, HlP.
      now rewrite take_app_le by lia. }
    assert (length (runes text) = length R1 + length R2 + length R3) as Hlen
      by (rewrite Hrs, !length_app; lia).
    destruct (out_runes_decompose text R1 R2 R3 Hrs) as (R1' & R3' & Hout & HlR1 & Hkeep).
    { intros j Hj. apply Hskip. exists a, n. split; [|exact Hm].
      rewrite Hoff by lia.
      pose proof (offset_strict R2 j (length R2) Hj ltac:(lia)) as Hlt.
      rewrite firstn_all, HR2, HlM in Hlt. lia. }
    apply (skip_transport re text R2 R3' R1' i Hout).
    - apply (Htrans R2 R3 R3'); [|exact Hkeep]. rewrite HR2, HR3. exact HmM.
    - rewrite HlR1. split.
      + destruct (Nat.le_gt_cases (length R1) i) as [Hle|Hgt]; [exact Hle|exfalso].
        pose proof (offset_strict (runes text) i (length R1) Hgt ltac:(lia)) as Hlt.
        pose proof (Hoff 0 ltac:(lia)) as Hoff0. rewrite Nat.add_0_r in Hoff0.
        change (a + length (enc (take 0 R2))) with (a + 0) in Hoff0. lia.
      + destruct (Nat.lt_ge_cases i (length R1 + length R2)) as [Hlt|Hge]; [exact Hlt|exfalso].
        pose proof (offset_mono (runes text) (length R1 + length R2) i Hge) as Hmono.
        rewrite (Hoff (length R2)), firstn_all, HR2, HlM in Hmono by lia. lia.
  Qed.

Lemma url_transport_runes R2 R3 R3' :
    urlPattern (enc R2 ++ enc R3) = Some (length (enc R2)) ->
    keeps_others R3 R3' ->
    urlPattern (enc R2 ++ enc R3') = Some (length (enc R2)).
  Proof.
    intros Hm Hkeep. apply (urlPattern_transport _ _ _ Hm).
    pose proof (urlPattern_stop _ _ Hm) as Hstop.
    destruct Hkeep as [|r r' R3t R3t' Hr _]; [exact I|].
    rewrite string_of_runes_cons in *.
    destruct (EncodeRune_shape r) as [(c0 & E & Hc0 & Hrc)|Hhigh].
    - rewrite E in Hstop. cbn [app] in Hstop.
      rewrite Hr by (rewrite Hrc; now apply space_not_target).
      now rewrite E.
    - pose proof (EncodeRune_length r) as Hl.
      destruct (EncodeRune r) as [|x l]; [cbn in Hl; lia|].
      cbn [app] in Hstop. apply space_ascii in Hstop.
      inversion Hhigh; subst. lia.
  Qed.

Lemma marker_transport_runes R2 R3 R3' :
    markerPattern (enc R2 ++ enc R3) = Some (length (enc R2)) ->
    keeps_others R3 R3' ->
    markerPattern (enc R2 ++ enc R3') = Some (length (enc R2)).
  Proof. intros Hm _. apply (markerPattern_transport _ _ _ Hm). Qed.

  (** In a well-formed text, a rune that the loop skips is skipped again
      when the loop runs on the converted text. *)
Lemma skip_preserved text i :
    ValidString text = true ->
    i < length (runes text) ->
    inSkip (skipSpans text) (length (enc (take i (runes text)))) = true ->
    inSkip (skipSpans (convertPunctuation text))
      (length (enc (take i (runes (convertPunctuation text))))) = true.
  Proof.
    intros Hvalid Hi Hskip.
    rewrite runes_convertPunctuation.
    apply inSkip_skipSpans. apply inSkip_skipSpans in Hskip as [Hu|Hm].
    - left. apply covered_preserved; try assumption.
      + apply urlPattern_nested.
      + apply url_align.
      + apply url_transport_runes.
      + intros o Ho. apply inSkip_skipSpans. now left.
    - right. apply covered_preserved; try assumption.
      + apply markerPattern_nested.
      + apply marker_align.
      + apply marker_transport_runes.
      + intros o Ho. apply inSkip_skipSpans. now right.
  Qed.

  (** *** Colons between digits *)



Lemma colon_test_spec rs i : colon_test rs i = true <-> digit_flanked rs i.
  Proof.
    unfold colon_test, digit_flanked.
    rewrite !andb_true_iff, Nat.ltb_lt, Nat.ltb_lt. split.
    - intros [[[Hi Hl] Hp] Hq].
      destruct (lookup_lt_is_Some_2 rs (i - 1) ltac:(lia)) as [p Ep].
      destruct (lookup_lt_is_Some_2 rs (i + 1) ltac:(lia)) as [q Eq].
      rewrite (list_lookup_total_correct _ _ _ Ep) in Hp.
      rewrite (list_lookup_total_correct _ _ _ Eq) in Hq.
      exists p, q. split; [lia|]. auto.
    - intros (p & q & Hi & Ep & Eq & Hp & Hq).
      rewrite (list_lookup_total_correct _ _ _ Ep).
      rewrite (list_lookup_total_correct _ _ _ Eq).
      apply lookup_lt_Some in Eq.
      split; [split; [split; [lia|lia]|exact Hp]|exact Hq].
  Qed.

Lemma convertRune_colon rs i :
    convertRune rs i (R ":") = if colon_test rs i then R ":" else R "：".
  Proof. reflexivity. Qed.

Lemma digit_not_target d : unicode.IsDigit d = true -> is_target d = false.
  Proof.
    unfold unicode.IsDigit, is_target.
    destruct (Z.leb_spec d 0xFF) as [Hle|Hgt].
    - rewrite andb_true_iff, !Z.leb_le. intros [H1 H2].
      repeat (apply orb_false_iff; split); apply Z.eqb_neq; vm_compute R; lia.
    - intros _.
      repeat (apply orb_false_iff; split); apply Z.eqb_neq; vm_compute R; lia.
  Qed.

  (** A replaced rune that the switch gives back is a colon between
      digits. *)
Lemma convertRune_fixed_target rs i r :
    is_target r = true -> convertRune rs i r = r ->
    r = R ":" /\ colon_test rs i = true.
  Proof.
    intros Ht Hfix. apply is_target_cases in Ht.
    destruct Ht as [->|[->|[->|[->|[->| ->]]]]]; try discriminate Hfix.
    split; [reflexivity|].
    rewrite convertRune_colon in Hfix. destruct (colon_test rs i); [reflexivity|discriminate].
  Qed.

Lemma out_runes_lookup text i r :
    runes text !! i = Some r -> out_runes text !! i = Some (written text i r).
  Proof. intros Hr. unfold out_runes. now rewrite list_lookup_imap, Hr. Qed.

Lemma digit_flanked_out text i :
    digit_flanked (runes text) i -> digit_flanked (out_runes text) i.
  Proof.
    intros (p & q & Hi & Ep & Eq & Hp & Hq). exists p, q.
    split; [exact Hi|]. split; [|split; [|split; [exact Hp|exact Hq]]].
    - rewrite (out_runes_lookup _ _ _ Ep). f_equal.
      apply written_other, digit_not_target, Hp.
    - rewrite (out_runes_lookup _ _ _ Eq). f_equal.
      apply written_other, digit_not_target, Hq.
  Qed.

  (** *** Idempotence on well-formed text *)

Lemma written_again text i r :
    ValidString text = true ->
    runes text !! i = Some r ->
    written (convertPunctuation text) i (written text i r) = written text i r.
  Proof.
    intros Hvalid Hr.
    pose proof (lookup_lt_Some _ _ _ Hr) as Hi.
    unfold written at 1.
    destruct (inSkip (skipSpans (convertPunctuation text)) _) eqn:Hout; [reflexivity|].
    unfold written in *.
    destruct (inSkip (skipSpans text) _) eqn:Hin.
    { rewrite (skip_preserved text i Hvalid Hi Hin) in Hout. discriminate. }
    rewrite runes_convertPunctuation.
    destruct (convertRune_result (runes text) i r) as [Hsame|Hother];
      [|now apply convertRune_other].
    rewrite Hsame.
    destruct (is_target r) eqn:Ht; [|now apply convertRune_other].
    destruct (convertRune_fixed_target _ _ _ Ht Hsame) as [-> Hc].
    rewrite convertRune_colon.
    apply colon_test_spec, digit_flanked_out, colon_test_spec in Hc.
    now rewrite Hc.
  Qed.

Lemma convertPunctuation_idempotent text :
    ValidString text = true ->
    convertPunctuation (convertPunctuation text) = convertPunctuation text.
  Proof.
    intros Hvalid.
    rewrite (convertPunctuation_out_runes (convertPunctuation text)).
    rewrite (convertPunctuation_out_runes text) at 2.
    f_equal. unfold out_runes at 1. rewrite runes_convertPunctuation.
    apply imap_id. intros i x Hx.
    apply list_lookup_imap_Some in Hx as (r & Hr & ->).
    now apply written_again.
  Qed.

  (** *** Where a rune stands in a well-formed text *)

Lemma rune_offset text i r :
    ValidString text = true ->
    runes text !! i = Some r ->
    let o := length (enc (take i (runes text))) in
    take o text = enc (take i (runes text))
    /\ strings.HasPrefix (drop o text) (EncodeRune r) = true.
  Proof.
    intros Hvalid Hr o. apply ValidString_spec in Hvalid.
    assert (text = enc (take i (runes text)) ++ EncodeRune r ++ enc (drop (S i) (runes text))) as E.
    { rewrite <- Hvalid at 1. rewrite <- (take_drop_middle _ _ _ Hr) at 1.
      now rewrite string_of_runes_app, string_of_runes_cons. }
    split.
    - rewrite E at 1. unfold o. now rewrite take_app_length.
    - rewrite E at 1. unfold o. rewrite drop_app_length. apply HasPrefix_app.
  Qed.

End Punctuation.

(** C3, for well-formed text. The rune at index [i] of a well-formed
    UTF-8 text stands at the byte offset [o] that the loop computes for
    it. When [o] lies inside a match of the URL pattern or of the marker
    pattern, wherever the match starts, the rune is written unchanged.
    Otherwise a comma, semicolon, question mark or parenthesis is written
    as its full-width form, a colon as the full-width colon unless a digit
    stands before it and a digit after it, and any other rune unchanged.
    A match of the URL pattern is a scheme http://, https://, ftp:// or
    mailto: with the whole run of bytes up to the next white space, at
    least one after the scheme; a match of the marker pattern goes from
    an opening brace to the first closing brace after it. The three
    examples of the specification hold. *)
Theorem C3_punctuation_wellformed `{GoLib} (text : bytes) :
  utf8.ValidString text = true ->
  let rs := utf8.runes text in
  let out := utf8.runes (convertPunctuation text) in
  length out = length rs
  /\ (forall i r, rs !! i = Some r ->
      let o := length (utf8.string_of_runes (take i rs)) in
      strings.HasPrefix (drop o text) (utf8.EncodeRune r) = true
      /\ (excluded text o -> out !! i = Some r)
      /\ (~ excluded text o ->
          (r = R "," -> out !! i = Some (R "，"))
          /\ (r = R ";" -> out !! i = Some (R "；"))
          /\ (r = R "?" -> out !! i = Some (R "？"))
          /\ (r = R "(" -> out !! i = Some (R "（"))
          /\ (r = R ")" -> out !! i = Some (R "）"))
          /\ (r = R ":" -> digit_flanked rs i -> out !! i = Some (R ":"))
          /\ (r = R ":" -> ~ digit_flanked rs i -> out !! i = Some (R "："))
          /\ (is_target r = false -> out !! i = Some r)))
  /\ (forall s n, urlPattern s = Some n <-> url_at s n)
  /\ (forall s n, markerPattern s = Some n <-> marker_at s n)
  /\ convertPunctuation "a,b?c" = "a，b？c"
  /\ convertPunctuation "12:30" = "12:30"
  /\ convertPunctuation "见 http://a.com/x,y" = "见 http://a.com/x,y".
Proof.
  intros Hvalid rs out. subst rs out.
  rewrite runes_convertPunctuation.
  split; [apply length_out_runes|].
  split; [|split; [apply urlPattern_spec|split; [apply markerPattern_marker_at|]];
           repeat split; vm_compute; reflexivity].
  intros i r Hr o.
  split; [apply (rune_offset text i r Hvalid Hr)|].
  rewrite (out_runes_lookup _ _ _ Hr). unfold written. fold o.
  split.
  - intros Hex. apply inSkip_skipSpans in Hex. now rewrite Hex.
  - intros Hex.
    destruct (inSkip (skipSpans text) o) eqn:E.
    { apply inSkip_skipSpans in E. contradiction. }
    repeat split.
    + now intros ->.
    + now intros ->.
    + now intros ->.
    + now intros ->.
    + now intros ->.
    + intros -> Hf. rewrite convertRune_colon.
      apply colon_test_spec in Hf. now rewrite Hf.
    + intros -> Hf. rewrite convertRune_colon.
      destruct (colon_test (utf8.runes text) i) eqn:Ec; [|reflexivity].
      apply colon_test_spec in Ec. contradiction.
    + intros Ht. now rewrite convertRune_other.
Qed.

Lemma C3_punctuation_wellformed_witness :
  length (utf8.runes (convertPunctuation (H := asciiLib) "见 http://a.com/x,y z,w 12:30 a:b"))
  = length (utf8.runes "见 http://a.com/x,y z,w 12:30 a:b").
Proof.
  apply (C3_punctuation_wellformed (H := asciiLib) "见 http://a.com/x,y z,w 12:30 a:b").
  vm_compute. reflexivity.
Defined.

(** C3 as stated, for every text span, fails on a text that is not
    well-formed UTF-8: the byte offset the loop computes for a rune is its
    offset in the re-encoded runes, where an invalid byte takes three
    bytes. Here the comma at byte offset 2 lies inside the marker match
    (1, 4) and is replaced all the same. *)
Lemma C3_counterexample :
  let text := utf8.byte_of 255 :: "{,}" in
  utf8.ValidString text = false
  /\ regexp.FindAllStringIndex markerPattern text = [(1, 4)]
  /\ text !! 2 = Some ","%char
  /\ forall L : GoLib,
       convertPunctuation text = utf8.EncodeRune utf8.RuneError ++ "{，}".
Proof.
  cbv zeta. split; [reflexivity|]. split; [reflexivity|]. split; [reflexivity|].
  intros L. vm_compute. reflexivity.
Qed.

(** C4, for well-formed text. The punctuation normalizer is idempotent
    on every well-formed UTF-8 text. *)
Theorem C4_idempotent_wellformed `{GoLib} (text : bytes) :
  utf8.ValidString text = true ->
  convertPunctuation (convertPunctuation text) = convertPunctuation text.
Proof. apply convertPunctuation_idempotent. Qed.

Lemma C4_idempotent_wellformed_witness :
  convertPunctuation (H := asciiLib)
    (convertPunctuation (H := asciiLib) "a,b http://x.y/z,w {c,d} 12:30 e:f (g)")
  = convertPunctuation (H := asciiLib) "a,b http://x.y/z,w {c,d} 12:30 e:f (g)".
Proof.
  apply (C4_idempotent_wellformed (H := asciiLib)). vm_compute. reflexivity.
Defined.

(** C4 as stated, for every string, fails on a text that is not
    well-formed UTF-8: in the first pass the comma is taken to lie inside
    the marker span, in the second pass it is not. *)
Lemma C4_counterexample :
  let text := utf8.byte_of 255 :: utf8.byte_of 255 :: ",{abc}" in
  utf8.ValidString text = false
  /\ forall L : GoLib,
       convertPunctuation text
       = utf8.EncodeRune utf8.RuneError ++ utf8.EncodeRune utf8.RuneError ++ ",{abc}"
       /\ convertPunctuation (convertPunctuation text)
          = utf8.EncodeRune utf8.RuneError ++ utf8.EncodeRune utf8.RuneError ++ "，{abc}"
       /\ convertPunctuation (convertPunctuation text) <> convertPunctuation text.
Proof.
  cbv zeta. split; [reflexivity|]. intros L.
  assert (E1 : convertPunctuation (utf8.byte_of 255 :: utf8.byte_of 255 :: ",{abc}")
               = utf8.EncodeRune utf8.RuneError ++ utf8.EncodeRune utf8.RuneError ++ ",{abc}")
    by (vm_compute; reflexivity).
  assert (E2 : convertPunctuation (utf8.EncodeRune utf8.RuneError ++ utf8.EncodeRune utf8.RuneError ++ ",{abc}")
               = utf8.EncodeRune utf8.RuneError ++ utf8.EncodeRune utf8.RuneError ++ "，{abc}")
    by (vm_compute; reflexivity).
  rewrite E1, E2. repeat split. discriminate.
Qed.

(** ** The image scripts *)

Section SingleImage.

Import script.
Local Open Scope Q_scope.



End SingleImage.

Section Packing.

Import script.









End Packing.

(** ** Markers and paragraphs *)

Section Markers.

Context `{GoLib}.

Lemma bytes_eqb_eq a b : bytes_eqb a b = true <-> a = b.
Proof. unfold bytes_eqb. apply bool_decide_eq_true. Qed.

Lemma bytes_eqb_refl a : bytes_eqb a a = true.
Proof. now apply bytes_eqb_eq. Qed.

Lemma bytes_eqb_neq a b : a <> b -> bytes_eqb a b = false.
Proof. intros Hne. unfold bytes_eqb. now apply bool_decide_eq_false. Qed.

(** A text between two ASCII bytes that are no white space is trimmed
    already. *)
Lemma TrimSpace_fixed c mid d :
  (utf8.byte_val c < 0x80)%Z -> unicode.IsSpace (utf8.byte_val c) = false ->
  (utf8.byte_val d < 0x80)%Z -> unicode.IsSpace (utf8.byte_val d) = false ->
  TrimSpace (c :: mid ++ [d]) = c :: mid ++ [d].
Proof.
  intros Hc Hcs Hd Hds. unfold TrimSpace.
  assert (Hleft : trimLeftSpace 0 (c :: mid ++ [d]) = c :: mid ++ [d]).
  { cbn [trimLeftSpace utf8.DecodeRune].
    destruct (Z.ltb_spec (utf8.byte_val c) 0x80); [|lia].
    cbn [fst]. now rewrite Hcs. }
  rewrite Hleft. cbn [length trimRightSpace].
  unfold DecodeLastRune.
  change (c :: mid ++ [d]) with ((c :: mid) ++ [d]) at 1.
  rewrite rev_app_distr. cbn [rev app].
  destruct (Z.ltb_spec (utf8.byte_val d) 0x80); [|lia].
  cbn [fst]. now rewrite Hds.
Qed.

Lemma digit_byte c :
  is_ascii_digit c = true -> (0x30 <= utf8.byte_val c <= 0x39)%Z.
Proof. apply between_spec. Qed.

Lemma run_length_digits ds rest :
  forallb is_ascii_digit ds = true ->
  match rest with [] => True | c :: _ => is_ascii_digit c = false end ->
  regexp.run_length is_ascii_digit (ds ++ rest) = length ds.
Proof. apply run_length_intro. Qed.

(** The marker pattern on {v:N}. *)
Lemma vMarkerRe_count ds :
  ds <> [] -> forallb is_ascii_digit ds = true ->
  vMarkerRe_FindStringSubmatch ("{v:" ++ ds ++ "}") = Some ds.
Proof.
  intros Hne Hds. unfold vMarkerRe_FindStringSubmatch.
  rewrite bytes_eqb_neq.
  2:{ destruct ds as [|d0 ds']; [congruence|]. cbn. discriminate. }
  rewrite HasPrefix_app. rewrite (drop_app_length' "{v:") by reflexivity.
  rewrite run_length_digits by (try exact Hds; reflexivity).
  rewrite drop_app_length, take_app_length, bytes_eqb_refl.
  destruct ds; [congruence|]. reflexivity.
Qed.

Lemma vMarkerRe_plain : vMarkerRe_FindStringSubmatch "{v}" = Some [].
Proof. reflexivity. Qed.

(** [strconv.Atoi] on a string of digits whose value fits an [int]. *)
Lemma Atoi_digits ds :
  ds <> [] -> forallb is_ascii_digit ds = true ->
  (digits_value ds <= MaxInt)%Z ->
  Atoi ds = (digits_value ds, true).
Proof.
  intros Hne Hds Hv. unfold Atoi.
  destruct ds as [|d0 ds']; [congruence|].
  assert (Hd0 : is_ascii_digit d0 = true).
  { cbn in Hds. now apply andb_true_iff in Hds as [Hd _]. }
  apply digit_byte in Hd0.
  destruct (Ascii.eqb_spec d0 "-") as [->|_];
    [change (utf8.byte_val "-") with 45%Z in Hd0; lia|].
  destruct (Ascii.eqb_spec d0 "+") as [->|_];
    [change (utf8.byte_val "+") with 43%Z in Hd0; lia|].
  rewrite Hds. apply Z.leb_le in Hv. now rewrite Hv.
Qed.

(** [count] lines joined by a line feed and closed by one are [count]
    lines, each with its line feed. *)
Lemma Join_lines (line : bytes) n :
  1 <= n ->
  strings.Join (repeat line n) nl ++ nl = concat (repeat (line ++ nl) n).
Proof.
  intros Hn. destruct n as [|n]; [lia|]. clear Hn.
  induction n as [|n IH].
  - cbn. now rewrite app_nil_r.
  - change (repeat line (S (S n))) with (line :: repeat line (S n)).
    change (repeat (line ++ nl) (S (S n))) with ((line ++ nl) :: repeat (line ++ nl) (S n)).
    cbn [concat]. rewrite <- IH.
    cbn [repeat strings.Join]. now rewrite <- !app_assoc.
Qed.

Lemma processMarker_plain :
  processMarker "{v}" = Some linebreakLine.
Proof. reflexivity. Qed.

Lemma processMarker_count ds :
  ds <> [] -> forallb is_ascii_digit ds = true ->
  (0 < digits_value ds <= MaxInt)%Z ->
  processMarker ("{v:" ++ ds ++ "}")
  = Some (concat (repeat linebreakLine (Z.to_nat (digits_value ds)))).
Proof.
  intros Hne Hds Hv. unfold processMarker.
  assert (Htrim : TrimSpace ("{v:" ++ ds ++ "}") = "{v:" ++ ds ++ "}").
  { change ("{v:" ++ ds ++ "}") with ("{"%char :: ("v:" ++ ds) ++ ["}"%char]).
    cbn [app list_ascii_of_string].
    change ("{"%char :: "v"%char :: ":"%char :: ds ++ ["}"%char])
      with ("{"%char :: ("v"%char :: ":"%char :: ds) ++ ["}"%char]).
    apply TrimSpace_fixed; reflexivity. }
  rewrite Htrim, vMarkerRe_count by assumption.
  rewrite bytes_eqb_neq by exact Hne.
  rewrite Atoi_digits by (try assumption; lia). cbn [fst].
  f_equal. apply Join_lines. lia.
Qed.

(** *** Paragraphs without images *)

Lemma renderParagraph_marker c para result :
  collectImages para = [] ->
  processMarker (TrimSpace (plainText para)) = Some result ->
  renderParagraph c para = (result, c).
Proof.
  intros Hi Hm. unfold renderParagraph. now rewrite Hi, Hm.
Qed.

Lemma renderParagraph_plain c para :
  collectImages para = [] ->
  processMarker (TrimSpace (plainText para)) = None ->
  snd (stripTrailingMarker (TrimSpace (plainText para))) = NoMarker ->
  renderParagraph c para
  = if negb (hasSeenHeader c) && endsInColon (TrimSpace (renderInlines para))
    then (noindentBlock (renderInlines para), c)
    else (renderInlines para ++ nl ++ nl, c).
Proof.
  intros Hi Hm Hs. unfold renderParagraph. now rewrite Hi, Hm, Hs.
Qed.

Lemma renderParagraph_noindent c para :
  collectImages para = [] ->
  processMarker (TrimSpace (plainText para)) = None ->
  snd (stripTrailingMarker (TrimSpace (plainText para))) = MarkerNoindent ->
  renderParagraph c para = (noindentBlock (stripNoindent (renderInlines para)), c).
Proof.
  intros Hi Hm Hs. unfold renderParagraph. now rewrite Hi, Hm, Hs.
Qed.

(** The flag is set by headings only. *)
Lemma renderSingleImage_flag c img :
  hasSeenHeader (snd (renderSingleImage c img)) = hasSeenHeader c.
Proof. reflexivity. Qed.

Lemma imageInfos_flag sub c images :
  hasSeenHeader (snd (imageInfos sub c images)) = hasSeenHeader c.
Proof.
  revert c. induction images as [|img rest IH]; intros c; [reflexivity|].
  cbn [imageInfos].
  destruct (imageInfos sub _ rest) as [infos c2] eqn:E.
  cbn [snd]. apply (f_equal snd) in E. cbn [snd] in E. rewrite <- E, IH.
  now destruct sub.
Qed.

Lemma renderMultiImage_flag c images :
  hasSeenHeader (snd (renderMultiImage c images)) = hasSeenHeader c.
Proof.
  unfold renderMultiImage.
  destruct (imageInfos _ _ images) as [infos c2] eqn:E.
  cbn [snd]. apply (f_equal snd) in E. cbn [snd] in E. rewrite <- E, imageInfos_flag.
  now destruct (anyAlt images).
Qed.

Lemma renderParagraph_flag c para :
  hasSeenHeader (snd (renderParagraph c para)) = hasSeenHeader c.
Proof.
  unfold renderParagraph.
  destruct (collectImages para) as [|img [|img2 rest]].
  - destruct (processMarker _); [reflexivity|].
    destruct (snd (stripTrailingMarker _)); try reflexivity.
    now destruct (_ && _).
  - apply renderSingleImage_flag.
  - apply renderMultiImage_flag.
Qed.

Lemma renderHeading_flag c h :
  hasSeenHeader (snd (renderHeading c h)) = true.
Proof.
  unfold renderHeading. destruct (headingLevel h =? 1); [reflexivity|].
  now destruct (snd (stripTrailingMarker _)).
Qed.

End Markers.

(** ** Groups of images *)

Section Images.

Context `{GoLib}.





Lemma int_wrap_succ z : (MinInt <= z < MaxInt)%Z -> int_wrap (z + 1) = (z + 1)%Z.
Proof.
  unfold int_wrap, MaxInt, MinInt. intros Hz.
  rewrite Z.mod_small by lia. lia.
Qed.




(** *** The script on a group of subfigures *)




End Images.

(** ** The document assembler *)

(** C1, the code at a failing input. [convert] writes the title between
    the quotes of a Typst string literal as it is: a double quote in the
    title ends the literal, where its escaped form would not. *)
Lemma C1_title_not_escaped :
  let title : bytes := "x" ++ [DQ] ++ "; #panic(" ++ [DQ] in
  typst.EscapeString title
  = "x" ++ [typst.backslash; DQ] ++ "; " ++ [typst.backslash] ++ "#panic("
    ++ [typst.backslash; DQ]
  /\ forall (L : GoLib) (author date body : bytes) (signature : bool),
      exists rest,
        convert {| Title := title; Author := author; Date := date;
                   Signature := signature |} body
        = templateHead ++ "#let autoTitle = " ++ [DQ] ++ "x" ++ [DQ]
          ++ "; #panic(" ++ [DQ] ++ [DQ] ++ rest.
Proof.
  cbv zeta. split; [reflexivity|].
  intros L author date body signature. unfold convert. cbn [Title].
  eexists. cbn [app list_ascii_of_string]. reflexivity.
Qed.

(** ** Standalone markers *)

(** C5, as the code has it. For every paragraph that has no image among
    its children: when its fully-trimmed plain text is exactly {v}, the
    renderer emits one forced-line-break directive on a line of its own;
    when it is exactly {v:N}, with N a string of decimal digits whose
    value is positive and fits an [int], the renderer emits exactly N such
    lines; in both cases the paragraph contributes nothing else and the
    converter state is unchanged. *)
Theorem C5_linebreak_marker `{GoLib} (c : converter) (para : node) :
  collectImages para = [] ->
  (TrimSpace (plainText para) = "{v}" ->
   renderParagraph c para = ("#linebreak(justify: false)" ++ nl, c))
  /\ (forall ds,
        ds <> [] -> forallb is_ascii_digit ds = true ->
        (0 < digits_value ds <= MaxInt)%Z ->
        TrimSpace (plainText para) = "{v:" ++ ds ++ "}" ->
        renderParagraph c para
        = (concat (repeat ("#linebreak(justify: false)" ++ nl)
                     (Z.to_nat (digits_value ds))), c)).
Proof.
  intros Hi. split.
  - intros Hp. apply renderParagraph_marker; [exact Hi|].
    rewrite Hp. apply processMarker_plain.
  - intros ds Hne Hds Hv Hp. apply renderParagraph_marker; [exact Hi|].
    rewrite Hp. now apply processMarker_count.
Qed.

Lemma C5_linebreak_marker_witness :
  renderParagraph (H := asciiLib) newConverter (textParagraph " {v:3} ")
  = ("#linebreak(justify: false)" ++ nl ++ "#linebreak(justify: false)" ++ nl
     ++ "#linebreak(justify: false)" ++ nl, newConverter).
Proof.
  apply (proj2 (C5_linebreak_marker (H := asciiLib) newConverter
                  (textParagraph " {v:3} ") eq_refl) "3").
  - discriminate.
  - reflexivity.
  - vm_compute. split; [reflexivity|discriminate].
  - vm_compute. reflexivity.
Defined.

(** C5 as stated fails for a paragraph that holds an image: the images
    are looked at before the markers. Here the fully-trimmed plain text
    of the paragraph, the alt text of its image, is exactly {v}, and the
    paragraph is rendered as a figure. *)
Lemma C5_counterexample :
  let para := Node KindParagraph [imageNode "a.png" "{v}"] in
  collectImages para = [imageNode "a.png" "{v}"]
  /\ forall L : GoLib,
       TrimSpace (plainText para) = "{v}"
       /\ renderParagraph newConverter para
          = (singleImageTemplate "a.png" "a" 1,
             {| figureCounter := 1; hasSeenHeader := false |}).
Proof.
  cbv zeta. split; [reflexivity|]. intros L. split; reflexivity.
Qed.

(** ** Paragraphs that end in a colon *)




(** ** Images *)







(** ** More on the two escapes *)

Section EscapeMore.

  Import typst.

Lemma flat_map_flat_map {A B C} (f : B -> list C) (g : A -> list B) (l : list A) :
    flat_map f (flat_map g l) = flat_map (fun x => flat_map f (g x)) l.
  Proof.
    induction l as [|x l IH]; [reflexivity|].
    cbn [flat_map]. now rewrite flat_map_app, IH.
  Qed.

Lemma EscapeString_bytewise s : EscapeString s = flat_map escString1 s.
  Proof.
    unfold EscapeString.
    change (list_ascii_of_string "#") with ["#"%char].
    rewrite !ReplaceAll_single, !flat_map_flat_map.
    apply flat_map_ext. intros c.
    unfold escString1, subst1 at 3.
    destruct (Ascii.eqb c backslash) eqn:E1.
    { reflexivity. }
    cbn [flat_map app]. unfold subst1 at 2.
    destruct (Ascii.eqb c dquote) eqn:E2.
    { reflexivity. }
    cbn [flat_map app]. unfold subst1.
    destruct (Ascii.eqb c "#") eqn:E3; reflexivity.
  Qed.

Lemma EscapeContent_bytewise s : EscapeContent s = flat_map escContent1 s.
  Proof.
    unfold EscapeContent.
    change (list_ascii_of_string "#") with ["#"%char].
    change (list_ascii_of_string "]") with ["]"%char].
    rewrite !ReplaceAll_single, !flat_map_flat_map.
    apply flat_map_ext. intros c.
    unfold escContent1, subst1 at 3.
    destruct (Ascii.eqb c backslash) eqn:E1.
    { reflexivity. }
    cbn [flat_map app]. unfold subst1 at 2.
    destruct (Ascii.eqb c "]") eqn:E2.
    { reflexivity. }
    cbn [flat_map app]. unfold subst1.
    destruct (Ascii.eqb c "#") eqn:E3; reflexivity.
  Qed.

Lemma escString1_length c :
    length (escString1 c) = if string_special c then 2 else 1.
  Proof.
    unfold escString1, string_special.
    destruct (Ascii.eqb c backslash), (Ascii.eqb c dquote), (Ascii.eqb c "#"); reflexivity.
  Qed.

Lemma escContent1_length c :
    length (escContent1 c) = if content_special c then 2 else 1.
  Proof.
    unfold escContent1, content_special.
    destruct (Ascii.eqb c backslash), (Ascii.eqb c "]"), (Ascii.eqb c "#"); reflexivity.
  Qed.

Lemma flat_map_grow (esc : ascii -> bytes) (special : ascii -> bool) s :
    (forall c, length (esc c) = if special c then 2 else 1) ->
    (forall c, special c = false -> esc c = [c]) ->
    length (flat_map esc s) = length s + length (List.filter special s)
    /\ (flat_map esc s = s <-> forallb (fun c => negb (special c)) s = true).
  Proof.
    intros Hlen Hid.
    assert (Hl : length (flat_map esc s) = length s + length (List.filter special s)).
    { induction s as [|c s IH]; [reflexivity|].
      cbn [flat_map List.filter]. rewrite length_app, Hlen, IH.
      destruct (special c); cbn [length]; lia. }
    split; [exact Hl|]. split.
    - intros He. rewrite He in Hl.
      assert (H0 : List.filter special s = []).
      { destruct (List.filter special s); [reflexivity|cbn in Hl; lia]. }
      clear Hl He. induction s as [|c s IH]; [reflexivity|].
      cbn [List.filter] in H0. cbn [forallb].
      destruct (special c); [discriminate|]. now rewrite IH.
    - intros Hf. clear Hl. induction s as [|c s IH]; [reflexivity|].
      cbn [forallb] in Hf. apply andb_true_iff in Hf as [Hc Hs].
      apply negb_true_iff in Hc.
      cbn [flat_map]. rewrite (Hid c Hc), (IH Hs). reflexivity.
  Qed.

Lemma escString1_plain c : string_special c = false -> escString1 c = [c].
  Proof.
    unfold escString1, string_special.
    destruct (Ascii.eqb c backslash), (Ascii.eqb c dquote), (Ascii.eqb c "#");
      (discriminate || reflexivity).
  Qed.

Lemma escContent1_plain c : content_special c = false -> escContent1 c = [c].
  Proof.
    unfold escContent1, content_special.
    destruct (Ascii.eqb c backslash), (Ascii.eqb c "]"), (Ascii.eqb c "#");
      (discriminate || reflexivity).
  Qed.

End EscapeMore.

(** X1. The escapes work byte by byte, so they distribute over
    concatenation: a text may be escaped in pieces and the pieces put
    together, and the escape of the empty text is empty. *)
Theorem Escape_concatenation (a b : bytes) :
  typst.EscapeString (a ++ b) = typst.EscapeString a ++ typst.EscapeString b
  /\ typst.EscapeContent (a ++ b) = typst.EscapeContent a ++ typst.EscapeContent b
  /\ typst.EscapeString [] = [] /\ typst.EscapeContent [] = [].
Proof.
  rewrite !EscapeString_bytewise, !EscapeContent_bytewise, !flat_map_app.
  repeat split; reflexivity.
Qed.

(** X2. Each escape adds exactly one byte for each byte it protects
    (backslash, double quote and hash for [EscapeString]; backslash,
    closing bracket and hash for [EscapeContent]), and returns a text as
    it is exactly when the text holds none of them. *)
Theorem Escape_growth (s : bytes) :
  length (typst.EscapeString s) = length s + length (List.filter string_special s)
  /\ (typst.EscapeString s = s <-> forallb (fun c => negb (string_special c)) s = true)
  /\ length (typst.EscapeContent s) = length s + length (List.filter content_special s)
  /\ (typst.EscapeContent s = s <-> forallb (fun c => negb (content_special c)) s = true).
Proof.
  rewrite EscapeString_bytewise, EscapeContent_bytewise.
  destruct (flat_map_grow escString1 string_special s escString1_length escString1_plain)
    as [H1 H2].
  destruct (flat_map_grow escContent1 content_special s escContent1_length escContent1_plain)
    as [H3 H4].
  repeat split; solve [assumption | apply H2 | apply H4].
Qed.

(** X3. A string literal that holds the escape of a text ends where
    the program closes it: in the escape of [s] followed by a double quote
    and any [rest], the first double quote that no backslash escapes is
    the one after the escape, whatever [s] and [rest] are. *)
Theorem EscapeString_closes_literal (s rest : bytes) :
  string_end (typst.EscapeString s ++ typst.dquote :: rest)
  = Some (length (typst.EscapeString s)).
Proof.
  rewrite EscapeString_bytewise.
  induction s as [|c s IH]; [reflexivity|].
  cbn [flat_map]. rewrite <- app_assoc, length_app.
  unfold escString1 at 1 3.
  destruct (Ascii.eqb c typst.backslash) eqn:E1.
  { apply Ascii.eqb_eq in E1. subst c.
    cbn [app string_end length]. rewrite IH. reflexivity. }
  destruct (Ascii.eqb c typst.dquote) eqn:E2.
  { cbn [app string_end length]. rewrite IH. reflexivity. }
  destruct (Ascii.eqb c "#") eqn:E3.
  { cbn [app string_end length]. rewrite IH. reflexivity. }
  cbn [app string_end length]. rewrite E2, E1, IH. reflexivity.
Qed.

(** ** The functions of [strings] on byte sequences *)

Section Strings.

  Import strings.

Lemma HasPrefix_false_nil p : p <> [] -> HasPrefix [] p = false.
  Proof. destruct p; [congruence|reflexivity]. Qed.

  (** [Index]: the first offset at which the text goes on with [substr]. *)
Lemma Index_Some s substr i :
    Index s substr = Some i <->
    i <= length s /\ HasPrefix (drop i s) substr = true
    /\ forall j, j < i -> HasPrefix (drop j s) substr = false.
  Proof.
    revert i. induction s as [|c s IH]; intros i.
    - cbn [Index]. destruct (HasPrefix [] substr) eqn:E.
      + split.
        * intros Hi. injection Hi as <-. cbn. repeat split; [lia|exact E|intros; lia].
        * intros (Hi & _ & _). cbn in Hi. f_equal. lia.
      + split; [discriminate|].
        intros (Hi & Hp & _). rewrite drop_nil in Hp. congruence.
    - cbn [Index]. destruct (HasPrefix (c :: s) substr) eqn:E.
      + split.
        * intros Hi. injection Hi as <-. cbn [drop length].
          repeat split; [lia|exact E|intros; lia].
        * intros (_ & _ & Hj). destruct i as [|i]; [reflexivity|].
          specialize (Hj 0 ltac:(lia)). cbn [drop] in Hj. congruence.
      + split.
        * intros Hi.
          case_eq (Index s substr); [intros k Ek|intros Ek]; rewrite Ek in Hi;
            [|discriminate].
          cbn in Hi. injection Hi as <-.
          apply IH in Ek as (Hk & Hp & Hj).
          cbn [drop length]. repeat split; [lia|exact Hp|].
          intros j Hlt. destruct j as [|j]; [exact E|]. cbn [drop]. apply Hj. lia.
        * intros (Hi & Hp & Hj). destruct i as [|i].
          { cbn [drop] in Hp. congruence. }
          cbn [drop length] in *.
          assert (Hk : Index s substr = Some i).
          { apply IH. repeat split; [lia|exact Hp|].
            intros j Hlt. apply (Hj (S j)). lia. }
          now rewrite Hk.
  Qed.

Lemma Index_None s substr :
    Index s substr = None <->
    forall j, j <= length s -> HasPrefix (drop j s) substr = false.
  Proof.
    induction s as [|c s IH].
    - cbn [Index]. destruct (HasPrefix [] substr) eqn:E.
      + split; [discriminate|]. intros Hj. specialize (Hj 0 ltac:(cbn; lia)).
        cbn in Hj. congruence.
      + split; [|reflexivity]. intros _ j _. now rewrite drop_nil.
    - cbn [Index]. destruct (HasPrefix (c :: s) substr) eqn:E.
      + split; [discriminate|]. intros Hj. specialize (Hj 0 ltac:(cbn; lia)).
        cbn in Hj. congruence.
      + split.
        * intros Hi.
          case_eq (Index s substr); [intros k Ek|intros Ek]; rewrite Ek in Hi;
            [discriminate|].
          intros j Hle. destruct j as [|j]; [exact E|].
          cbn [drop]. apply IH; [exact Ek|]. cbn in Hle. lia.
        * intros Hj.
          assert (Hk : Index s substr = None).
          { apply IH. intros j Hle. apply (Hj (S j)). cbn. lia. }
          now rewrite Hk.
  Qed.

Lemma Contains_false s substr :
    Contains s substr = false <->
    forall j, j <= length s -> HasPrefix (drop j s) substr = false.
  Proof.
    unfold Contains. rewrite <- Index_None.
    destruct (Index s substr); split; congruence.
  Qed.

Lemma Contains_true s substr :
    Contains s substr = true <-> exists a b, s = a ++ substr ++ b.
  Proof.
    unfold Contains. split.
    - destruct (Index s substr) as [i|] eqn:E; [intros _|discriminate].
      apply Index_Some in E as (Hi & Hp & _).
      apply HasPrefix_spec in Hp as [rest Hr].
      exists (take i s), rest. rewrite <- Hr. now rewrite take_drop.
    - intros (a & b & ->).
      destruct (Index (a ++ substr ++ b) substr) eqn:E; [reflexivity|].
      rewrite Index_None in E. specialize (E (length a)).
      rewrite drop_app_length in E.
      rewrite HasPrefix_app in E. rewrite length_app in E.
      discriminate E. lia.
  Qed.

Lemma Contains_drop s substr k :
    Contains s substr = false -> Contains (drop k s) substr = false.
  Proof.
    rewrite !Contains_false. intros Hs j Hj.
    rewrite drop_drop.
    destruct (decide (k + j <= length s)) as [Hle|Hgt].
    - apply Hs. lia.
    - rewrite (drop_ge s (k + j)) by lia.
      rewrite <- (drop_all s). apply Hs. lia.
  Qed.

  (** [TrimLeft] and [TrimRight] *)
Lemma TrimLeft_suffix s cutset : exists n, TrimLeft s cutset = drop n s.
  Proof.
    induction s as [|c s [n IH]]; [now exists 0|].
    cbn [TrimLeft]. destruct (in_cutset cutset c).
    - exists (S n). exact IH.
    - now exists 0.
  Qed.

Lemma TrimLeft_head s cutset :
    match TrimLeft s cutset with
    | c :: _ => in_cutset cutset c = false
    | [] => True
    end.
  Proof.
    induction s as [|c s IH]; [exact I|].
    cbn [TrimLeft]. destruct (in_cutset cutset c) eqn:E; [exact IH|exact E].
  Qed.

Lemma TrimLeft_fixed c s cutset :
    in_cutset cutset c = false -> TrimLeft (c :: s) cutset = c :: s.
  Proof. intros E. cbn [TrimLeft]. now rewrite E. Qed.

Lemma TrimLeft_cut l s cutset :
    forallb (in_cutset cutset) l = true -> TrimLeft (l ++ s) cutset = TrimLeft s cutset.
  Proof.
    induction l as [|c l IH]; [reflexivity|].
    cbn [forallb app TrimLeft]. intros [Hc Hl]%andb_true_iff.
    rewrite Hc. now apply IH.
  Qed.

Lemma TrimRight_prefix s cutset : exists n, TrimRight s cutset = take n s.
  Proof.
    unfold TrimRight. destruct (TrimLeft_suffix (rev s) cutset) as [n Hn].
    rewrite Hn. exists (length s - n).
    now rewrite skipn_rev, rev_involutive.
  Qed.

Lemma TrimRight_snoc s c cutset :
    in_cutset cutset c = false -> TrimRight (s ++ [c]) cutset = s ++ [c].
  Proof.
    intros E. unfold TrimRight. rewrite rev_app_distr. cbn [rev app].
    rewrite TrimLeft_fixed by exact E.
    cbn [rev]. now rewrite rev_involutive.
  Qed.

Lemma TrimRight_cut s l cutset :
    forallb (in_cutset cutset) l = true -> TrimRight (s ++ l) cutset = TrimRight s cutset.
  Proof.
    intros Hl. unfold TrimRight. rewrite rev_app_distr.
    rewrite TrimLeft_cut; [reflexivity|].
    rewrite forallb_forall in *. intros x Hx. apply Hl. now apply in_rev.
  Qed.

Lemma TrimRight_last s cutset :
    match rev (TrimRight s cutset) with
    | c :: _ => in_cutset cutset c = false
    | [] => True
    end.
  Proof.
    unfold TrimRight. rewrite rev_involutive. apply TrimLeft_head.
  Qed.

Lemma TrimRight_idempotent s cutset :
    TrimRight (TrimRight s cutset) cutset = TrimRight s cutset.
  Proof.
    pose proof (TrimRight_last s cutset) as Hl.
    unfold TrimRight at 1.
    destruct (rev (TrimRight s cutset)) as [|c r] eqn:E.
    - cbn. apply (f_equal (@rev _)) in E. rewrite rev_involutive in E. now rewrite E.
    - rewrite TrimLeft_fixed by exact Hl.
      rewrite <- E. apply rev_involutive.
  Qed.

  (** [HasSuffix] and [TrimSuffix] *)
Lemma HasSuffix_spec s suffix :
    HasSuffix s suffix = true <-> exists front, s = front ++ suffix.
  Proof.
    unfold HasSuffix. rewrite HasPrefix_spec. split.
    - intros [rest Hr]. exists (rev rest).
      apply (f_equal (@rev _)) in Hr. rewrite rev_involutive in Hr.
      rewrite Hr, rev_app_distr, rev_involutive. reflexivity.
    - intros [front ->]. exists (rev front). now rewrite rev_app_distr.
  Qed.

Lemma HasSuffix_app front suffix : HasSuffix (front ++ suffix) suffix = true.
  Proof. apply HasSuffix_spec. now exists front. Qed.

Lemma TrimSuffix_app front suffix : TrimSuffix (front ++ suffix) suffix = front.
  Proof.
    unfold TrimSuffix. rewrite HasSuffix_app, length_app.
    replace (length front + length suffix - length suffix) with (length front) by lia.
    now rewrite take_app_length.
  Qed.

Lemma TrimSuffix_prefix s suffix : exists n, TrimSuffix s suffix = take n s.
  Proof.
    unfold TrimSuffix. destruct (HasSuffix s suffix).
    - now eexists.
    - exists (length s). now rewrite firstn_all.
  Qed.

End Strings.

(** ** More on the front matter *)

Section FrontMatterMore.

  Context `{GoLib}.

Lemma skip_newline_suffix s : exists n, skip_newline s = drop n s.
  Proof.
    destruct s as [|c s]; [now exists 0|].
    cbn [skip_newline]. destruct (Ascii.eqb c LF); [now exists 1|now exists 0].
  Qed.

Lemma skip_newline_LF s : skip_newline (LF :: s) = s.
  Proof. reflexivity. Qed.

  (** The closing delimiter that follows a block with no delimiter of its
      own is the first one. *)
Lemma Index_delimiter y t :
    strings.Contains y (LF :: "---") = false ->
    strings.Index (y ++ LF :: "---" ++ t) (LF :: "---") = Some (length y).
  Proof.
    intros Hy. rewrite Contains_false in Hy.
    apply Index_Some. split; [rewrite length_app; lia|]. split.
    - rewrite drop_app_length. reflexivity.
    - intros j Hj. rewrite drop_app_le by lia.
      specialize (Hy j ltac:(lia)).
      assert (Hl : 0 < length (drop j y)) by (rewrite length_drop; lia).
      destruct (drop j y) as [|c [|a [|b [|d z]]]]; [cbn in Hl; lia|..];
        cbn in Hy |- *; rewrite ?andb_false_r; try reflexivity.
      exact Hy.
  Qed.

Lemma parseFrontMatter_block y b :
    strings.Contains ("---" ++ nl ++ y ++ nl ++ "---" ++ nl ++ b) [CR; LF] = false ->
    strings.Contains y (LF :: "---") = false ->
    parseFrontMatter ("---" ++ nl ++ y ++ nl ++ "---" ++ nl ++ b)
    = match yaml_Unmarshal y with
      | None => (defaultFrontMatter, b)
      | Some raw =>
          let fm := defaultFrontMatter in
          let fm :=
            match raw !! ("title" : bytes) with
            | Some v => set_Title fm (Sprint_v v)
            | None => fm
            end in
          let fm :=
            match raw !! ("author" : bytes) with
            | Some (YString a) => set_Author fm a
            | Some (YSeq a) => set_Author fm (strings.Join (map Sprint_v a) "、")
            | _ => fm
            end in
          let fm :=
            match raw !! ("date" : bytes) with
            | Some v => set_Date fm (Sprint_v v)
            | None => fm
            end in
          let fm :=
            match raw !! ("signature" : bytes) with
            | Some (YBool s) => set_Signature fm s
            | Some (YString s) =>
                let lower := strings_ToLower s in
                set_Signature fm (bytes_eqb lower "true" || bytes_eqb lower "yes")
            | _ => fm
            end in
          (fm, b)
      end.
  Proof.
    intros Hcr Hy. unfold parseFrontMatter.
    change (strings.ReplaceAll ?s [CR; LF] [LF]) with (crlf_to_lf s).
    rewrite (crlf_to_lf_id _ Hcr).
    rewrite HasPrefix_app. cbn [negb].
    rewrite (drop_app_length' (list_ascii_of_string "---")) by reflexivity.
    change (nl ++ y ++ nl ++ "---" ++ nl ++ b) with (LF :: (y ++ LF :: "---" ++ LF :: b)).
    rewrite skip_newline_LF.
    rewrite (Index_delimiter y (LF :: b) Hy).
    rewrite take_app_length.
    rewrite drop_app_add' by reflexivity.
    change (drop 4 (LF :: list_ascii_of_string "---" ++ LF :: b)) with (LF :: b).
    rewrite skip_newline_LF.
    reflexivity.
  Qed.

End FrontMatterMore.

(** X4. A front matter block. For an input made of the line "---", a
    block [y] that holds no line starting with "---", the line "---" and
    a body [b], with no CR LF pair anywhere: the body returned is [b]; when
    the YAML decoder rejects [y] the metadata are the defaults; otherwise
    the title and the date are what [%v] prints for the values of the
    keys, the author is the string or the items joined with "、", the
    signature is the boolean or whether the string is "true" or "yes" in
    any case of letters, and a key that is missing or of another type
    leaves its default. *)
Theorem parseFrontMatter_split `{GoLib} (y b : bytes) :
  strings.Contains ("---" ++ nl ++ y ++ nl ++ "---" ++ nl ++ b) [CR; LF] = false ->
  strings.Contains y (LF :: "---") = false ->
  let result := parseFrontMatter ("---" ++ nl ++ y ++ nl ++ "---" ++ nl ++ b) in
  snd result = b
  /\ match yaml_Unmarshal y with
     | None => fst result = defaultFrontMatter
     | Some raw =>
         Title (fst result)
         = match raw !! ("title" : bytes) with
           | Some v => Sprint_v v
           | None => Title defaultFrontMatter
           end
         /\ Author (fst result)
            = match raw !! ("author" : bytes) with
              | Some (YString a) => a
              | Some (YSeq a) => strings.Join (map Sprint_v a) "、"
              | _ => Author defaultFrontMatter
              end
         /\ Date (fst result)
            = match raw !! ("date" : bytes) with
              | Some v => Sprint_v v
              | None => []
              end
         /\ Signature (fst result)
            = match raw !! ("signature" : bytes) with
              | Some (YBool s) => s
              | Some (YString s) =>
                  bytes_eqb (strings_ToLower s) "true" || bytes_eqb (strings_ToLower s) "yes"
              | _ => false
              end
     end.
Proof.
  intros Hcr Hy result. subst result.
  rewrite (parseFrontMatter_block y b Hcr Hy).
  destruct (yaml_Unmarshal y) as [raw|]; [|split; reflexivity].
  cbv zeta. split; [reflexivity|].
  destruct (raw !! ("title" : bytes)) as [vt|];
    destruct (raw !! ("author" : bytes)) as [[a|?|a|?]|];
    destruct (raw !! ("date" : bytes)) as [vd|];
    destruct (raw !! ("signature" : bytes)) as [[s|s|?|?]|];
    repeat split; reflexivity.
Qed.

Lemma parseFrontMatter_split_witness :
  snd (parseFrontMatter (H := asciiLib)
         ("---" ++ nl ++ "title: x" ++ nl ++ "---" ++ nl ++ "body")) = "body".
Proof.
  apply (parseFrontMatter_split (H := asciiLib) "title: x" "body");
    vm_compute; reflexivity.
Defined.

(** X5. The body that [parseFrontMatter] returns is always a final part
    of the input with its line endings normalised: nothing is added to
    it and nothing inside it is taken away. *)
Theorem parseFrontMatter_body_suffix `{GoLib} (input : bytes) :
  exists front,
    strings.ReplaceAll input [CR; LF] [LF] = front ++ snd (parseFrontMatter input).
Proof.
  unfold parseFrontMatter.
  set (input' := strings.ReplaceAll input [CR; LF] [LF]).
  destruct (negb (strings.HasPrefix input' "---")); [now exists []|].
  destruct (strings.Index (skip_newline (drop 3 input')) (LF :: "---")) as [idx|];
    [|now exists []].
  assert (Hs : exists n, skip_newline (drop (idx + 4) (skip_newline (drop 3 input')))
                         = drop n input').
  { destruct (skip_newline_suffix (drop 3 input')) as [n1 ->].
    rewrite !drop_drop.
    match goal with |- context [skip_newline ?x] =>
      destruct (skip_newline_suffix x) as [n2 ->] end.
    rewrite drop_drop. now eexists. }
  destruct Hs as [n Hn].
  exists (take n input').
  destruct (yaml_Unmarshal _); cbn [snd]; rewrite Hn; now rewrite take_drop.
Qed.

(** X6. A front matter that is not closed. When the input starts with the
    line "---" and the text [t] after that line holds no "---" at the
    start of a later line (no newline directly followed by "---"), there
    is no front matter: the metadata are the defaults and the body is the
    whole input, the opening line included. This is also what happens when
    the closing "---" is the very next line, the line of an empty
    block. *)
Theorem parseFrontMatter_unclosed `{GoLib} (t : bytes) :
  strings.Contains ("---" ++ nl ++ t) [CR; LF] = false ->
  strings.Contains t (LF :: "---") = false ->
  parseFrontMatter ("---" ++ nl ++ t) = (defaultFrontMatter, "---" ++ nl ++ t).
Proof.
  intros Hcr Ht. unfold parseFrontMatter.
  change (strings.ReplaceAll ?s [CR; LF] [LF]) with (crlf_to_lf s).
  rewrite (crlf_to_lf_id _ Hcr).
  rewrite HasPrefix_app. cbn [negb].
  rewrite (drop_app_length' (list_ascii_of_string "---")) by reflexivity.
  change (nl ++ ?x) with (LF :: x).
  rewrite skip_newline_LF.
  unfold strings.Contains in Ht.
  destruct (strings.Index t _); [discriminate|reflexivity].
Qed.

Lemma parseFrontMatter_unclosed_witness :
  parseFrontMatter (H := asciiLib) ("---" ++ nl ++ "---" ++ nl ++ "body")
  = (defaultFrontMatter, "---" ++ nl ++ "---" ++ nl ++ "body").
Proof.
  apply (parseFrontMatter_unclosed (H := asciiLib) ("---" ++ nl ++ "body"));
    vm_compute; reflexivity.
Defined.

(** ** The date of the front matter *)

Section Date.

Lemma digit_cases c :
    is_ascii_digit c = true ->
    c ∈ ["0"%char; "1"%char; "2"%char; "3"%char; "4"%char; "5"%char; "6"%char;
         "7"%char; "8"%char; "9"%char].
  Proof.
    destruct c as [[] [] [] [] [] [] [] []]; vm_compute; intros Hc;
      try discriminate Hc; repeat constructor.
  Qed.

  (** Case analysis on the bits that a match against a byte looks at. *)
Ltac bits H :=
    repeat (lazy beta iota in H;
            match type of H with
            | context [match ?c with Ascii _ _ _ _ _ _ _ _ => _ end] =>
                is_var c; destruct c
            | context [if ?b then _ else _] => is_var b; destruct b
            end);
    lazy beta iota in H.

Lemma dateRe_day_Some s d :
    dateRe_day s = Some d ->
    d = s /\ 1 <= length s <= 2 /\ forallb is_ascii_digit s = true.
  Proof.
    destruct s as [|a [|b [|? ?]]]; cbn [dateRe_day]; try discriminate.
    - destruct (is_ascii_digit a) eqn:Ea; [|discriminate].
      intros Hd. injection Hd as <-. cbn. rewrite Ea. repeat split; lia.
    - destruct (is_ascii_digit a) eqn:Ea; [|discriminate].
      destruct (is_ascii_digit b) eqn:Eb; [|discriminate].
      intros Hd. injection Hd as <-. cbn. rewrite Ea, Eb. repeat split; lia.
  Qed.

Lemma dateRe_day_digits s :
    1 <= length s <= 2 -> forallb is_ascii_digit s = true -> dateRe_day s = Some s.
  Proof.
    destruct s as [|a [|b [|? ?]]]; cbn [length]; try lia; intros _; cbn.
    - rewrite andb_true_r. now intros ->.
    - rewrite andb_true_r. now intros ->.
  Qed.

Lemma dateRe_month_day_Some s m d :
    dateRe_month_day s = Some (m, d) ->
    s = m ++ "-"%char :: d /\ 1 <= length m <= 2 /\ 1 <= length d <= 2
    /\ forallb is_ascii_digit m = true /\ forallb is_ascii_digit d = true.
  Proof.
    intros Hs. unfold dateRe_month_day in Hs.
    destruct s as [|m1 [|m2 [|c rest]]]; try discriminate Hs.
    - bits Hs; try discriminate Hs.
      destruct (is_ascii_digit m1); discriminate Hs.
    - bits Hs; try discriminate Hs;
        match type of Hs with
        | (if ?cond then option_map _ (dateRe_day ?r) else None) = _ =>
            destruct cond eqn:E; [|discriminate Hs];
            destruct (dateRe_day r) as [d'|] eqn:Ed; [|discriminate Hs];
            cbn [option_map] in Hs; injection Hs as <- <-;
            apply dateRe_day_Some in Ed as (-> & Hl & Hd);
            cbn [forallb length app] in Hl |- *; rewrite ?andb_true_r;
            repeat split; solve [reflexivity | lia | exact Hd | exact E]
        end.
  Qed.

Lemma dateRe_Some date y m d :
    dateRe_FindStringSubmatch date = Some (y, m, d) ->
    date = y ++ "-"%char :: m ++ "-"%char :: d
    /\ length y = 4 /\ 1 <= length m <= 2 /\ 1 <= length d <= 2
    /\ forallb is_ascii_digit y = true
    /\ forallb is_ascii_digit m = true /\ forallb is_ascii_digit d = true.
  Proof.
    intros Hs. unfold dateRe_FindStringSubmatch in Hs.
    destruct date as [|y1 [|y2 [|y3 [|y4 [|c rest]]]]]; try discriminate Hs.
    bits Hs; try discriminate Hs.
    destruct (forallb is_ascii_digit [y1; y2; y3; y4]) eqn:E; [|discriminate Hs].
    destruct (dateRe_month_day rest) as [[m' d']|] eqn:Emd; [|discriminate Hs].
    cbn [option_map fst snd] in Hs. injection Hs as <- <- <-.
    apply dateRe_month_day_Some in Emd as (-> & Hm & Hd & Hdm & Hdd).
    repeat split; solve [reflexivity | lia | assumption].
  Qed.

Lemma dateRe_digits y m d :
    length y = 4 -> 1 <= length m <= 2 -> 1 <= length d <= 2 ->
    forallb is_ascii_digit y = true ->
    forallb is_ascii_digit m = true -> forallb is_ascii_digit d = true ->
    dateRe_FindStringSubmatch (y ++ "-"%char :: m ++ "-"%char :: d) = Some (y, m, d).
  Proof.
    intros Hy Hm Hd Dy Dm Dd.
    destruct y as [|y1 [|y2 [|y3 [|y4 [|? ?]]]]]; cbn [length] in Hy; try lia.
    cbn [app dateRe_FindStringSubmatch]. rewrite Dy.
    assert (Hmd : dateRe_month_day (m ++ "-"%char :: d) = Some (m, d)).
    { pose proof (dateRe_day_digits d Hd Dd) as Hday.
      destruct d as [|d1 d]; [cbn in Hd; lia|].
      assert (H1 : is_ascii_digit d1 = true).
      { cbn [forallb] in Dd. now apply andb_true_iff in Dd as [? _]. }
      destruct m as [|m1 [|m2 [|? ?]]]; cbn [length] in Hm; try lia.
      - cbn [forallb] in Dm. rewrite andb_true_r in Dm.
        apply digit_cases in H1.
        repeat (apply elem_of_cons in H1 as [->|H1]);
          [cbn [app dateRe_month_day]; rewrite Dm, Hday; reflexivity ..|].
        now apply elem_of_nil in H1.
      - cbn [forallb] in Dm. rewrite andb_true_r in Dm.
        apply andb_true_iff in Dm as [D1 D2].
        apply digit_cases in D2.
        repeat (apply elem_of_cons in D2 as [->|D2]);
          [cbn [app dateRe_month_day]; rewrite D1, Hday; reflexivity ..|].
        now apply elem_of_nil in D2. }
    rewrite Hmd. reflexivity.
  Qed.

End Date.

(** X7. A date of the form YYYY-MM-DD. For four digits, a hyphen, one or
    two digits, a hyphen and one or two digits, [formatDate] writes a
    [datetime] value whose year is the four digits and whose month and day
    are the digits without their leading zeros (a month or a day made of
    zeros only is written as nothing). No calendar check is made. *)
Theorem formatDate_iso (y m d : bytes) :
  length y = 4 -> 1 <= length m <= 2 -> 1 <= length d <= 2 ->
  forallb is_ascii_digit (y ++ m ++ d) = true ->
  formatDate (y ++ "-" ++ m ++ "-" ++ d)
  = "datetime(" ++ nl ++ "  year: " ++ y ++ "," ++ nl
    ++ "  month: " ++ strings.TrimLeft m "0" ++ "," ++ nl
    ++ "  day: " ++ strings.TrimLeft d "0" ++ "," ++ nl ++ ")".
Proof.
  intros Hy Hm Hd Hdig.
  rewrite !forallb_app in Hdig.
  apply andb_true_iff in Hdig as [Dy Hdig]. apply andb_true_iff in Hdig as [Dm Dd].
  unfold formatDate.
  change (y ++ "-" ++ m ++ "-" ++ d) with (y ++ "-"%char :: m ++ "-"%char :: d).
  rewrite (dateRe_digits y m d Hy Hm Hd Dy Dm Dd).
  destruct y as [|y1 y]; [cbn in Hy; lia|]. reflexivity.
Qed.

Lemma formatDate_iso_witness :
  formatDate "2024-03-05"
  = "datetime(" ++ nl ++ "  year: 2024," ++ nl ++ "  month: 3," ++ nl
    ++ "  day: 5," ++ nl ++ ")".
Proof.
  apply (formatDate_iso "2024" "03" "05");
    [reflexivity | cbn; lia | cbn; lia | reflexivity].
Defined.

(** X8. Every other date is quoted as it is. [formatDate] returns its
    argument between two double quotes, with nothing escaped, unless the
    argument has the form of X7, and the empty date gives the empty
    string literal. *)
Theorem formatDate_cases (date : bytes) :
  formatDate date = [DQ] ++ date ++ [DQ]
  \/ exists y m d,
       date = y ++ "-" ++ m ++ "-" ++ d
       /\ length y = 4 /\ 1 <= length m <= 2 /\ 1 <= length d <= 2
       /\ forallb is_ascii_digit (y ++ m ++ d) = true.
Proof.
  unfold formatDate. destruct date as [|c date]; [now left|].
  destruct (dateRe_FindStringSubmatch (c :: date)) as [[[y m] d]|] eqn:E; [|now left].
  right. exists y, m, d.
  apply dateRe_Some in E as (-> & Hy & Hm & Hd & Dy & Dm & Dd).
  rewrite !forallb_app, Dy, Dm, Dd. repeat split; solve [reflexivity | lia].
Qed.

(** ** More on [convertPunctuation] *)

Section PunctuationMore.

  Context `{GoLib}.
  Import utf8.

Lemma target_byte_cases c :
    target_byte c = true ->
    c = ","%char \/ c = ";"%char \/ c = "?"%char \/ c = "("%char \/ c = ")"%char
    \/ c = ":"%char.
  Proof.
    unfold target_byte. cbn [existsb list_ascii_of_string].
    rewrite !orb_true_iff, !Ascii.eqb_eq. intuition discriminate.
  Qed.

Lemma replaced_byte_cases c :
    replaced_byte c = true ->
    c = ","%char \/ c = ";"%char \/ c = "?"%char \/ c = "("%char \/ c = ")"%char.
  Proof.
    unfold replaced_byte. cbn [existsb list_ascii_of_string].
    rewrite !orb_true_iff, !Ascii.eqb_eq. intuition discriminate.
  Qed.

  (** The switch never yields one of the five bytes it replaces. *)
Lemma convertRune_not_replaced rs i r c :
    replaced_byte c = true -> convertRune rs i r <> byte_val c.
  Proof.
    intros Hc Heq. unfold convertRune in Heq.
    repeat match type of Heq with
           | context [(?a =? ?b)%Z] =>
               destruct (Z.eqb_spec a b);
               [apply replaced_byte_cases in Hc;
                destruct Hc as [->|[->|[->|[->| ->]]]]; discriminate Heq|]
           end.
    destruct (Z.eqb_spec r (R ":")).
    - apply replaced_byte_cases in Hc.
      destruct (_ && _); destruct Hc as [->|[->|[->|[->| ->]]]]; discriminate Heq.
    - apply replaced_byte_cases in Hc. subst r.
      destruct Hc as [->|[->|[->|[->| ->]]]]; contradiction.
  Qed.

  (** A text with no opening brace and no URL scheme has no span to skip. *)
Lemma no_spans text o :
    "{"%char ∉ text ->
    (forall scheme, scheme ∈ url_schemes -> strings.Contains text scheme = false) ->
    inSkip (skipSpans text) o = false.
  Proof.
    intros Hbrace Hurl.
    destruct (inSkip (skipSpans text) o) eqn:E; [exfalso|reflexivity].
    apply inSkip_skipSpans in E as [(a & n & _ & Hm)|(a & n & _ & Hm)].
    - apply urlPattern_spec in Hm as (scheme & Hs & Hp & _).
      specialize (Hurl scheme Hs).
      apply HasPrefix_spec in Hp as [rest Hr].
      assert (Ht : strings.Contains text scheme = true).
      { apply Contains_true. exists (take a text), rest.
        rewrite <- Hr. now rewrite take_drop. }
      congruence.
    - apply markerPattern_spec in Hm as (body & rest & Hd & _).
      apply Hbrace. rewrite <- (take_drop a text), Hd.
      apply elem_of_app. right. constructor.
  Qed.

  (** A well-formed text with none of the six bytes is left alone. *)
Lemma convertPunctuation_id text :
    ValidString text = true ->
    forallb (fun c => negb (target_byte c)) text = true ->
    convertPunctuation text = text.
  Proof.
    intros Hvalid Hplain.
    rewrite convertPunctuation_out_runes. unfold out_runes.
    rewrite imap_id; [now apply ValidString_spec|].
    intros i r Hr. apply written_other.
    destruct (is_target r) eqn:Et; [exfalso|reflexivity].
    destruct (rune_offset text i r Hvalid Hr) as [_ Hp].
    set (o := length (string_of_runes (take i (runes text)))) in Hp.
    assert (Hc : exists c, target_byte c = true /\ EncodeRune r = [c]).
    { apply is_target_cases in Et.
      destruct Et as [->|[->|[->|[->|[->| ->]]]]]; eexists; (split; [|reflexivity]);
        reflexivity. }
    destruct Hc as (c & Hc & Hr'). rewrite Hr' in Hp.
    apply HasPrefix_spec in Hp as [rest Hrest].
    rewrite <- (take_drop o text), Hrest, forallb_app in Hplain.
    apply andb_true_iff in Hplain as [_ Hplain].
    cbn [app forallb] in Hplain. rewrite Hc in Hplain. discriminate Hplain.
  Qed.

  (** Well-formed texts stay well-formed when put together. *)
Lemma ValidString_app a b :
    ValidString a = true -> ValidString b = true -> ValidString (a ++ b) = true.
  Proof.
    intros Ha Hb. apply ValidString_spec in Ha, Hb.
    rewrite <- Ha, <- Hb, <- string_of_runes_app.
    apply ValidString_string_of_runes, Forall_app. split; apply runes_valid.
  Qed.

End PunctuationMore.

(** X9. The output of [convertPunctuation] is well-formed UTF-8 for
    every byte sequence, well-formed or not, and has as many runes as the
    input: a byte of the input that is no part of a well-formed encoding
    is written as the replacement character U+FFFD. *)
Theorem convertPunctuation_output `{GoLib} (text : bytes) :
  utf8.ValidString (convertPunctuation text) = true
  /\ length (utf8.runes (convertPunctuation text)) = length (utf8.runes text)
  /\ forall i, utf8.runes text !! i = Some utf8.RuneError ->
               utf8.runes (convertPunctuation text) !! i = Some utf8.RuneError.
Proof.
  split; [|split].
  - rewrite convertPunctuation_out_runes.
    apply ValidString_string_of_runes, out_runes_valid.
  - rewrite runes_convertPunctuation. apply length_out_runes.
  - intros i Hi. rewrite runes_convertPunctuation.
    rewrite (out_runes_lookup _ _ _ Hi). f_equal.
    apply written_other. reflexivity.
Qed.

(** X10. A well-formed text that holds none of the six ASCII bytes
    comma, semicolon, question mark, parentheses and colon is returned
    as it is. *)
Theorem convertPunctuation_plain `{GoLib} (text : bytes) :
  utf8.ValidString text = true ->
  forallb (fun c => negb (target_byte c)) text = true ->
  convertPunctuation text = text.
Proof. apply convertPunctuation_id. Qed.

Lemma convertPunctuation_plain_witness :
  convertPunctuation (H := asciiLib) "关于开展检查的通知 abc" = "关于开展检查的通知 abc".
Proof.
  apply (convertPunctuation_plain (H := asciiLib)); vm_compute; reflexivity.
Defined.

(** X11. Where nothing is skipped, nothing is left. For every byte
    sequence that holds no opening brace and none of the scheme prefixes
    http://, https://, ftp:// and mailto:, the output holds no ASCII comma,
    semicolon, question mark or parenthesis. *)
Theorem convertPunctuation_replaces_all `{GoLib} (text : bytes) :
  "{"%char ∉ text ->
  (forall scheme, scheme ∈ url_schemes -> strings.Contains text scheme = false) ->
  forallb (fun c => negb (replaced_byte c)) (convertPunctuation text) = true.
Proof.
  intros Hbrace Hurl. apply forallb_forall. intros c Hc.
  destruct (replaced_byte c) eqn:Er; [exfalso|reflexivity].
  apply list_elem_of_In, list_elem_of_split in Hc as (P & Q & Hsplit).
  rewrite convertPunctuation_out_runes in Hsplit.
  assert (Hascii : (utf8.byte_val c < 0x80)%Z).
  { apply replaced_byte_cases in Er.
    destruct Er as [->|[->|[->|[->| ->]]]]; reflexivity. }
  destruct (string_of_runes_split_ascii _ _ _ _ Hsplit Hascii) as (R1 & R2 & Hout & _ & _).
  assert (Hi : out_runes text !! length R1 = Some (utf8.byte_val c)).
  { rewrite Hout. now apply list_lookup_middle. }
  unfold out_runes in Hi.
  apply list_lookup_imap_Some in Hi as (r & Hr & Hw).
  unfold written in Hw. fold (skipSpans text) in Hw.
  rewrite (no_spans text _ Hbrace Hurl) in Hw.
  symmetry in Hw. now apply convertRune_not_replaced in Hw.
Qed.

Lemma convertPunctuation_replaces_all_witness :
  forallb (fun c => negb (replaced_byte c))
          (convertPunctuation (H := asciiLib) "a,b;c?(d) 12:30") = true.
Proof.
  apply (convertPunctuation_replaces_all (H := asciiLib)).
  - intros Hin. repeat (apply elem_of_cons in Hin as [Hin|Hin]; [discriminate Hin|]).
    now apply elem_of_nil in Hin.
  - intros scheme Hs.
    repeat (apply elem_of_cons in Hs as [->|Hs]; [reflexivity|]).
    now apply elem_of_nil in Hs.
Defined.

(** ** The fenced noindent regions: [preprocessBody] *)

Section Preprocess.

  Import strings.

  (** A prefix that holds no [c] is not completed by what follows a [c]. *)
Lemma HasPrefix_app_stop z c r p :
    c ∉ p -> HasPrefix (z ++ c :: r) p = HasPrefix z p.
  Proof.
    revert z. induction p as [|x p IH]; intros z Hc; [reflexivity|].
    apply not_elem_of_cons in Hc as [Hx Hp].
    destruct z as [|y z]; cbn [app HasPrefix].
    - replace (Ascii.eqb c x) with false; [reflexivity|].
      symmetry. apply Ascii.eqb_neq. congruence.
    - now rewrite IH.
  Qed.

Lemma HasPrefix_longer z p q : HasPrefix z p = false -> HasPrefix z (p ++ q) = false.
  Proof.
    intros Hp. destruct (HasPrefix z (p ++ q)) eqn:E; [|reflexivity].
    apply HasPrefix_spec in E as [rest ->].
    rewrite <- app_assoc, HasPrefix_app in Hp. discriminate Hp.
  Qed.

Lemma after_None lit m s : HasPrefix s lit = false -> regexp.after lit m s = None.
  Proof. intros Hs. unfold regexp.after. now rewrite Hs. Qed.

Lemma last_flag (c : ascii) (p : bytes) (f : ascii -> bool) (b : bool) :
    match last (c :: p) with Some x => f x | None => b end
    = match last p with Some x => f x | None => f c end.
  Proof.
    destruct p as [|d p]; [reflexivity|].
    change (last (c :: d :: p)) with (last (d :: p)).
    destruct (last (d :: p)) eqn:El; [reflexivity|].
    apply last_None in El. discriminate El.
  Qed.

  (** With no match at the line starts of [p], [p] is copied. *)
Lemma replace_lines_app re repl p rest b :
    (forall j, j < length p -> line_start b p j -> re (drop j (p ++ rest)) = None) ->
    replace_lines re repl b 0 (p ++ rest)
    = p ++ replace_lines re repl
             (match last p with Some c => Ascii.eqb c LF | None => b end) 0 rest.
  Proof.
    revert b. induction p as [|c p IH]; intros b Hno; [reflexivity|].
    cbn [app replace_lines].
    assert (H0 : (if b then re (c :: p ++ rest) else None) = None).
    { destruct b; [|reflexivity]. apply (Hno 0); [cbn; lia|reflexivity]. }
    rewrite H0. f_equal. rewrite IH.
    - f_equal. now rewrite last_flag.
    - intros j Hj Hs. apply (Hno (S j)); [cbn; lia|].
      destruct j as [|i]; cbn [line_start] in *.
      + cbn. f_equal. now apply Ascii.eqb_eq.
      + exact Hs.
  Qed.

  (** A stretch with no line feed, at whose first byte no match starts. *)
Lemma replace_lines_line re repl p rest b :
    p <> [] -> LF ∉ p -> (b = true -> re (p ++ rest) = None) ->
    replace_lines re repl b 0 (p ++ rest) = p ++ replace_lines re repl false 0 rest.
  Proof.
    intros Hne Hlf Hb. rewrite replace_lines_app.
    - f_equal. destruct (last p) as [c|] eqn:El.
      + replace (Ascii.eqb c LF) with false; [reflexivity|].
        symmetry. apply Ascii.eqb_neq. intros ->.
        apply Hlf. apply last_Some in El as [l' ->].
        apply elem_of_app. right. constructor.
      + apply last_None in El. contradiction.
    - intros j Hj Hs. destruct j as [|i]; cbn [line_start] in Hs.
      + now apply Hb.
      + exfalso. apply Hlf. eapply list_elem_of_lookup_2. exact Hs.
  Qed.

  (** The bytes of a match are passed over. *)
Lemma replace_lines_skip re repl l rest b :
    replace_lines re repl b (length l) (l ++ rest)
    = replace_lines re repl
        (match last l with Some c => Ascii.eqb c LF | None => b end) 0 rest.
  Proof.
    revert b. induction l as [|c l IH]; intros b; [reflexivity|].
    cbn [length app replace_lines]. rewrite IH.
    now rewrite last_flag.
  Qed.

Lemma no_fence_line_start x j :
    no_fence x -> j < length x -> line_start true x j ->
    HasPrefix (drop j x) ":::" = false.
  Proof.
    intros [H0 Hc] Hj Hs. destruct j as [|i]; [exact H0|].
    cbn [line_start] in Hs.
    rewrite Contains_false in Hc. specialize (Hc i ltac:(lia)).
    rewrite (drop_S _ _ _ Hs) in Hc.
    cbn [HasPrefix] in Hc. rewrite Ascii.eqb_refl in Hc. exact Hc.
  Qed.

  (** Both patterns start with [:::]. *)
Lemma reNoindentOpen_None s : HasPrefix s ":::" = false -> reNoindentOpen s = None.
  Proof.
    intros Hs. apply after_None.
    change (list_ascii_of_string "::: {.noindent}")
      with (list_ascii_of_string ":::" ++ list_ascii_of_string " {.noindent}").
    now apply HasPrefix_longer.
  Qed.

Lemma reNoindentClose_None s : HasPrefix s ":::" = false -> reNoindentClose s = None.
  Proof. intros Hs. now apply after_None. Qed.

  (** A pattern that starts with [:::] leaves a text with no fence alone,
      whatever follows a line feed after it. *)
Lemma replace_lines_no_fence re repl x rest :
    (forall s, HasPrefix s ":::" = false -> re s = None) ->
    no_fence x ->
    replace_lines re repl true 0 (x ++ LF :: rest)
    = x ++ LF :: replace_lines re repl true 0 rest.
  Proof.
    intros Hre Hx. rewrite replace_lines_app.
    - f_equal. cbn [replace_lines].
      assert (Hn : re (LF :: rest) = None) by (apply Hre; reflexivity).
      rewrite Hn, Ascii.eqb_refl.
      now destruct (match last x with Some _ => _ | None => _ end).
    - intros j Hj Hs. apply Hre.
      rewrite drop_app_le by lia.
      rewrite HasPrefix_app_stop.
      + now apply no_fence_line_start.
      + intros Hin. repeat (apply elem_of_cons in Hin as [Hin|Hin]; [discriminate Hin|]).
        now apply elem_of_nil in Hin.
  Qed.

Lemma replace_lines_no_fence_end re repl x :
    (forall s, HasPrefix s ":::" = false -> re s = None) ->
    no_fence x ->
    replace_lines re repl true 0 x = x.
  Proof.
    intros Hre Hx.
    rewrite <- (app_nil_r x) at 1. rewrite replace_lines_app.
    - cbn [replace_lines]. apply app_nil_r.
    - intros j Hj Hs. apply Hre. rewrite app_nil_r.
      now apply no_fence_line_start.
  Qed.

  (** The opening fence on a line of its own, before a line that does not
      start with white space: the match is the fence itself. *)
Lemma reNoindentOpen_fence c r :
    regexp.space c = false ->
    reNoindentOpen ("::: {.noindent}" ++ LF :: c :: r) = Some 15.
  Proof.
    intros Hc. unfold reNoindentOpen, line_pattern, regexp.after.
    rewrite HasPrefix_app, drop_app_length.
    cbn [regexp.run_length]. rewrite Hc.
    change (regexp.space LF) with true. cbn [drop take last_newline].
    rewrite Ascii.eqb_refl. reflexivity.
  Qed.

Lemma reNoindentOpen_last_fence :
    replace_lines reNoindentOpen "<!-- noindent-start -->" true 0 ":::" = ":::".
  Proof. vm_compute. reflexivity. Qed.

Lemma reNoindentClose_last_fence :
    replace_lines reNoindentClose "<!-- noindent-end -->" true 0 ":::"
    = "<!-- noindent-end -->".
  Proof. vm_compute. reflexivity. Qed.

Lemma replace_lines_match re repl c s n :
    re (c :: s) = Some n ->
    replace_lines re repl true 0 (c :: s)
    = repl ++ replace_lines re repl (Ascii.eqb c LF) (n - 1) s.
  Proof. intros Hm. cbn [replace_lines]. now rewrite Hm. Qed.

Lemma replace_lines_step_false re repl c s :
    replace_lines re repl false 0 (c :: s)
    = c :: replace_lines re repl (Ascii.eqb c LF) 0 s.
  Proof. reflexivity. Qed.

End Preprocess.

(** X12. A body with no fence is left alone: when no line of the body
    starts with ":::" (neither the first one nor one after a newline),
    [preprocessBody] returns the body as it is. *)
Theorem preprocessBody_no_fence (body : bytes) :
  strings.HasPrefix body ":::" = false ->
  strings.Contains body (LF :: ":::") = false ->
  preprocessBody body = body.
Proof.
  intros H0 Hc. unfold preprocessBody.
  rewrite (replace_lines_no_fence_end reNoindentOpen _ body reNoindentOpen_None);
    [|now split].
  apply (replace_lines_no_fence_end reNoindentClose _ body reNoindentClose_None).
  now split.
Qed.

Lemma preprocessBody_no_fence_witness :
  preprocessBody ("# 标题" ++ nl ++ nl ++ "a ::: b" ++ nl) = "# 标题" ++ nl ++ nl ++ "a ::: b" ++ nl.
Proof.
  apply preprocessBody_no_fence; vm_compute; reflexivity.
Defined.

(** X13. A fenced region becomes a pair of comments. For a text [x]
    whose first byte is no white space and none of whose lines starts with
    ":::", the body made of the line "::: {.noindent}", the lines of [x]
    and a last line ":::" is rewritten to the line
    "<!-- noindent-start -->", the lines of [x] unchanged and the line
    "<!-- noindent-end -->". *)
Theorem preprocessBody_fence (c : ascii) (x' : bytes) :
  regexp.space c = false ->
  strings.HasPrefix (c :: x') ":::" = false ->
  strings.Contains (c :: x') (LF :: ":::") = false ->
  preprocessBody ("::: {.noindent}" ++ nl ++ (c :: x') ++ nl ++ ":::")
  = "<!-- noindent-start -->" ++ nl ++ (c :: x') ++ nl ++ "<!-- noindent-end -->".
Proof.
  intros Hc H0 Hcont.
  assert (Hx : no_fence (c :: x')) by now split.
  set (x := c :: x') in *.
  unfold preprocessBody.
  (* the first pass: the opening fence *)
  assert (Hopen :
    replace_lines reNoindentOpen "<!-- noindent-start -->" true 0
      ("::: {.noindent}" ++ nl ++ x ++ nl ++ ":::")
    = "<!-- noindent-start -->" ++ LF :: x ++ LF :: ":::").
  { assert (Htext : "::: {.noindent}" ++ nl ++ x ++ nl ++ ":::"
                     = ":"%char :: (list_ascii_of_string ":: {.noindent}"
                                    ++ LF :: x ++ LF :: list_ascii_of_string ":::"))
      by reflexivity.
    rewrite Htext.
    rewrite (replace_lines_match reNoindentOpen _ _ _ 15)
      by (subst x; exact (reNoindentOpen_fence c _ Hc)).
    rewrite (replace_lines_skip reNoindentOpen _ (list_ascii_of_string ":: {.noindent}")).
    assert (Hflag : match last (list_ascii_of_string ":: {.noindent}") with
                    | Some c0 => Ascii.eqb c0 LF
                    | None => Ascii.eqb ":" LF
                    end = false) by reflexivity.
    rewrite Hflag.
    rewrite replace_lines_step_false, Ascii.eqb_refl.
    rewrite (replace_lines_no_fence reNoindentOpen _ x _ reNoindentOpen_None Hx).
    now rewrite reNoindentOpen_last_fence. }
  rewrite Hopen.
  (* the second pass: the closing fence *)
  rewrite (replace_lines_line reNoindentClose _ "<!-- noindent-start -->").
  - rewrite replace_lines_step_false, Ascii.eqb_refl.
    rewrite (replace_lines_no_fence reNoindentClose _ x _ reNoindentClose_None Hx).
    now rewrite reNoindentClose_last_fence.
  - discriminate.
  - intros Hin.
    repeat (apply elem_of_cons in Hin as [Hin|Hin]; [discriminate Hin|]).
    now apply elem_of_nil in Hin.
  - intros _. apply reNoindentClose_None. reflexivity.
Qed.

Lemma preprocessBody_fence_witness :
  preprocessBody ("::: {.noindent}" ++ nl ++ "主送单位：" ++ nl ++ "各部门" ++ nl ++ ":::")
  = "<!-- noindent-start -->" ++ nl ++ "主送单位：" ++ nl ++ "各部门" ++ nl
    ++ "<!-- noindent-end -->".
Proof.
  exact (preprocessBody_fence "228"%char (tl ("主送单位：" ++ nl ++ "各部门"))
           eq_refl eq_refl eq_refl).
Defined.

(** ** More on the markers *)

Section MarkersMore.

  Import strings.

Lemma in_cutset_space c : in_cutset " " c = Ascii.eqb c " ".
  Proof. unfold in_cutset. cbn. apply orb_false_r. Qed.

Lemma HasSuffix_space_TrimRight s : HasSuffix (TrimRight s " ") " " = false.
  Proof.
    pose proof (TrimRight_last s " ") as Hl. unfold HasSuffix.
    destruct (rev (TrimRight s " ")) as [|c r]; [reflexivity|].
    rewrite in_cutset_space in Hl. cbn. now rewrite Hl.
  Qed.

Lemma spaces_cut n : forallb (in_cutset " ") (Repeat " " n) = true.
  Proof. induction n as [|n IH]; [reflexivity|exact IH]. Qed.

  (** A text that ends in a closing brace, with spaces after it. *)
Lemma TrimRight_brace t n :
    TrimRight ((t ++ ["}"%char]) ++ Repeat " " n) " " = t ++ ["}"%char].
  Proof.
    rewrite TrimRight_cut by apply spaces_cut.
    now apply TrimRight_snoc.
  Qed.

Lemma indent_is_not_noindent t :
    HasSuffix (t ++ "{indent}") "{.noindent}" = false.
  Proof.
    unfold HasSuffix. rewrite rev_app_distr.
    cbn [list_ascii_of_string rev app HasPrefix].
    cbn. now rewrite ?andb_false_r.
  Qed.

  (** What [vMarkerRe] matches. *)
Lemma vMarkerRe_Some t m :
    vMarkerRe_FindStringSubmatch t = Some m ->
    (t = "{v}" /\ m = [])
    \/ (m <> [] /\ forallb is_ascii_digit m = true /\ t = "{v:" ++ m ++ "}").
  Proof.
    unfold vMarkerRe_FindStringSubmatch.
    destruct (bytes_eqb t "{v}") eqn:E1.
    { intros Hm. injection Hm as <-. left. split; [|reflexivity].
      now apply bytes_eqb_eq. }
    destruct (HasPrefix t "{v:") eqn:E2; [|discriminate].
    apply HasPrefix_drop in E2.
    change (length (list_ascii_of_string "{v:")) with 3 in E2.
    set (rest := drop 3 t) in *.
    set (n := regexp.run_length is_ascii_digit rest).
    destruct (0 <? n) eqn:E3; [|discriminate]. cbn [andb].
    destruct (bytes_eqb (drop n rest) "}") eqn:E4; [|discriminate].
    intros Hm. injection Hm as <-. right.
    apply Nat.ltb_lt in E3. apply bytes_eqb_eq in E4.
    pose proof (run_length_le is_ascii_digit rest) as Hle. fold n in Hle.
    split; [|split].
    - intros Ht. apply (f_equal length) in Ht. rewrite length_take in Ht.
      cbn in Ht. lia.
    - apply run_length_take.
    - rewrite E2. f_equal. rewrite <- E4. now rewrite take_drop.
  Qed.

Lemma TrimSpace_marker ds : TrimSpace ("{v:" ++ ds ++ "}") = "{v:" ++ ds ++ "}".
  Proof.
    change ("{v:" ++ ds ++ "}") with ("{"%char :: ("v:" ++ ds) ++ ["}"%char]).
    cbn [app list_ascii_of_string].
    change ("{"%char :: "v"%char :: ":"%char :: ds ++ ["}"%char])
      with ("{"%char :: ("v"%char :: ":"%char :: ds) ++ ["}"%char]).
    apply TrimSpace_fixed; reflexivity.
  Qed.

  (** [Atoi] on digits whose value does not fit an [int]. *)
Lemma Atoi_overflow ds :
    ds <> [] -> forallb is_ascii_digit ds = true ->
    (MaxInt < digits_value ds)%Z -> Atoi ds = (MaxInt, false).
  Proof.
    intros Hne Hds Hv. unfold Atoi.
    destruct ds as [|c ds]; [congruence|].
    assert (Hc : is_ascii_digit c = true).
    { cbn [forallb] in Hds. now apply andb_true_iff in Hds as [? _]. }
    assert (Hm : Ascii.eqb c "-" = false /\ Ascii.eqb c "+" = false).
    { apply digit_byte in Hc. split; apply Ascii.eqb_neq; intros ->;
        vm_compute in Hc; destruct Hc as [Hc1 Hc2]; contradiction. }
    destruct Hm as [-> ->]. rewrite Hds.
    destruct (Z.leb_spec (digits_value (c :: ds)) MaxInt); [lia|reflexivity].
  Qed.

Lemma stripTrailingMarker_noindent t n :
    stripTrailingMarker (t ++ "{.noindent}" ++ Repeat " " n)
    = (TrimRight t " ", MarkerNoindent).
  Proof.
    unfold stripTrailingMarker.
    change (t ++ "{.noindent}" ++ Repeat " " n)
      with (t ++ ("{.noindent" ++ ["}"%char]) ++ Repeat " " n).
    rewrite !app_assoc, TrimRight_brace, <- app_assoc.
    change ("{.noindent" ++ ["}"%char]) with (list_ascii_of_string "{.noindent}").
    now rewrite HasSuffix_app, TrimSuffix_app.
  Qed.

Lemma stripTrailingMarker_indent t n :
    stripTrailingMarker (t ++ "{indent}" ++ Repeat " " n)
    = (TrimRight t " ", MarkerIndent).
  Proof.
    unfold stripTrailingMarker.
    change (t ++ "{indent}" ++ Repeat " " n)
      with (t ++ ("{indent" ++ ["}"%char]) ++ Repeat " " n).
    rewrite !app_assoc, TrimRight_brace, <- app_assoc.
    change ("{indent" ++ ["}"%char]) with (list_ascii_of_string "{indent}").
    now rewrite indent_is_not_noindent, HasSuffix_app, TrimSuffix_app.
  Qed.

End MarkersMore.

(** X14. What [stripTrailingMarker] returns as the text is a first part
    of its argument that does not end in a space, whatever marker it
    reports. *)
Theorem stripTrailingMarker_text (text : bytes) :
  (exists n, fst (stripTrailingMarker text) = take n text)
  /\ strings.HasSuffix (fst (stripTrailingMarker text)) " " = false.
Proof.
  unfold stripTrailingMarker.
  destruct (TrimRight_prefix text " ") as [n1 H1].
  destruct (strings.HasSuffix (strings.TrimRight text " ") "{.noindent}");
    [|destruct (strings.HasSuffix (strings.TrimRight text " ") "{indent}")];
    cbn [fst]; (split; [|apply HasSuffix_space_TrimRight]).
  - destruct (TrimSuffix_prefix (strings.TrimRight text " ") "{.noindent}") as [n2 H2].
    destruct (TrimRight_prefix (strings.TrimSuffix (strings.TrimRight text " ") "{.noindent}") " ")
      as [n3 H3].
    rewrite H3, H2, H1, !take_take. now eexists.
  - destruct (TrimSuffix_prefix (strings.TrimRight text " ") "{indent}") as [n2 H2].
    destruct (TrimRight_prefix (strings.TrimSuffix (strings.TrimRight text " ") "{indent}") " ")
      as [n3 H3].
    rewrite H3, H2, H1, !take_take. now eexists.
  - now exists n1.
Qed.

(** X15. A trailing marker is found behind any text and before any
    number of spaces: for every text [t] and every [n], the text [t]
    followed by {.noindent}, or by {indent}, and [n] spaces gives [t]
    without its trailing spaces and the marker. *)
Theorem stripTrailingMarker_found (t : bytes) (n : nat) :
  stripTrailingMarker (t ++ "{.noindent}" ++ strings.Repeat " " n)
  = (strings.TrimRight t " ", MarkerNoindent)
  /\ stripTrailingMarker (t ++ "{indent}" ++ strings.Repeat " " n)
     = (strings.TrimRight t " ", MarkerIndent).
Proof.
  split; [apply stripTrailingMarker_noindent|apply stripTrailingMarker_indent].
Qed.

(** X16. Only four forms are standalone markers. When [processMarker]
    recognises a text, the text without the white space around it is
    {pagebreak}, {pagebreak:weak}, {v} or {v:N} with N one or more decimal
    digits, and the result is the page break, the weak page break, or as
    many forced line breaks as [strconv.Atoi] reads from N (one for {v}),
    joined by newlines and followed by a newline. *)
Theorem processMarker_forms (text out : bytes) :
  processMarker text = Some out ->
  (TrimSpace text = "{pagebreak}" /\ out = "#pagebreak()" ++ nl)
  \/ (TrimSpace text = "{pagebreak:weak}" /\ out = "#pagebreak(weak: true)" ++ nl)
  \/ (TrimSpace text = "{v}" /\ out = "#linebreak(justify: false)" ++ nl)
  \/ (exists ds,
        ds <> [] /\ forallb is_ascii_digit ds = true
        /\ TrimSpace text = "{v:" ++ ds ++ "}"
        /\ out = strings.Join (repeat ("#linebreak(justify: false)" : bytes)
                                      (Z.to_nat (fst (Atoi ds)))) nl ++ nl).
Proof.
  unfold processMarker.
  destruct (vMarkerRe_FindStringSubmatch (TrimSpace text)) as [m|] eqn:Em.
  - apply vMarkerRe_Some in Em as [[Ht ->]|(Hne & Hd & Ht)].
    + intros Ho. injection Ho as <-. right. right. left. split; [exact Ht|reflexivity].
    + rewrite (bytes_eqb_neq _ _ Hne). intros Ho. injection Ho as <-.
      right. right. right. exists m. repeat split; assumption.
  - destruct (bytes_eqb (TrimSpace text) "{pagebreak}") eqn:E1.
    { intros Ho. injection Ho as <-. left. split; [|reflexivity].
      now apply bytes_eqb_eq. }
    destruct (bytes_eqb (TrimSpace text) "{pagebreak:weak}") eqn:E2; [|discriminate].
    intros Ho. injection Ho as <-. right. left. split; [|reflexivity].
    now apply bytes_eqb_eq.
Qed.

Lemma processMarker_forms_witness :
  (TrimSpace " {pagebreak:weak} " = "{pagebreak}"
   /\ "#pagebreak(weak: true)" ++ nl = "#pagebreak()" ++ nl)
  \/ (TrimSpace " {pagebreak:weak} " = "{pagebreak:weak}"
      /\ "#pagebreak(weak: true)" ++ nl = "#pagebreak(weak: true)" ++ nl)
  \/ (TrimSpace " {pagebreak:weak} " = "{v}"
      /\ "#pagebreak(weak: true)" ++ nl = "#linebreak(justify: false)" ++ nl)
  \/ (exists ds,
        ds <> [] /\ forallb is_ascii_digit ds = true
        /\ TrimSpace " {pagebreak:weak} " = "{v:" ++ ds ++ "}"
        /\ "#pagebreak(weak: true)" ++ nl
           = strings.Join (repeat ("#linebreak(justify: false)" : bytes)
                                  (Z.to_nat (fst (Atoi ds)))) nl ++ nl).
Proof.
  apply (processMarker_forms " {pagebreak:weak} "). reflexivity.
Defined.

(** X17. The counts at the two ends. For {v:N} with N one or more
    decimal digits: when the value of N is zero the result is a single
    empty line, and when it is above the largest [int] the count is the
    largest [int], the error of [strconv.Atoi] being dropped. *)
Theorem processMarker_count_ends (ds : bytes) :
  ds <> [] -> forallb is_ascii_digit ds = true ->
  (digits_value ds = 0%Z -> processMarker ("{v:" ++ ds ++ "}") = Some nl)
  /\ ((MaxInt < digits_value ds)%Z ->
      processMarker ("{v:" ++ ds ++ "}")
      = Some (strings.Join (repeat ("#linebreak(justify: false)" : bytes)
                                   (Z.to_nat MaxInt)) nl ++ nl)).
Proof.
  intros Hne Hds. unfold processMarker.
  rewrite TrimSpace_marker, vMarkerRe_count by assumption.
  rewrite bytes_eqb_neq by exact Hne.
  split; intros Hv.
  - rewrite Atoi_digits by (try assumption; rewrite Hv; discriminate).
    cbn [fst]. now rewrite Hv.
  - rewrite Atoi_overflow by assumption. reflexivity.
Qed.

Lemma processMarker_count_ends_witness :
  processMarker "{v:00}" = Some nl.
Proof.
  apply (processMarker_count_ends "00"); [discriminate|reflexivity|reflexivity].
Defined.

(** ** The document and its blocks *)

Section Document.

  Context `{GoLib}.

  (** Induction on a tree of nodes: the children of a node come first. *)
Lemma node_children_ind (P : node -> Prop) :
    (forall k children, Forall P children -> P (Node k children)) ->
    forall n, P n.
  Proof.
    intros Hnode. fix IH 1. intros [k children]. apply Hnode.
    induction children as [|child rest IHrest]; constructor; [apply IH|exact IHrest].
  Qed.

Lemma isHTMLComment_kind n keyword :
    isHTMLComment n keyword = true -> exists lines, Kind n = KindHTMLBlock lines.
  Proof.
    unfold isHTMLComment. destruct (Kind n); try discriminate. now eexists.
  Qed.

Lemma renderBlock_HTMLBlock c n b lines :
    Kind n = KindHTMLBlock lines -> renderBlock c n b = ([], c).
  Proof. destruct n as [k children]. cbn [Kind]. now intros ->. Qed.

  (** *** A comment that ends a region, at the end of the document *)

Lemma renderBlocks_trailing_end c b l e :
    isHTMLComment e "noindent-end" = true ->
    isHTMLComment e "noindent-start" = false ->
    renderBlocks c b (l ++ [e]) = renderBlocks c b l.
  Proof.
    intros Hend Hstart. revert c b.
    induction l as [|child rest IH]; intros c b.
    - cbn [app renderBlocks]. rewrite Hend, Hstart.
      destruct (isHTMLComment_kind _ _ Hend) as [lines Hk].
      rewrite (renderBlock_HTMLBlock c e false lines Hk).
      destruct b; cbn [app]; now rewrite ?app_nil_r.
    - cbn [app renderBlocks].
      destruct b.
      + destruct (isHTMLComment child "noindent-end"); [now rewrite IH|].
        destruct (renderBlock c child true) as [content c1]. now rewrite IH.
      + destruct (isHTMLComment child "noindent-start"); [now rewrite IH|].
        destruct (renderBlock c child false) as [content c1]. now rewrite IH.
  Qed.

  (** *** The flag of the headings *)

Lemma renderBlock_flag n :
    forall c b, hasSeenHeader c = true -> hasSeenHeader (snd (renderBlock c n b)) = true.
  Proof.
    induction n as [k children IHc] using node_children_ind. intros c b Hc.
    destruct k; cbn [renderBlock];
      try (rewrite renderParagraph_flag; exact Hc);
      try (apply renderHeading_flag);
      try (destruct b; exact Hc);
      try exact Hc;
      (* the loops over the children of a quote and of any other node *)
      match goal with |- context [?loop c children] => set (L := loop) end;
      (assert (Hloop : forall c0, hasSeenHeader c0 = true ->
                                  hasSeenHeader (snd (L c0 children)) = true);
       [ clear c Hc; induction IHc as [|child rest Hchild _ IHrest]; intros c0 Hc0;
         [ exact Hc0
         | first
             [ change (L c0 (child :: rest))
                 with (let '(content, c1) := renderBlock c0 child false in
                       let '(out, c2) := L c1 rest in (quoteLines content ++ out, c2))
             | change (L c0 (child :: rest))
                 with (let '(content, c1) := renderBlock c0 child b in
                       let '(out, c2) := L c1 rest in (content ++ out, c2)) ];
           cbv zeta;
           match goal with
           | |- context [renderBlock c0 child ?flag] =>
               pose proof (Hchild c0 flag Hc0) as H1;
               destruct (renderBlock c0 child flag) as [content c1]
           end;
           cbn [snd] in H1; pose proof (IHrest c1 H1) as H2;
           destruct (L c1 rest) as [out c2]; exact H2 ]
       | specialize (Hloop c Hc); destruct (L c children) as [out c2]; exact Hloop ]).
  Qed.

Lemma renderBlocks_flag l :
    forall c b, hasSeenHeader c = true -> hasSeenHeader (snd (renderBlocks c b l)) = true.
  Proof.
    induction l as [|child rest IH]; intros c b Hc.
    - now destruct b.
    - cbn [renderBlocks]. destruct b.
      + destruct (isHTMLComment child "noindent-end").
        * specialize (IH c false Hc). now destruct (renderBlocks c false rest).
        * pose proof (renderBlock_flag child c true Hc) as H1.
          destruct (renderBlock c child true) as [content c1]. cbn [snd] in H1.
          specialize (IH c1 true H1). now destruct (renderBlocks c1 true rest).
      + destruct (isHTMLComment child "noindent-start").
        * specialize (IH c true Hc). now destruct (renderBlocks c true rest).
        * pose proof (renderBlock_flag child c false Hc) as H1.
          destruct (renderBlock c child false) as [content c1]. cbn [snd] in H1.
          specialize (IH c1 false H1). now destruct (renderBlocks c1 false rest).
  Qed.

Lemma renderBlock_heading c n b lvl :
    Kind n = KindHeading lvl -> hasSeenHeader (snd (renderBlock c n b)) = true.
  Proof.
    destruct n as [k children]. cbn [Kind]. intros ->.
    cbn [renderBlock]. apply renderHeading_flag.
  Qed.

Lemma isHTMLComment_heading n keyword lvl :
    Kind n = KindHeading lvl -> isHTMLComment n keyword = false.
  Proof. unfold isHTMLComment. now intros ->. Qed.

Lemma renderBlocks_heading l h lvl :
    h ∈ l -> Kind h = KindHeading lvl ->
    forall c b, hasSeenHeader (snd (renderBlocks c b l)) = true.
  Proof.
    intros Hin Hk. induction Hin as [h rest|h child rest Hin IH]; intros c b.
    - cbn [renderBlocks]. rewrite !(isHTMLComment_heading h _ lvl Hk).
      pose proof (renderBlock_heading c h true lvl Hk) as H1.
      pose proof (renderBlock_heading c h false lvl Hk) as H2.
      destruct b.
      + destruct (renderBlock c h true) as [content c1]. cbn [snd] in H1.
        pose proof (renderBlocks_flag rest c1 true H1) as H3.
        now destruct (renderBlocks c1 true rest).
      + destruct (renderBlock c h false) as [content c1]. cbn [snd] in H2.
        pose proof (renderBlocks_flag rest c1 false H2) as H3.
        now destruct (renderBlocks c1 false rest).
    - cbn [renderBlocks]. destruct b.
      + destruct (isHTMLComment child "noindent-end").
        * specialize (IH Hk c false). now destruct (renderBlocks c false rest).
        * destruct (renderBlock c child true) as [content c1].
          specialize (IH Hk c1 true). now destruct (renderBlocks c1 true rest).
      + destruct (isHTMLComment child "noindent-start").
        * specialize (IH Hk c true). now destruct (renderBlocks c true rest).
        * destruct (renderBlock c child false) as [content c1].
          specialize (IH Hk c1 false). now destruct (renderBlocks c1 false rest).
  Qed.

  (** *** Paragraphs of one image each *)

Lemma renderBlocks_images c (images : list (bytes * bytes)) :
    (MinInt <= figureCounter c)%Z ->
    (figureCounter c + Z.of_nat (length images) <= MaxInt)%Z ->
    renderBlocks c false (map (fun i => imageParagraph i.1 i.2) images)
    = (concat (imap (fun i img =>
                       singleImageTemplate img.1 (imageCaption (imageNode img.1 img.2))
                         (figureCounter c + 1 + Z.of_nat i)) images),
       {| figureCounter := figureCounter c + Z.of_nat (length images);
          hasSeenHeader := hasSeenHeader c |}).
  Proof.
    revert c. induction images as [|[dest alt] rest IH]; intros c Hlo Hhi.
    - cbn. rewrite Z.add_0_r. now destruct c.
    - cbn [map renderBlocks fst snd]. cbn [length] in Hhi.
      change (isHTMLComment (imageParagraph dest alt) "noindent-start") with false.
      cbv iota.
      change (renderBlock c (imageParagraph dest alt) false)
        with (renderSingleImage c (imageNode dest alt)).
      unfold renderSingleImage. cbv zeta. cbn [figureCounter hasSeenHeader].
      rewrite int_wrap_succ by lia.
      rewrite IH; cbn [figureCounter hasSeenHeader]; [|lia|lia].
      cbn [imap concat fst snd]. f_equal.
      + rewrite Z.add_0_r. f_equal. f_equal. apply imap_ext.
        intros i [d a] _. cbn [fst snd compose]. f_equal. lia.
      + cbn [length]. f_equal. lia.
  Qed.

  (** *** Code blocks *)

Lemma take_until_stop p a c b :
    forallb (fun x => negb (p x)) a = true -> p c = true ->
    take_until p (a ++ c :: b) = a.
  Proof.
    intros Ha Hc. induction a as [|x a IH]; cbn [app take_until].
    - now rewrite Hc.
    - cbn [forallb] in Ha. apply andb_true_iff in Ha as [Hx Ha].
      apply negb_true_iff in Hx. rewrite Hx. now rewrite IH.
  Qed.

End Document.

(** X18. A comment that ends a noindent region is redundant at the end
    of the document: a region that is still open there is closed by the
    renderer, and outside a region the comment writes nothing. The
    document with such a comment as its last block is rendered as the
    document without it, to the same text and the same converter state. *)
Theorem renderDocument_trailing_end `{GoLib} (c : converter) (k : nodeKind)
    (blocks : list node) (e : node) :
  isHTMLComment e "noindent-end" = true ->
  isHTMLComment e "noindent-start" = false ->
  renderDocument c (Node k (blocks ++ [e])) = renderDocument c (Node k blocks).
Proof.
  intros Hend Hstart. unfold renderDocument. cbn [Children].
  now apply renderBlocks_trailing_end.
Qed.

Lemma renderDocument_trailing_end_witness :
  renderDocument (H := asciiLib) newConverter
    (Node KindDocument
       ([Node (KindHTMLBlock ["<!-- noindent-start -->" ++ nl]) [];
         textParagraph "abc"]
        ++ [Node (KindHTMLBlock ["<!-- noindent-end -->" ++ nl]) []]))
  = renderDocument (H := asciiLib) newConverter
      (Node KindDocument
         [Node (KindHTMLBlock ["<!-- noindent-start -->" ++ nl]) [];
          textParagraph "abc"]).
Proof.
  apply (renderDocument_trailing_end (H := asciiLib)); reflexivity.
Defined.

(** X19. The flag of the headings. Rendering a document never clears
    [hasSeenHeader], and the flag is set after the document when one of
    its top-level blocks is a heading, of any level and inside a noindent
    region or not. *)
Theorem renderDocument_header_flag `{GoLib} (c : converter) (doc : node) :
  (hasSeenHeader c = true -> hasSeenHeader (snd (renderDocument c doc)) = true)
  /\ ((exists h lvl, h ∈ Children doc /\ Kind h = KindHeading lvl) ->
      hasSeenHeader (snd (renderDocument c doc)) = true).
Proof.
  unfold renderDocument. split.
  - apply renderBlocks_flag.
  - intros (h & lvl & Hin & Hk). now apply (renderBlocks_heading _ h lvl).
Qed.

(** X20. Figures are numbered in the order of the document. For a
    document whose blocks are paragraphs of one image each, the figure of
    the i-th paragraph (from 0) carries the number [figureCounter + 1 + i],
    and the counter ends [length images] higher, as long as it stays
    within [int]. *)
Theorem renderDocument_figure_numbers `{GoLib} (c : converter) (k : nodeKind)
    (images : list (bytes * bytes)) :
  (MinInt <= figureCounter c)%Z ->
  (figureCounter c + Z.of_nat (length images) <= MaxInt)%Z ->
  renderDocument c (Node k (map (fun i => imageParagraph i.1 i.2) images))
  = (concat (imap (fun i img =>
                     singleImageTemplate img.1 (imageCaption (imageNode img.1 img.2))
                       (figureCounter c + 1 + Z.of_nat i)) images),
     {| figureCounter := figureCounter c + Z.of_nat (length images);
        hasSeenHeader := hasSeenHeader c |}).
Proof.
  intros Hlo Hhi. unfold renderDocument. cbn [Children].
  now apply renderBlocks_images.
Qed.

Lemma renderDocument_figure_numbers_witness :
  renderDocument (H := asciiLib) newConverter
    (Node KindDocument [imageParagraph "a.png" []; imageParagraph "img/b.jpg" "B"])
  = (singleImageTemplate "a.png" "a" 1 ++ singleImageTemplate "img/b.jpg" "b" 2,
     {| figureCounter := 2; hasSeenHeader := false |}).
Proof.
  refine (eq_trans (renderDocument_figure_numbers (H := asciiLib) newConverter KindDocument
                      [("a.png" : bytes, [] : bytes); ("img/b.jpg" : bytes, "B" : bytes)] _ _) _).
  - vm_compute. discriminate.
  - vm_compute. discriminate.
  - vm_compute. reflexivity.
Defined.

(** X21. The language of a fenced code block is the first word of its
    info string: what follows the first space is dropped, and the lines
    of the block are written between the fences as they are. *)
Theorem renderCodeBlock_language (word more : bytes) (lines : list bytes)
    (children : list node) :
  forallb (fun c => negb (Ascii.eqb c " ")) word = true ->
  renderCodeBlock (Node (KindFencedCodeBlock (Some (word ++ " " ++ more)) lines) children)
  = "```" ++ TrimSpace word ++ nl ++ concat lines ++ "```" ++ nl ++ nl.
Proof.
  intros Hword. unfold renderCodeBlock. cbn [Kind].
  unfold before_first_space.
  change (word ++ " " ++ more) with (word ++ " "%char :: more).
  rewrite (take_until_stop (fun c => Ascii.eqb c " ") word " "%char more Hword eq_refl).
  destruct (bytes_eqb (TrimSpace word) []) eqn:E; cbn [negb]; [|reflexivity].
  apply bytes_eqb_eq in E. now rewrite E.
Qed.

Lemma renderCodeBlock_language_witness :
  renderCodeBlock
    (Node (KindFencedCodeBlock (Some ("go linenos" : bytes))
                               ["x := 1" ++ nl; "y := 2" ++ nl]) [])
  = "```go" ++ nl ++ "x := 1" ++ nl ++ "y := 2" ++ nl ++ "```" ++ nl ++ nl.
Proof.
  apply (renderCodeBlock_language "go" "linenos"). reflexivity.
Defined.

(** ** Paragraphs, headings, lists and quotes of plain text *)

Section PlainText.

  Context `{GoLib}.

  (** *** [TrimSpace] takes bytes away at the two ends only *)

Lemma trimLeftSpace_suffix skip s : exists n, trimLeftSpace skip s = drop n s.
  Proof.
    revert skip. induction s as [|c s IH]; intros skip; [now exists 0|].
    cbn [trimLeftSpace]. destruct skip as [|k].
    - destruct (unicode.IsSpace _); [|now exists 0].
      destruct (IH (snd (utf8.DecodeRune (c :: s)) - 1)) as [n Hn].
      exists (S n). exact Hn.
    - destruct (IH k) as [n Hn]. exists (S n). exact Hn.
  Qed.

Lemma trimRightSpace_prefix fuel s : exists n, trimRightSpace fuel s = take n s.
  Proof.
    revert s. induction fuel as [|fuel IH]; intros s.
    - exists (length s). cbn. now rewrite firstn_all.
    - cbn [trimRightSpace]. destruct s as [|c s]; [now exists 0|].
      destruct (unicode.IsSpace _).
      + destruct (IH (take (length (c :: s) - snd (DecodeLastRune (c :: s))) (c :: s)))
          as [n Hn].
        rewrite Hn, take_take. now eexists.
      + exists (length (c :: s)). now rewrite firstn_all.
  Qed.

Lemma TrimSpace_elem c s : c ∈ TrimSpace s -> c ∈ s.
  Proof.
    unfold TrimSpace.
    destruct (trimLeftSpace_suffix 0 s) as [n1 ->].
    destruct (trimRightSpace_prefix (length (drop n1 s)) (drop n1 s)) as [n2 ->].
    intros Hin. apply elem_of_take in Hin as (i & Hi & _).
    rewrite lookup_drop in Hi. eapply list_elem_of_lookup_2. exact Hi.
  Qed.

Lemma TrimRight_elem c s cutset : c ∈ strings.TrimRight s cutset -> c ∈ s.
  Proof.
    destruct (TrimRight_prefix s cutset) as [n ->].
    intros Hin. apply elem_of_take in Hin as (i & Hi & _).
    eapply list_elem_of_lookup_2. exact Hi.
  Qed.

Lemma trimRightSpace_ascii_end fuel x d :
    (utf8.byte_val d < 0x80)%Z -> unicode.IsSpace (utf8.byte_val d) = false ->
    trimRightSpace fuel (x ++ [d]) = x ++ [d].
  Proof.
    intros Hd Hds. destruct fuel as [|fuel]; [reflexivity|].
    cbn [trimRightSpace]. destruct (x ++ [d]) as [|c s] eqn:E; [reflexivity|].
    rewrite <- E. unfold DecodeLastRune. rewrite rev_app_distr. cbn [rev app].
    destruct (Z.ltb_spec (utf8.byte_val d) 0x80); [|lia].
    cbn [fst]. now rewrite Hds.
  Qed.

  (** The first rune of a well-formed text is read from the text alone. *)
Lemma DecodeRune_app_valid t m :
    utf8.ValidString t = true -> t <> [] ->
    fst (utf8.DecodeRune (t ++ m)) = fst (utf8.DecodeRune t).
  Proof.
    intros Hv Hne. apply ValidString_spec in Hv.
    pose proof (runes_valid t) as Hr.
    destruct (utf8.runes t) as [|r rs] eqn:E.
    { cbn in Hv. congruence. }
    apply Forall_cons in Hr as [Hr _].
    rewrite <- Hv. rewrite string_of_runes_cons.
    unfold utf8.EncodeRune. rewrite Hr. rewrite <- app_assoc.
    now rewrite !DecodeRune_encode_scalar by exact Hr.
  Qed.

Lemma TrimSpace_text_brace t m :
    utf8.ValidString t = true -> t <> [] ->
    unicode.IsSpace (fst (utf8.DecodeRune t)) = false ->
    TrimSpace (t ++ m ++ ["}"%char]) = t ++ m ++ ["}"%char].
  Proof.
    intros Hv Hne Hs. unfold TrimSpace.
    assert (Hleft : trimLeftSpace 0 (t ++ m ++ ["}"%char]) = t ++ m ++ ["}"%char]).
    { destruct t as [|c t']; [congruence|].
      change ((c :: t') ++ m ++ ["}"%char]) with (c :: (t' ++ m ++ ["}"%char])).
      cbn [trimLeftSpace].
      change (c :: (t' ++ m ++ ["}"%char])) with ((c :: t') ++ m ++ ["}"%char]).
      rewrite (DecodeRune_app_valid (c :: t') _ Hv Hne), Hs. reflexivity. }
    rewrite Hleft, !app_assoc.
    apply trimRightSpace_ascii_end; reflexivity.
  Qed.

  (** *** A text with no opening brace holds no marker *)

Lemma HasPrefix_no_brace s lit :
    "{"%char ∉ s -> strings.HasPrefix s ("{"%char :: lit) = false.
  Proof.
    intros Hs. destruct s as [|c s]; [reflexivity|].
    cbn [strings.HasPrefix].
    replace (Ascii.eqb c "{") with false; [reflexivity|].
    symmetry. apply Ascii.eqb_neq. intros ->. apply Hs. constructor.
  Qed.

Lemma bytes_eqb_no_brace s lit :
    "{"%char ∉ s -> bytes_eqb s ("{"%char :: lit) = false.
  Proof.
    intros Hs. apply bytes_eqb_neq. intros ->. apply Hs. constructor.
  Qed.

Lemma processMarker_no_brace_trimmed s :
    "{"%char ∉ TrimSpace s -> processMarker s = None.
  Proof.
    intros Hs. unfold processMarker, vMarkerRe_FindStringSubmatch.
    change (list_ascii_of_string "{v}") with ("{"%char :: list_ascii_of_string "v}").
    change (list_ascii_of_string "{v:") with ("{"%char :: list_ascii_of_string "v:").
    change (list_ascii_of_string "{pagebreak}")
      with ("{"%char :: list_ascii_of_string "pagebreak}").
    change (list_ascii_of_string "{pagebreak:weak}")
      with ("{"%char :: list_ascii_of_string "pagebreak:weak}").
    now rewrite !bytes_eqb_no_brace, HasPrefix_no_brace by exact Hs.
  Qed.

Lemma processMarker_no_brace s : "{"%char ∉ s -> processMarker s = None.
  Proof.
    intros Hs. apply processMarker_no_brace_trimmed.
    intros Hin. apply Hs. now apply TrimSpace_elem.
  Qed.

Lemma HasSuffix_no_brace s front :
    "{"%char ∉ s -> strings.HasSuffix s (front ++ ["}"%char]) = true ->
    "{"%char ∈ front -> False.
  Proof.
    intros Hs Hsuf Hin. apply HasSuffix_spec in Hsuf as [f ->].
    apply Hs. apply elem_of_app. right. apply elem_of_app. now left.
  Qed.

Lemma stripTrailingMarker_no_brace s :
    "{"%char ∉ s -> stripTrailingMarker s = (strings.TrimRight s " ", NoMarker).
  Proof.
    intros Hs. unfold stripTrailingMarker.
    assert (Ht : "{"%char ∉ strings.TrimRight s " ").
    { intros Hin. apply Hs. now apply TrimRight_elem in Hin. }
    destruct (strings.HasSuffix (strings.TrimRight s " ") "{.noindent}") eqn:E1.
    { exfalso. apply (HasSuffix_no_brace _ "{.noindent" Ht E1). constructor. }
    destruct (strings.HasSuffix (strings.TrimRight s " ") "{indent}") eqn:E2.
    { exfalso. apply (HasSuffix_no_brace _ "{indent" Ht E2). constructor. }
    reflexivity.
  Qed.

  (** *** The two views of a paragraph of one text *)

Lemma plainText_text s soft hard :
    plainText (Node (KindText s soft hard) []) = s ++ (if soft then " " else []).
  Proof. cbn [plainText flat_map]. now rewrite app_nil_r. Qed.

Lemma plainText_textParagraph s : plainText (textParagraph s) = s.
  Proof.
    unfold textParagraph. cbn [plainText flat_map]. now rewrite !app_nil_r.
  Qed.

Lemma renderInlines_textParagraph s :
    renderInlines (textParagraph s) = convertPunctuation s.
  Proof.
    unfold renderInlines, textParagraph. cbn [Children flat_map renderInline].
    now rewrite app_nil_r.
  Qed.

Lemma plainText_textHeading level s : plainText (textHeading level s) = s.
  Proof.
    unfold textHeading. cbn [plainText flat_map]. now rewrite !app_nil_r.
  Qed.

Lemma renderInlines_textHeading level s :
    renderInlines (textHeading level s) = convertPunctuation s.
  Proof.
    unfold renderInlines, textHeading. cbn [Children flat_map renderInline].
    now rewrite app_nil_r.
  Qed.

Lemma no_target_colon s : no_target s = true -> strings.HasSuffix s ":" = false.
  Proof.
    intros Hs. destruct (strings.HasSuffix s ":") eqn:E; [|reflexivity].
    apply HasSuffix_spec in E as [front ->].
    unfold no_target in Hs. rewrite forallb_app in Hs.
    apply andb_true_iff in Hs as [_ Hs]. discriminate Hs.
  Qed.

Lemma no_target_infix s a b : no_target s = true -> no_target (take a (drop b s)) = true.
  Proof.
    unfold no_target. rewrite !forallb_forall. intros Hs c Hc.
    apply Hs. apply list_elem_of_In in Hc. apply list_elem_of_In.
    apply elem_of_take in Hc as (i & Hi & _). rewrite lookup_drop in Hi.
    eapply list_elem_of_lookup_2. exact Hi.
  Qed.

Lemma no_target_TrimSpace s : no_target s = true -> no_target (TrimSpace s) = true.
  Proof.
    intros Hs. unfold TrimSpace.
    destruct (trimLeftSpace_suffix 0 s) as [n1 ->].
    destruct (trimRightSpace_prefix (length (drop n1 s)) (drop n1 s)) as [n2 ->].
    now apply no_target_infix.
  Qed.

End PlainText.

(** X22. A paragraph of plain text. For a paragraph that is one text,
    well-formed UTF-8 with no opening brace and none of the six ASCII bytes
    that the punctuation conversion may replace: the text is written as it
    is, followed by an empty line; before any heading, when the text
    without the white space around it ends in a full-width colon, it is
    written inside the zero-indent block instead. The converter state is
    unchanged. *)
Theorem renderParagraph_text `{GoLib} (c : converter) (t : bytes) :
  utf8.ValidString t = true -> no_target t = true -> "{"%char ∉ t ->
  renderParagraph c (textParagraph t)
  = if negb (hasSeenHeader c) && strings.HasSuffix (TrimSpace t) "："
    then (noindentBlock t, c)
    else (t ++ nl ++ nl, c).
Proof.
  intros Hv Hn Hb.
  assert (Hbt : "{"%char ∉ TrimSpace t).
  { intros Hin. apply Hb. now apply TrimSpace_elem. }
  rewrite renderParagraph_plain.
  - rewrite renderInlines_textParagraph, (convertPunctuation_id t Hv Hn).
    unfold endsInColon.
    rewrite (no_target_colon _ (no_target_TrimSpace t Hn)), orb_false_r.
    reflexivity.
  - reflexivity.
  - rewrite plainText_textParagraph. now apply processMarker_no_brace.
  - rewrite plainText_textParagraph.
    now rewrite (stripTrailingMarker_no_brace _ Hbt).
Qed.

Lemma renderParagraph_text_witness :
  renderParagraph (H := asciiLib) newConverter (textParagraph "各位同事：")
  = (noindentBlock "各位同事：", newConverter).
Proof.
  apply (renderParagraph_text (H := asciiLib) newConverter "各位同事：").
  - vm_compute. reflexivity.
  - vm_compute. reflexivity.
  - intros Hin. repeat (apply elem_of_cons in Hin as [Hin|Hin]; [discriminate Hin|]).
    now apply elem_of_nil in Hin.
Defined.

(** X23. A paragraph with a trailing marker. For a text [t] as in X22
    that is not empty and whose first rune is no white space: the
    paragraph [t]{.noindent} is written as the zero-indent block around
    [t] without its trailing spaces, and the paragraph [t]{indent} as [t]
    without its trailing spaces followed by an empty line, whether a
    heading was seen or not; the marker itself is not written. *)
Theorem renderParagraph_trailing_marker `{GoLib} (c : converter) (t : bytes) :
  utf8.ValidString t = true -> no_target t = true -> "{"%char ∉ t ->
  t <> [] -> unicode.IsSpace (fst (utf8.DecodeRune t)) = false ->
  renderParagraph c (textParagraph (t ++ "{.noindent}"))
  = (noindentBlock (strings.TrimRight t " "), c)
  /\ renderParagraph c (textParagraph (t ++ "{indent}"))
     = (strings.TrimRight t " " ++ nl ++ nl, c).
Proof.
  intros Hv Hn Hb Hne Hs.
  assert (Hfirst : exists c0 t', t = c0 :: t' /\ c0 <> "{"%char).
  { destruct t as [|c0 t']; [congruence|]. exists c0, t'. split; [reflexivity|].
    intros ->. apply Hb. constructor. }
  destruct Hfirst as (c0 & t' & Ht & Hc0).
  assert (Hmarker : forall m : bytes,
            TrimSpace (t ++ m ++ ["}"%char]) = t ++ m ++ ["}"%char]
            /\ processMarker (t ++ m ++ ["}"%char]) = None).
  { intros m. pose proof (TrimSpace_text_brace t m Hv Hne Hs) as Htrim.
    split; [exact Htrim|].
    unfold processMarker. rewrite Htrim. rewrite Ht.
    unfold vMarkerRe_FindStringSubmatch.
    cbn [app strings.HasPrefix list_ascii_of_string].
    replace (Ascii.eqb c0 "{") with false by (symmetry; now apply Ascii.eqb_neq).
    cbn [andb].
    rewrite !bytes_eqb_neq; [reflexivity|..]; intros Heq; injection Heq as Heq _;
      contradiction. }
  assert (Hcontent : forall m : bytes,
            utf8.ValidString m = true -> no_target m = true ->
            convertPunctuation (t ++ m) = t ++ m).
  { intros m Hvm Hnm. apply convertPunctuation_id.
    - now apply ValidString_app.
    - unfold no_target in *. now rewrite forallb_app, Hn, Hnm. }
  split.
  - destruct (Hmarker "{.noindent") as [Htrim Hproc].
    change (t ++ "{.noindent" ++ ["}"%char]) with (t ++ "{.noindent}") in Htrim, Hproc.
    rewrite renderParagraph_noindent.
    + rewrite renderInlines_textParagraph, Hcontent by reflexivity.
      unfold stripNoindent. f_equal. f_equal.
      change (t ++ "{.noindent}") with (t ++ "{.noindent" ++ ["}"%char]).
      rewrite !app_assoc, TrimRight_snoc by reflexivity.
      rewrite <- app_assoc.
      change ("{.noindent" ++ ["}"%char]) with (list_ascii_of_string "{.noindent}").
      now rewrite TrimSuffix_app.
    + reflexivity.
    + now rewrite plainText_textParagraph, Htrim.
    + rewrite plainText_textParagraph, Htrim.
      change (stripTrailingMarker (t ++ "{.noindent}"))
        with (stripTrailingMarker (t ++ "{.noindent}" ++ strings.Repeat " " 0)).
      now rewrite (stripTrailingMarker_noindent t 0).
  - destruct (Hmarker "{indent") as [Htrim Hproc].
    change (t ++ "{indent" ++ ["}"%char]) with (t ++ "{indent}") in Htrim, Hproc.
    unfold renderParagraph.
    change (collectImages (textParagraph (t ++ "{indent}"))) with (@nil node).
    rewrite plainText_textParagraph, Htrim, Hproc.
    change (stripTrailingMarker (t ++ "{indent}"))
      with (stripTrailingMarker (t ++ "{indent}" ++ strings.Repeat " " 0)).
    rewrite (stripTrailingMarker_indent t 0). cbn [snd].
    rewrite renderInlines_textParagraph, Hcontent by reflexivity.
    f_equal. f_equal.
    change (t ++ "{indent}") with (t ++ "{indent" ++ ["}"%char]).
    rewrite !app_assoc, TrimRight_snoc by reflexivity.
    rewrite <- app_assoc.
    change ("{indent" ++ ["}"%char]) with (list_ascii_of_string "{indent}").
    now rewrite TrimSuffix_app.
Qed.

Lemma renderParagraph_trailing_marker_witness :
  renderParagraph (H := asciiLib) newConverter (textParagraph "联系人：张三 {.noindent}")
  = (noindentBlock "联系人：张三", newConverter).
Proof.
  refine (proj1 (renderParagraph_trailing_marker (H := asciiLib) newConverter
                   "联系人：张三 " _ _ _ _ _)).
  - vm_compute. reflexivity.
  - vm_compute. reflexivity.
  - intros Hin. repeat (apply elem_of_cons in Hin as [Hin|Hin]; [discriminate Hin|]).
    now apply elem_of_nil in Hin.
  - discriminate.
  - vm_compute. reflexivity.
Defined.

(** X24. A heading of plain text. For a heading that is one text as in
    X22: a heading of level 1 writes nothing, a heading of another level
    writes as many equals signs as its level, a space, the text as it is
    and an empty line; in both cases the flag of the headings is set and
    the figure counter is kept. *)
Theorem renderHeading_text `{GoLib} (c : converter) (level : nat) (t : bytes) :
  utf8.ValidString t = true -> no_target t = true -> "{"%char ∉ t ->
  renderHeading c (textHeading level t)
  = (if level =? 1 then [] else strings.Repeat "=" level ++ " " ++ t ++ nl ++ nl,
     {| figureCounter := figureCounter c; hasSeenHeader := true |}).
Proof.
  intros Hv Hn Hb. unfold renderHeading.
  change (headingLevel (textHeading level t)) with level.
  destruct (level =? 1); [reflexivity|].
  rewrite plainText_textHeading.
  assert (Hbt : "{"%char ∉ TrimSpace t).
  { intros Hin. apply Hb. now apply TrimSpace_elem. }
  rewrite (stripTrailingMarker_no_brace _ Hbt). cbn [snd].
  now rewrite renderInlines_textHeading, (convertPunctuation_id t Hv Hn).
Qed.

Lemma renderHeading_text_witness :
  renderHeading (H := asciiLib) newConverter (textHeading 2 "一、工作总结")
  = ("== 一、工作总结" ++ nl ++ nl, {| figureCounter := 0; hasSeenHeader := true |}).
Proof.
  apply (renderHeading_text (H := asciiLib) newConverter 2 "一、工作总结").
  - vm_compute. reflexivity.
  - vm_compute. reflexivity.
  - intros Hin. repeat (apply elem_of_cons in Hin as [Hin|Hin]; [discriminate Hin|]).
    now apply elem_of_nil in Hin.
Defined.

Section ListsAndQuotes.

  Context `{GoLib}.

Lemma renderListItem_textItem t :
    renderListItem (textItem t) = strings.TrimRight (convertPunctuation t) nl.
  Proof.
    unfold textItem. cbn [renderListItem flat_map app strings.Join].
    change (Node KindParagraph [Node (KindText t false false) []]) with (textParagraph t).
    now rewrite renderInlines_textParagraph.
  Qed.

Lemma renderList_items ordered (ts : list bytes) :
    renderList (Node (KindList ordered) (map textItem ts))
    = flat_map (fun t => (if ordered then "+ " else "- ")
                         ++ strings.TrimRight (convertPunctuation t) nl ++ nl) ts
      ++ nl.
  Proof.
    cbn [renderList]. f_equal.
    induction ts as [|t ts IH]; [reflexivity|].
    cbn [map flat_map]. rewrite IH. f_equal.
    change (textItem t) with (Node KindListItem [textParagraph t]) at 1.
    cbv iota. fold (textItem t). rewrite renderListItem_textItem.
    now destruct ordered.
  Qed.

  (** *** [Split] and [Join] on lines *)

Lemma Split_no_sep s sep :
    sep ∉ s -> strings.Split s sep = [s].
  Proof.
    induction s as [|c s IH]; intros Hs; [reflexivity|].
    apply not_elem_of_cons in Hs as [Hc Hs].
    cbn [strings.Split].
    replace (Ascii.eqb c sep) with false by (symmetry; apply Ascii.eqb_neq; congruence).
    now rewrite (IH Hs).
  Qed.

Lemma Split_app s sep rest :
    sep ∉ s -> strings.Split (s ++ sep :: rest) sep = s :: strings.Split rest sep.
  Proof.
    induction s as [|c s IH]; intros Hs.
    - cbn [app strings.Split]. now rewrite Ascii.eqb_refl.
    - apply not_elem_of_cons in Hs as [Hc Hs].
      cbn [app strings.Split].
      replace (Ascii.eqb c sep) with false by (symmetry; apply Ascii.eqb_neq; congruence).
      now rewrite (IH Hs).
  Qed.

Lemma Split_Join (ls : list bytes) :
    ls <> [] -> Forall (fun l => LF ∉ l) ls ->
    strings.Split (strings.Join ls nl) LF = ls.
  Proof.
    intros Hne Hls. induction Hls as [|l ls Hl Hls IH]; [congruence|].
    destruct ls as [|l2 ls].
    - cbn [strings.Join]. now apply Split_no_sep.
    - change (strings.Join (l :: l2 :: ls) nl) with (l ++ LF :: strings.Join (l2 :: ls) nl).
      rewrite Split_app by exact Hl. f_equal. now apply IH.
  Qed.

Lemma Join_last (ls : list bytes) sep l :
    last ls = Some l -> exists front, strings.Join ls sep = front ++ l.
  Proof.
    induction ls as [|x ls IH]; [discriminate|].
    destruct ls as [|y ls].
    - cbn. intros Hl. injection Hl as ->. now exists [].
    - change (last (x :: y :: ls)) with (last (y :: ls)). intros Hl.
      destruct (IH Hl) as [front Hf].
      change (strings.Join (x :: y :: ls) sep) with (x ++ sep ++ strings.Join (y :: ls) sep).
      rewrite Hf. exists (x ++ sep ++ front). now rewrite !app_assoc.
  Qed.

Lemma newlines_cut k : forallb (strings.in_cutset nl) (strings.Repeat nl k) = true.
  Proof. induction k as [|k IH]; [reflexivity|exact IH]. Qed.

End ListsAndQuotes.

(** X25. A list of plain items. For a list whose items hold one
    paragraph of one text each, the texts being well-formed UTF-8 with none
    of the six ASCII bytes that the punctuation conversion may replace:
    each item is written on a line of its own, after "+ " in an ordered
    list and "- " in any other, with the newlines at its end taken off,
    and an empty line ends the list. *)
Theorem renderList_flat `{GoLib} (ordered : bool) (ts : list bytes) :
  Forall (fun t => utf8.ValidString t = true /\ no_target t = true) ts ->
  renderList (Node (KindList ordered) (map textItem ts))
  = flat_map (fun t => (if ordered then "+ " else "- ") ++ strings.TrimRight t nl ++ nl) ts
    ++ nl.
Proof.
  intros Hts. rewrite renderList_items. f_equal.
  induction Hts as [|t ts [Hv Hn] _ IH]; [reflexivity|].
  cbn [flat_map]. now rewrite IH, (convertPunctuation_id t Hv Hn).
Qed.

Lemma renderList_flat_witness :
  renderList (H := asciiLib) (Node (KindList true) [textItem "第一项"; textItem "第二项"])
  = "+ 第一项" ++ nl ++ "+ 第二项" ++ nl ++ nl.
Proof.
  apply (renderList_flat (H := asciiLib) true ["第一项" : bytes; "第二项" : bytes]).
  repeat constructor; vm_compute; reflexivity.
Defined.

(** X26. The lines of a quote. The rendered text of a block inside a
    quote loses the newlines at its end, and each of its lines is wrapped
    in a quote of its own: for lines that hold no newline, the last of
    them not empty, joined by newlines and followed by any number of
    newlines, there is one quote for each line, in order. A block that
    renders to nothing gives one empty quote. *)
Theorem quoteLines_lines (ls : list bytes) (l : bytes) (k : nat) :
  Forall (fun l => LF ∉ l) ls -> last ls = Some l -> l <> [] ->
  quoteLines (strings.Join ls nl ++ strings.Repeat nl k)
  = flat_map (fun l => "#quote[" ++ l ++ "]" ++ nl) ls
  /\ quoteLines [] = "#quote[]" ++ nl.
Proof.
  intros Hls Hlast Hl. split; [|reflexivity].
  unfold quoteLines.
  assert (Hne : ls <> []) by (intros ->; discriminate Hlast).
  rewrite TrimRight_cut by apply newlines_cut.
  assert (Htrim : strings.TrimRight (strings.Join ls nl) nl = strings.Join ls nl).
  { destruct (Join_last ls nl l Hlast) as [front ->].
    destruct (exists_last Hl) as (l' & d & ->).
    rewrite app_assoc. apply TrimRight_snoc.
    assert (Hd : d <> LF).
    { intros ->. rewrite Forall_forall in Hls.
      apply (Hls (l' ++ [LF])).
      - apply last_Some_elem_of in Hlast. exact Hlast.
      - apply elem_of_app. right. constructor. }
    unfold strings.in_cutset. cbn.
    rewrite orb_false_r. now apply Ascii.eqb_neq. }
  rewrite Htrim, Split_Join by assumption. reflexivity.
Qed.

Lemma quoteLines_lines_witness :
  quoteLines ("第一行" ++ nl ++ "第二行" ++ nl ++ nl)
  = "#quote[第一行]" ++ nl ++ "#quote[第二行]" ++ nl.
Proof.
  refine (proj1 (quoteLines_lines ["第一行" : bytes; "第二行" : bytes] "第二行" 2 _ eq_refl _)).
  - repeat constructor; intros Hin;
      repeat (apply elem_of_cons in Hin as [Hin|Hin]; [discriminate Hin|]);
      now apply elem_of_nil in Hin.
  - discriminate.
Defined.

Section NodeText.

  Context `{GoLib}.

Lemma plainTextNode_inv n :
    plainTextNode n = true -> exists v hard, n = Node (KindText v false hard) [].
  Proof.
    destruct n as [k [|child rest]]; destruct k; try discriminate.
    cbn. intros Hs. apply negb_true_iff in Hs. subst. now eexists _, _.
  Qed.

Lemma nodeText_agrees n : textOnly n = true -> nodeText n = plainText n.
  Proof.
    induction n as [k children IH] using node_children_ind. intros Ht.
    assert (Hgeneric :
      forallb textOnly children = true ->
      flat_map (fun child =>
                  match child with
                  | Node (KindText v soft _) _ => v ++ (if soft then nl else [])
                  | _ => nodeText child
                  end) children
      = flat_map plainText children).
    { clear Ht. intros Hall. induction IH as [|child rest Hchild _ IHrest]; [reflexivity|].
      cbn [forallb] in Hall. apply andb_true_iff in Hall as [Hc Hr].
      cbn [flat_map]. rewrite (IHrest Hr). f_equal.
      destruct child as [kc cc]. destruct kc; try (now apply Hchild).
      cbn [textOnly] in Hc. apply plainTextNode_inv in Hc as (v & hard & Heq).
      injection Heq as -> -> -> ->. cbn. now rewrite !app_nil_r. }
    assert (Hspan :
      forallb plainTextNode children = true ->
      flat_map (fun child =>
                  match child with
                  | Node (KindText v soft _) _ => v ++ (if soft then nl else [])
                  | _ => nodeText child
                  end) children
      = textChildren (Node k children)).
    { clear. intros Hall. unfold textChildren. cbn [Children].
      induction children as [|child rest IHrest]; [reflexivity|].
      cbn [forallb] in Hall. apply andb_true_iff in Hall as [Hc Hr].
      cbn [flat_map]. rewrite (IHrest Hr). f_equal.
      apply plainTextNode_inv in Hc as (v & hard & ->). cbn. apply app_nil_r. }
    destruct k; cbn [textOnly] in Ht;
      try (cbn [nodeText plainText]; rewrite (Hgeneric Ht); apply app_nil_r).
    - (* a text *)
      apply plainTextNode_inv in Ht as (v & hard & Heq).
      injection Heq as -> -> -> ->. cbn. now rewrite !app_nil_r.
    - discriminate Ht.
    - (* a code span *)
      cbn [nodeText plainText]. rewrite (Hspan Ht). apply app_nil_r.
  Qed.

End NodeText.

(** X27. [nodeText] and [plainText] read the same text from inline
    content that is plain: no soft line break, no [String] node, text
    nodes that are leaves, and code spans that hold text nodes only. (They
    differ on a soft line break, which [nodeText] writes as a newline and
    [plainText] as a space, and on [String] nodes, which [nodeText]
    skips.) *)
Theorem nodeText_plainText `{GoLib} (n : node) :
  textOnly n = true -> nodeText n = plainText n.
Proof. apply nodeText_agrees. Qed.

Lemma nodeText_plainText_witness :
  nodeText (Node KindParagraph
              [Node (KindText "见" false false) [];
               Node (KindEmphasis 2) [Node (KindText "附件" false false) []];
               Node KindCodeSpan [Node (KindText "a,b" false false) []]])
  = "见附件a,b".
Proof.
  refine (eq_trans (nodeText_plainText (H := asciiLib) _ _) _); reflexivity.
Defined.

(** ** The caption of an image *)

Section Caption.

Lemma take_until_all p a :
    forallb (fun x => negb (p x)) a = true -> take_until p a = a.
  Proof.
    induction a as [|x a IH]; [reflexivity|].
    cbn [forallb take_until]. intros [Hx Ha]%andb_true_iff.
    apply negb_true_iff in Hx. rewrite Hx. now rewrite IH.
  Qed.

Lemma forallb_rev {A} (f : A -> bool) l : forallb f (rev l) = forallb f l.
  Proof.
    induction l as [|x l IH]; [reflexivity|].
    cbn [rev forallb]. rewrite forallb_app, IH. cbn. now rewrite andb_true_r, andb_comm.
  Qed.

  (** The extension starts at the last dot of the last element. *)
Lemma ext_rev_dot e r acc :
    forallb (fun c => negb (isPathSeparator c) && negb (Ascii.eqb c ".")) e = true ->
    ext_rev acc (rev e ++ "."%char :: r) = "."%char :: e ++ acc.
  Proof.
    revert acc. induction e as [|x e IH] using rev_ind; intros acc He.
    - reflexivity.
    - rewrite forallb_app in He. apply andb_true_iff in He as [He Hx].
      cbn [forallb] in Hx. rewrite andb_true_r in Hx.
      apply andb_true_iff in Hx as [Hx1 Hx2].
      apply negb_true_iff in Hx1, Hx2.
      rewrite rev_app_distr. cbn [rev app ext_rev]. rewrite Hx1, Hx2.
      rewrite (IH _ He). now rewrite <- app_assoc.
  Qed.

Lemma filepath_Base_last front name :
    (front = [] \/ exists d, front = d ++ ["/"%char]) ->
    name <> [] -> forallb (fun c => negb (isPathSeparator c)) name = true ->
    filepath_Base (front ++ name) = name.
  Proof.
    intros Hfront Hne Hname. unfold filepath_Base.
    destruct (front ++ name) as [|c0 p0] eqn:E.
    { apply app_eq_nil in E as [_ ->]. congruence. }
    rewrite <- E. clear c0 p0 E.
    rewrite rev_app_distr.
    destruct (exists_last Hne) as (n' & x & ->).
    rewrite forallb_app in Hname. apply andb_true_iff in Hname as [Hn' Hx].
    cbn [forallb] in Hx. rewrite andb_true_r in Hx. apply negb_true_iff in Hx.
    rewrite rev_app_distr. cbn [rev app].
    rewrite TrimLeft_fixed
      by (unfold strings.in_cutset; cbn; rewrite orb_false_r; exact Hx).
    assert (Htake : take_until isPathSeparator (x :: rev n' ++ rev front) = x :: rev n').
    { change (x :: rev n' ++ rev front) with ((x :: rev n') ++ rev front).
      destruct Hfront as [->|[d ->]].
      - cbn [rev]. rewrite app_nil_r. apply take_until_all.
        cbn [forallb]. now rewrite Hx, forallb_rev.
      - rewrite rev_app_distr. cbn [rev app].
        apply (take_until_stop isPathSeparator (x :: rev n') "/"%char (rev d));
          [|reflexivity].
        cbn [forallb]. now rewrite Hx, forallb_rev. }
    rewrite Htake. cbn [rev]. rewrite rev_involutive.
    now destruct (n' ++ [x]) eqn:E; [apply app_eq_nil in E as [_ E]; discriminate E|].
  Qed.

End Caption.

(** X30. The caption of an image is the stem of its file name. For a
    destination made of nothing or a directory part that ends in a slash,
    a name with no slash, a dot and an extension with no slash and no dot,
    [imageCaption] is the name: the directories and the last extension are
    taken off, and dots inside the name are kept. *)
Theorem imageCaption_stem (front name ext : bytes) (children : list node) :
  (front = [] \/ exists d, front = d ++ ["/"%char]) ->
  forallb (fun c => negb (isPathSeparator c)) name = true ->
  forallb (fun c => negb (isPathSeparator c) && negb (Ascii.eqb c ".")) ext = true ->
  imageCaption (Node (KindImage (front ++ name ++ "." ++ ext)) children) = name.
Proof.
  intros Hfront Hname Hext. unfold imageCaption. cbn [imageDestination Kind].
  assert (Hsep : forallb (fun c => negb (isPathSeparator c)) (name ++ "." ++ ext) = true).
  { apply forallb_forall. intros c Hc.
    pose proof (proj1 (forallb_forall _ _) Hname) as Hn.
    pose proof (proj1 (forallb_forall _ _) Hext) as He.
    apply in_app_or in Hc as [Hc|Hc]; [now apply Hn|].
    apply in_app_or in Hc as [Hc|Hc].
    - destruct Hc as [<-|[]]. reflexivity.
    - specialize (He c Hc). now apply andb_true_iff in He as [? _]. }
  rewrite (filepath_Base_last front (name ++ "." ++ ext) Hfront); [|now destruct name|exact Hsep].
  unfold filepath_Ext.
  change (name ++ "." ++ ext) with (name ++ "."%char :: ext) at 2.
  rewrite rev_app_distr. cbn [rev]. rewrite <- app_assoc. cbn [app].
  rewrite (ext_rev_dot ext (rev name) [] Hext), app_nil_r.
  change ("."%char :: ext) with ("." ++ ext).
  apply TrimSuffix_app.
Qed.

Lemma imageCaption_stem_witness :
  imageCaption (Node (KindImage "img/2024/图 1.v2.png") []) = "图 1.v2".
Proof.
  apply (imageCaption_stem "img/2024/" "图 1.v2" "png").
  - right. now exists (list_ascii_of_string "img/2024").
  - reflexivity.
  - reflexivity.
Defined.

(** ** The command line: [cli.Run] *)

Section Cli.

  Import cli.

  Variable json_Unmarshal : bytes -> option (gmap bytes bytes).

Lemma maxInputSize_value : maxInputSize = 10485760%Z.
  Proof. reflexivity. Qed.

Lemma ReadAll_small r :
    (Z.of_nat (length (delivered r)) <= maxInputSize)%Z ->
    ReadAll_LimitReader r (maxInputSize + 1) = (delivered r, failure r).
  Proof.
    intros Hle. unfold ReadAll_LimitReader.
    destruct (Z.ltb_spec (Z.of_nat (length (delivered r))) (maxInputSize + 1));
      [reflexivity|lia].
  Qed.

Lemma ReadAll_large r :
    (maxInputSize < Z.of_nat (length (delivered r)))%Z ->
    exists input,
      ReadAll_LimitReader r (maxInputSize + 1) = (input, None)
      /\ (maxInputSize < Z.of_nat (length input))%Z.
  Proof.
    intros Hgt. unfold ReadAll_LimitReader.
    destruct (Z.ltb_spec (Z.of_nat (length (delivered r))) (maxInputSize + 1)); [lia|].
    eexists. split; [reflexivity|].
    rewrite length_take. rewrite maxInputSize_value in *. lia.
  Qed.

End Cli.

(** X28. An input within the limit is converted. Without a flag, when
    the standard input delivers at most 10 MiB (10485760 bytes), up to
    its end of file, the program writes the conversion of all of it to the
    standard output and ends with status 0; when the input ends in a read
    error instead, nothing is written to the standard output, the error is
    reported on the standard error and the status is 1. *)
Theorem Run_within_limit (json_Unmarshal : bytes -> option (gmap bytes bytes))
    (manifestJSON exampleMD : bytes) (convert : bytes -> bytes) (stdin : cli.reader) :
  (Z.of_nat (length (cli.delivered stdin)) <= cli.maxInputSize)%Z ->
  cli.Run json_Unmarshal manifestJSON exampleMD convert false false false stdin
  = match cli.failure stdin with
    | None => {| cli.stdout := convert (cli.delivered stdin); cli.stderr := [];
                 cli.status := 0 |}
    | Some e => {| cli.stdout := []; cli.stderr := "error reading input: " ++ e ++ nl;
                   cli.status := 1 |}
    end.
Proof.
  intros Hle. unfold cli.Run. rewrite (ReadAll_small stdin Hle).
  destruct (cli.failure stdin) as [e|]; [reflexivity|].
  destruct (Z.ltb_spec cli.maxInputSize (Z.of_nat (length (cli.delivered stdin))));
    [lia|reflexivity].
Qed.

Lemma Run_within_limit_witness :
  main (H := asciiLib) (fun _ => None) "{}" "example" false false false
       {| cli.delivered := "abc"; cli.failure := None |}
  = {| cli.stdout := main_convert (H := asciiLib) "abc"; cli.stderr := [];
       cli.status := 0 |}.
Proof.
  apply (Run_within_limit (fun _ => None) "{}" "example" (main_convert (H := asciiLib))
           {| cli.delivered := "abc"; cli.failure := None |}).
  vm_compute. discriminate.
Defined.

(** X29. An input above the limit is refused. Without a flag, when the
    standard input delivers more than 10485760 bytes, the conversion is
    not run: nothing is written to the standard output, the standard error
    gets "error: input exceeds 10485760 bytes" and the status is 1,
    whatever the input holds and however it ends. *)
Theorem Run_above_limit (json_Unmarshal : bytes -> option (gmap bytes bytes))
    (manifestJSON exampleMD : bytes) (convert : bytes -> bytes) (stdin : cli.reader) :
  (cli.maxInputSize < Z.of_nat (length (cli.delivered stdin)))%Z ->
  cli.Run json_Unmarshal manifestJSON exampleMD convert false false false stdin
  = {| cli.stdout := []; cli.stderr := "error: input exceeds 10485760 bytes" ++ nl;
       cli.status := 1 |}.
Proof.
  intros Hgt. unfold cli.Run.
  destruct (ReadAll_large stdin Hgt) as (input & -> & Hlen).
  destruct (Z.ltb_spec cli.maxInputSize (Z.of_nat (length input))); [reflexivity|lia].
Qed.

Lemma Run_above_limit_witness :
  cli.Run (fun _ => None) "{}" "example" (fun s => s) false false false
    {| cli.delivered := repeat "a"%char (Z.to_nat 10485761); cli.failure := None |}
  = {| cli.stdout := []; cli.stderr := "error: input exceeds 10485760 bytes" ++ nl;
       cli.status := 1 |}.
Proof.
  apply Run_above_limit.
  cbn [cli.delivered]. rewrite repeat_length, Z2Nat.id by discriminate. reflexivity.
Defined.
